(** * Minance: the monthly projection engine of a Bitcoin mining model

    A shallow embedding of the calculation module of the repository (the
    second document of [src/app/page.tsx], imported by the results page as
    [@/lib/calculations]) together with the record types of
    [src/lib/types/index.ts].

    Conventions of the embedding.
    - A JavaScript [number] that counts units (miners) or whole months is a
      [Z]; every other [number] is an exact rational [Q].  Rounding of IEEE
      doubles, [NaN] and the infinities are not represented: the source guards
      its divisions (ramp-up, hashrate fraction, cost per coin, normalised age)
      and the remaining divisor, a hardware model's power draw, is assumed
      positive by the theorems whose statement depends on that quotient.
    - A [Date] is a calendar day; all dates live in one time zone, so that the
      order of time values is the lexicographic order on (year, month, day).
    - [Math.exp] has no rational counterpart.  The engine takes it as the
      section variable [Math_exp]; the failure curve itself is studied over
      the real numbers in the module [RealCurve].
    - Where a quotient is floored or a sum is compared with a bound, the
      rounding of doubles decides the result.  The module [Rounded] at the
      end of the definitions holds the allocator and the unit conversions
      with the result of every floating-point operation passed through a
      function [round]; [round64] is the rounding of binary64. *)

From Stdlib Require Import ZArith QArith Qround Qminmax Qabs Qpower Lia Lqa List Sorted.
From Stdlib Require Import String Ascii.
From Stdlib Require Reals Lra Floats.
From stdpp Require Import gmap strings list fin_maps.

Local Open Scope Z_scope.

(** ** Calendar dates and the date-fns helpers used by the engine *)

Record Date := mkDate { year : Z; monthOfYear : Z; dayOfMonth : Z }.

(** [compareAsc a b]: the sign of [a.getTime() - b.getTime()]. *)
Definition compareAsc (a b : Date) : comparison :=
  match year a ?= year b with
  | Eq => match monthOfYear a ?= monthOfYear b with
          | Eq => dayOfMonth a ?= dayOfMonth b
          | c => c
          end
  | c => c
  end.

Definition isAfter (a b : Date) : bool :=
  match compareAsc a b with Gt => true | _ => false end.

Definition isBefore (a b : Date) : bool :=
  match compareAsc a b with Lt => true | _ => false end.

(** [a >= b] and [a <= b] on [Date] objects (comparison of time values). *)
Definition date_geb (a b : Date) : bool := negb (isBefore a b).
Definition date_leb (a b : Date) : bool := negb (isAfter a b).

Definition startOfMonth (d : Date) : Date :=
  mkDate (year d) (monthOfYear d) 1.

(** Months since year 0, the calendar month of a date. *)
Definition monthIndex (d : Date) : Z := year d * 12 + (monthOfYear d - 1).

Definition addMonths (d : Date) (n : Z) : Date :=
  let i := monthIndex d + n in
  mkDate (i / 12) (i mod 12 + 1) (dayOfMonth d).

Definition differenceInCalendarMonths (l r : Date) : Z :=
  monthIndex l - monthIndex r.

Definition sign_of (c : comparison) : Z :=
  match c with Lt => -1 | Eq => 0 | Gt => 1 end.

(** [differenceInMonths l r]: the number of full months between the two
    dates.  Modelled from the documentation of date-fns: the calendar
    difference, less one when the last month is not complete.  The
    adjustments date-fns makes for a left date on the last days of a month
    are left out: the engine's left argument is always the first day of a
    month. *)
Definition differenceInMonths (l r : Date) : Z :=
  let s := sign_of (compareAsc l r) in
  let difference := Z.abs (differenceInCalendarMonths l r) in
  if difference <? 1 then 0
  else
    let shifted := addMonths l (- s * difference) in
    let isLastMonthNotFull :=
      if Z.eqb (sign_of (compareAsc shifted r)) (- s) then 1 else 0 in
    s * (difference - isLastMonthNotFull).

(** [format(d, "yyyy-MM-dd")]. *)
Definition digit (n : Z) : ascii :=
  ascii_of_nat (48 + Z.to_nat (n mod 10)).

Definition pad2 (n : Z) : string :=
  String (digit (n / 10)) (String (digit n) EmptyString).

Definition pad4 (n : Z) : string :=
  String (digit (n / 1000)) (String (digit (n / 100)) (pad2 n)).

Definition format_yyyy_MM_dd (d : Date) : string :=
  (pad4 (year d) ++ "-" ++ pad2 (monthOfYear d) ++ "-" ++ pad2 (dayOfMonth d))%string.

(** ** 4.1 Reward schedule *)

Definition HALVING_DATES : list (Date * Q) :=
  [ (mkDate 2009 1 3, 50%Q);
    (mkDate 2012 11 28, 25%Q);
    (mkDate 2016 7 9, 12.5%Q);
    (mkDate 2020 5 11, 6.25%Q);
    (mkDate 2024 4 19, 3.125%Q);
    (mkDate 2028 4 1, 1.5625%Q);
    (mkDate 2032 4 1, 0.78125%Q) ].

(** The loop [for (i = length - 1; i >= 0; i--)] with its [break]: the
    entries are visited from the last one down, the first hit wins. *)
Fixpoint scanHalvings (date : Date) (fromLast : list (Date * Q)) (reward : Q) : Q :=
  match fromLast with
  | [] => reward
  | (d, r) :: rest => if date_geb date d then r else scanHalvings date rest reward
  end.

Definition getBlockReward (date : Date) : Q :=
  scanHalvings date (rev HALVING_DATES) 50%Q.

(** ** Data model ([src/lib/types/index.ts]) *)

Record Project := mkProject { startDate : Date; endDate : Date }.

Record CapexBreakdown := mkCapex {
  electrical : Q; civil : Q; warehouse : Q;
  containers : Q; office : Q; itNetworking : Q }.

Record OpexBreakdown := mkOpex {
  insurance : Q; maintenance : Q; security : Q; monitoring : Q }.

Record Tranche := mkTranche {
  tranche_id : string;
  powerMW : Q;
  tranche_startDate : Date;
  rampUpMonths : Z;
  uptime : Q;
  capex : CapexBreakdown;
  electricityPricePerKWh : Q;
  opex : OpexBreakdown;
  poolFee : Q }.

Record Site := mkSite {
  site_id : string;
  site_name : string;
  tranches : list Tranche }.

Record TeamProfile := mkTeamProfile {
  profile_id : string;
  annualSalary : Q }.

Inductive ScopeType := ScopeCompany | ScopeSite | ScopeTranche.

Record TeamMemberScope := mkScope {
  scope_type : ScopeType;
  targetId : option string }.

Record TeamMember := mkTeamMember {
  profileId : string;
  scope : TeamMemberScope;
  member_startDate : Date;
  employmentRate : Q }.

Record ASICModel := mkModel {
  model_id : string;
  powerW : Q;
  hashrateThS : Q;
  pricePerTh : Q }.

Inductive QuantityMode := ModeMiners | ModeMW.

Record ASICFleet := mkFleet {
  fleet_id : string;
  modelId : string;
  quantityMode : QuantityMode;
  quantityMiners : option Z;
  quantityMW : option Q;
  originationDate : Date;
  lifespanYears : Q }.

Record FleetAssignment := mkAssignment {
  fleetId : string;
  siteId : string;
  priority : Z }.

Record ScenarioMonthlyData := mkMonthlyData {
  md_month : string;
  btcPriceUSD : Q;
  globalHashrateEH : Q;
  txFeesPerBlock : Q }.

Record Scenario := mkScenario {
  scenario_id : string;
  scenario_name : string;
  monthlyData : list ScenarioMonthlyData }.

Record SiteMonthlyMetrics := mkSiteMetrics {
  sm_siteId : string;
  sm_siteName : string;
  sm_activeMiners : Z;
  sm_powerUsedMW : Q;
  sm_hashrateThs : Q;
  sm_btcMined : Q;
  sm_revenue : Q;
  sm_electricityCost : Q;
  sm_opexCost : Q;
  sm_capexDepreciation : Q;
  sm_minerDepreciation : Q;
  sm_teamCost : Q;
  sm_totalExpenses : Q;
  sm_ebitda : Q }.

Record FleetMonthlyMetrics := mkFleetMetrics {
  fm_fleetId : string;
  fm_modelId : string;
  fm_activeMiners : Z;
  fm_failedMiners : Z }.

Record MonthlyFinancialMetrics := mkMetrics {
  month : string;
  m_activeMiners : Z;
  m_failedMiners : Z;
  spareMiners : Z;
  totalHashrateThs : Q;
  btcMined : Q;
  btcAfterPoolFee : Q;
  txFeeRevenueBTC : Q;
  totalBTC : Q;
  revenueUSD : Q;
  electricityCost : Q;
  opexCost : Q;
  capexDepreciation : Q;
  minerDepreciation : Q;
  teamCost : Q;
  totalExpenses : Q;
  ebitda : Q;
  costPerBTC : Q;
  siteMetrics : list SiteMonthlyMetrics;
  fleetMetrics : list FleetMonthlyMetrics }.

Record ScenarioResults := mkResults {
  scenarioId : string;
  scenarioName : string;
  monthlyMetrics : list MonthlyFinancialMetrics }.

(** ** The calculation module *)

Record CalculationContext := mkContext {
  project : Project;
  scenario : Scenario;
  sites : list Site;
  fleets : list ASICFleet;
  fleetAssignments : list FleetAssignment;
  teamMembers : list TeamMember;
  asicModels : list ASICModel;
  teamProfiles : list TeamProfile }.

Record EconomicInputs := mkInputs {
  in_btcPriceUSD : Q;
  in_globalHashrateEH : Q;
  in_txFeesPerBlock : Q }.

Record MonthlyFleetStatus := mkFleetStatus {
  fs_fleetId : string;
  totalMiners : Z;
  failedMiners : Z;
  activeMiners : Z }.

Record MonthlyTrancheStatus := mkTrancheStatus {
  ts_siteId : string;
  ts_trancheId : string;
  availablePowerMW : Q;
  allocatedMiners : Z;
  powerUsedMW : Q;
  hashrateThs : Q }.

Definition SITE_CAPEX_DEPRECIATION_YEARS : Q := 10.
Definition BLOCKS_PER_DAY : Q := 144.
Definition DAYS_PER_MONTH : Q := 30.
Definition BLOCKS_PER_MONTH : Q := BLOCKS_PER_DAY * DAYS_PER_MONTH.
Definition HOURS_PER_MONTH : Q := 730.
Definition FAILURE_SHAPE : Z := 10.
Definition FAILURE_SCALE : Q := 0.98.

(** [v || dflt] on a possibly missing number: a missing value and the number
    zero are both falsy. *)
Definition js_or (v : option Q) (dflt : Q) : Q :=
  match v with
  | Some x => if Qeq_bool x 0 then dflt else x
  | None => dflt
  end.

Definition ScopeType_eqb (a b : ScopeType) : bool :=
  match a, b with
  | ScopeCompany, ScopeCompany | ScopeSite, ScopeSite | ScopeTranche, ScopeTranche => true
  | _, _ => false
  end.

(** [a === b] on optional strings ([undefined === undefined] holds). *)
Definition option_string_eqb (a b : option string) : bool :=
  match a, b with
  | Some x, Some y => String.eqb x y
  | None, None => true
  | _, _ => false
  end.

(** [l.reduce((sum, x) => sum + f(x), 0)], on unit counts and on amounts. *)
Definition sumZ {A : Type} (f : A -> Z) (l : list A) : Z :=
  fold_left (fun sum x => sum + f x) l 0.

Definition sumQ {A : Type} (f : A -> Q) (l : list A) : Q :=
  fold_left (fun sum x => (sum + f x)%Q) l 0%Q.

Definition findModel (ctx : CalculationContext) (id : string) : option ASICModel :=
  List.find (fun m => String.eqb (model_id m) id) (asicModels ctx).

Definition findFleet (ctx : CalculationContext) (id : string) : option ASICFleet :=
  List.find (fun f => String.eqb (fleet_id f) id) (fleets ctx).

(** [context.sites.flatMap((s) => s.tranches).find((t) => t.id === id)] *)
Definition findTranche (ctx : CalculationContext) (id : string) : option Tranche :=
  List.find (fun t => String.eqb (tranche_id t) id) (flat_map tranches (sites ctx)).

(** The unit count of a fleet, as both [calculateFleetStatuses] and
    [calculateMinerDepreciation] compute it. *)
Definition fleetTotalMiners (fleet : ASICFleet) (model : ASICModel) : Z :=
  match quantityMode fleet with
  | ModeMiners => default 0 (quantityMiners fleet)
  | ModeMW => Qfloor ((default 0%Q (quantityMW fleet) * 1000000) / powerW model)
  end.

(** [while (current <= end) { months.push(current); current = addMonths(current, 1) }],
    with the number of iterations left as fuel. *)
Fixpoint monthLoop (fuel : nat) (current stop : Date) : list Date :=
  match fuel with
  | O => []
  | S k =>
    if date_leb current stop
    then current :: monthLoop k (addMonths current 1) stop
    else []
  end.

Definition generateMonthRange (p : Project) : list Date :=
  let start := startOfMonth (startDate p) in
  let stop := startOfMonth (endDate p) in
  monthLoop (Z.to_nat (monthIndex stop - monthIndex start + 1)) start stop.

Section Engine.

Local Open Scope Q_scope.

(** [Math.exp]. *)
Variable Math_exp : Q -> Q.

(** *** 4.2 Failure model *)
Definition calculateCumulativeFailureRate (ageMonths lifespanMonths : Q) : Q :=
  if Qle_bool ageMonths 0 then 0
  else if Qle_bool lifespanMonths ageMonths then 0.95
  else
    let normalizedAge := ageMonths / lifespanMonths in
    let scaledAge := normalizedAge / FAILURE_SCALE in
    let cumulativeFailure := 1 - Math_exp (- (scaledAge ^ FAILURE_SHAPE)) in
    Qmin (cumulativeFailure * 0.95) 0.95.

(** *** 4.3 Fleet aging *)
Definition fleetStatus (month : Date) (ctx : CalculationContext) (fleet : ASICFleet)
  : MonthlyFleetStatus :=
  match findModel ctx (modelId fleet) with
  | None => mkFleetStatus (fleet_id fleet) 0 0 0
  | Some model =>
    let totalMiners := fleetTotalMiners fleet model in
    let originDate := originationDate fleet in
    if isAfter month originDate then
      let monthsSinceOrigination := differenceInMonths month originDate in
      let lifespanMonths := lifespanYears fleet * 12 in
      let cumulativeFailureRate :=
        calculateCumulativeFailureRate (inject_Z monthsSinceOrigination) lifespanMonths in
      let failedMiners := Qfloor (inject_Z totalMiners * cumulativeFailureRate) in
      if Qle_bool lifespanMonths (inject_Z monthsSinceOrigination) then
        mkFleetStatus (fleet_id fleet) totalMiners
                      (Qfloor (inject_Z totalMiners * 0.95))
                      (Qceiling (inject_Z totalMiners * 0.05))
      else
        mkFleetStatus (fleet_id fleet) totalMiners
                      (Z.min failedMiners totalMiners)
                      (totalMiners - Z.min failedMiners totalMiners)
    else
      mkFleetStatus (fleet_id fleet) totalMiners 0 0
  end.

Definition calculateFleetStatuses (month : Date) (ctx : CalculationContext)
  : list MonthlyFleetStatus :=
  map (fleetStatus month ctx) (fleets ctx).

(** *** 4.4 Power allocator *)

(** The status a tranche starts the month with, or nothing when the tranche
    has not started yet. *)
Definition initialTrancheStatus (month : Date) (site : Site) (tranche : Tranche)
  : list MonthlyTrancheStatus :=
  let trancheStartDate := tranche_startDate tranche in
  if isBefore month trancheStartDate then []
  else
    let monthsSinceStart := differenceInMonths month trancheStartDate in
    let availablePowerMW :=
      if (monthsSinceStart <? rampUpMonths tranche)%Z then
        let rampUpFraction :=
          if (0 <? rampUpMonths tranche)%Z
          then inject_Z (monthsSinceStart + 1) / inject_Z (rampUpMonths tranche)
          else 1 in
        powerMW tranche * rampUpFraction
      else powerMW tranche in
    [ mkTrancheStatus (site_id site) (tranche_id tranche) availablePowerMW 0 0 0 ].

Definition activeTranches (month : Date) (ctx : CalculationContext)
  : list MonthlyTrancheStatus :=
  flat_map (fun site => flat_map (initialTrancheStatus month site) (tranches site))
           (sites ctx).

(** The comparator handed to [trancheStatuses.sort]. *)
Definition compareTrancheStart (ctx : CalculationContext) (a b : MonthlyTrancheStatus)
  : comparison :=
  match findTranche ctx (ts_trancheId a), findTranche ctx (ts_trancheId b) with
  | Some trancheA, Some trancheB =>
    compareAsc (tranche_startDate trancheA) (tranche_startDate trancheB)
  | _, _ => Eq
  end.

(** [Array.prototype.sort] is stable: a stable insertion sort. *)
Definition insertTranche (ctx : CalculationContext) (x : MonthlyTrancheStatus)
  : list MonthlyTrancheStatus -> list MonthlyTrancheStatus :=
  fix insert (sorted : list MonthlyTrancheStatus) : list MonthlyTrancheStatus :=
    match sorted with
    | [] => [x]
    | y :: rest =>
      match compareTrancheStart ctx x y with
      | Gt => y :: insert rest
      | _ => x :: y :: rest
      end
    end.

Definition sortTranches (ctx : CalculationContext) (l : list MonthlyTrancheStatus)
  : list MonthlyTrancheStatus :=
  fold_right (insertTranche ctx) [] l.

(** [fleetStatuses.find((f) => f.fleetId === id)] *)
Definition statusOf (fleetStatuses : list MonthlyFleetStatus) (id : string)
  : option MonthlyFleetStatus :=
  List.find (fun f => String.eqb (fs_fleetId f) id) fleetStatuses.

(** The state of the allocation loops: the tranche being filled and the
    [allocatedFleets] map (fleetId -> miners allocated). *)
Definition AllocState : Type := (MonthlyTrancheStatus * gmap string Z)%type.

(** One iteration of [for (const assignment of siteAssignments)]. *)
Definition allocateAssignment (ctx : CalculationContext)
           (fleetStatuses : list MonthlyFleetStatus)
           (st : AllocState) (assignment : FleetAssignment) : AllocState :=
  let '(tranche, allocatedFleets) := st in
  match statusOf fleetStatuses (fleetId assignment) with
  | None => st
  | Some fleetStatus =>
    if (activeMiners fleetStatus =? 0)%Z then st
    else
      match findFleet ctx (fleetId assignment) with
      | None => st
      | Some fleet =>
        match findModel ctx (modelId fleet) with
        | None => st
        | Some model =>
          let alreadyAllocated := default 0%Z (allocatedFleets !! fleet_id fleet) in
          let availableMiners := (activeMiners fleetStatus - alreadyAllocated)%Z in
          if (availableMiners <=? 0)%Z then st
          else
            let remainingPowerMW := availablePowerMW tranche - powerUsedMW tranche in
            let minersThatFit := Qfloor ((remainingPowerMW * 1000000) / powerW model) in
            let minersToAllocate := Z.min availableMiners minersThatFit in
            if (0 <? minersToAllocate)%Z then
              let trancheDetails := findTranche ctx (ts_trancheId tranche) in
              let uptime := js_or (option_map uptime trancheDetails) 1 in
              (mkTrancheStatus
                 (ts_siteId tranche) (ts_trancheId tranche) (availablePowerMW tranche)
                 (allocatedMiners tranche + minersToAllocate)%Z
                 (powerUsedMW tranche + (inject_Z minersToAllocate * powerW model) / 1000000)
                 (hashrateThs tranche + inject_Z minersToAllocate * hashrateThS model * uptime),
               <[fleet_id fleet := (alreadyAllocated + minersToAllocate)%Z]> allocatedFleets)
            else st
        end
      end
  end.

(** The body of [for (const tranche of trancheStatuses)]. *)
Definition allocateTranche (ctx : CalculationContext)
           (fleetStatuses : list MonthlyFleetStatus)
           (allocatedFleets : gmap string Z) (tranche : MonthlyTrancheStatus) : AllocState :=
  let siteAssignments :=
    List.filter (fun a => String.eqb (siteId a) (ts_siteId tranche)) (fleetAssignments ctx) in
  fold_left (allocateAssignment ctx fleetStatuses) siteAssignments (tranche, allocatedFleets).

Definition allocateTranches (ctx : CalculationContext)
           (fleetStatuses : list MonthlyFleetStatus)
  : list MonthlyTrancheStatus -> gmap string Z ->
    list MonthlyTrancheStatus * gmap string Z :=
  fix loop (trancheStatuses : list MonthlyTrancheStatus) (allocatedFleets : gmap string Z)
    : list MonthlyTrancheStatus * gmap string Z :=
    match trancheStatuses with
    | [] => ([], allocatedFleets)
    | tranche :: rest =>
      let '(tranche', allocatedFleets') :=
        allocateTranche ctx fleetStatuses allocatedFleets tranche in
      let '(rest', allocatedFleets'') := loop rest allocatedFleets' in
      (tranche' :: rest', allocatedFleets'')
    end.

(** The whole allocation: the tranche statuses returned by the source and
    the final content of its local [allocatedFleets] map. *)
Definition runAllocation (month : Date) (ctx : CalculationContext)
           (fleetStatuses : list MonthlyFleetStatus)
  : list MonthlyTrancheStatus * gmap string Z :=
  allocateTranches ctx fleetStatuses (sortTranches ctx (activeTranches month ctx)) ∅.

Definition allocateFleetsToTranches (month : Date) (ctx : CalculationContext)
           (fleetStatuses : list MonthlyFleetStatus) : list MonthlyTrancheStatus :=
  fst (runAllocation month ctx fleetStatuses).

Definition allocatedFleetsAfter (month : Date) (ctx : CalculationContext)
           (fleetStatuses : list MonthlyFleetStatus) : gmap string Z :=
  snd (runAllocation month ctx fleetStatuses).

(** *** 4.6 Cost aggregation helpers *)

Definition calculateTeamCosts (month : Date) (ctx : CalculationContext)
           (scopeType : ScopeType) (target : option string) : Q :=
  let relevantMembers :=
    List.filter
      (fun member =>
         if ScopeType_eqb (scope_type (scope member)) scopeType then
           match scopeType with
           | ScopeCompany => true
           | _ => option_string_eqb (targetId (scope member)) target
           end
         else false)
      (teamMembers ctx) in
  fold_left
    (fun totalCost member =>
       if isBefore month (member_startDate member) then totalCost
       else
         match List.find (fun p => String.eqb (profile_id p) (profileId member))
                         (teamProfiles ctx) with
         | None => totalCost
         | Some profile =>
           totalCost + (annualSalary profile * employmentRate member) / 12
         end)
    relevantMembers 0.

(** One iteration of the loop of [calculateMinerDepreciation]: the monthly
    depreciation an assignment adds, zero when the iteration [continue]s. *)
Definition assignmentDepreciation (month : Date) (ctx : CalculationContext)
           (assignment : FleetAssignment) : option Q :=
  match findFleet ctx (fleetId assignment) with
  | None => None
  | Some fleet =>
    match findModel ctx (modelId fleet) with
    | None => None
    | Some model =>
      let originDate := originationDate fleet in
      if isBefore month originDate then None
      else
        let monthsSinceOrigination := differenceInMonths month originDate in
        let lifespanMonths := lifespanYears fleet * 12 in
        if Qle_bool lifespanMonths (inject_Z monthsSinceOrigination) then None
        else
          let totalMiners := fleetTotalMiners fleet model in
          let totalHashrateTh := inject_Z totalMiners * hashrateThS model in
          let fleetCost := totalHashrateTh * pricePerTh model in
          Some (fleetCost / lifespanMonths)
    end
  end.

Definition calculateMinerDepreciation (month : Date) (site : string)
           (ctx : CalculationContext) : Q :=
  let siteFleetAssignments :=
    List.filter (fun a => String.eqb (siteId a) site) (fleetAssignments ctx) in
  fold_left
    (fun totalDepreciation assignment =>
       match assignmentDepreciation month ctx assignment with
       | None => totalDepreciation
       | Some monthlyDepreciation => totalDepreciation + monthlyDepreciation
       end)
    siteFleetAssignments 0.

(** *** 4.5 and 4.6 Revenue and costs of one site *)

(** The body of [for (const site of context.sites)] in [calculateMonthMetrics]:
    the record pushed on [siteMetrics], or nothing for a site without a
    tranche status this month ([continue]). *)
Definition siteMonthlyMetrics (month : Date) (ctx : CalculationContext)
           (trancheStatuses : list MonthlyTrancheStatus)
           (totalHashrateThs btcMinedGross txFeeRevenueBTC btcPriceUSD : Q)
           (site : Site) : list SiteMonthlyMetrics :=
  let siteTranches :=
    List.filter (fun t => String.eqb (ts_siteId t) (site_id site)) trancheStatuses in
  match siteTranches with
  | [] => []
  | _ :: _ =>
    let trancheOf (t : MonthlyTrancheStatus) :=
      List.find (fun tr => String.eqb (tranche_id tr) (ts_trancheId t)) (tranches site) in
    let siteHashrate := sumQ hashrateThs siteTranches in
    let siteBtcMined :=
      js_or (Some ((siteHashrate / totalHashrateThs) * btcMinedGross)) 0 in
    let siteTxFees :=
      js_or (Some ((siteHashrate / totalHashrateThs) * txFeeRevenueBTC)) 0 in
    let avgPoolFee :=
      js_or (Some (fold_left
                     (fun sum t =>
                        sum + js_or (option_map poolFee (trancheOf t)) 0 * hashrateThs t)
                     siteTranches 0 / siteHashrate)) 0 in
    let siteBtcAfterFee := (siteBtcMined + siteTxFees) * (1 - avgPoolFee) in
    let siteMiners := sumZ allocatedMiners siteTranches in
    let sitePowerUsed := sumQ powerUsedMW siteTranches in
    let siteElectricityCost :=
      fold_left
        (fun sum t =>
           match trancheOf t with
           | None => sum
           | Some tranche =>
             sum + powerUsedMW t * 1000 * HOURS_PER_MONTH * electricityPricePerKWh tranche
           end)
        siteTranches 0 in
    let siteOpex :=
      fold_left
        (fun sum t =>
           match trancheOf t with
           | None => sum
           | Some tranche =>
             let o := opex tranche in
             let trancheOpex :=
               (0 + insurance o + maintenance o + security o + monitoring o) / 12 in
             sum + trancheOpex
           end)
        siteTranches 0 in
    let siteCapex :=
      fold_left
        (fun sum t =>
           match trancheOf t with
           | None => sum
           | Some tranche =>
             let c := capex tranche in
             let trancheCapex :=
               (0 + electrical c + civil c + warehouse c + containers c + office c
                + itNetworking c) / (SITE_CAPEX_DEPRECIATION_YEARS * 12) in
             sum + trancheCapex
           end)
        siteTranches 0 in
    let siteMinerDepreciation := calculateMinerDepreciation month (site_id site) ctx in
    let siteTeamCost := calculateTeamCosts month ctx ScopeSite (Some (site_id site)) in
    let trancheTeamCost :=
      sumQ (fun t => calculateTeamCosts month ctx ScopeTranche (Some (ts_trancheId t)))
           siteTranches in
    let siteTotalTeamCost := siteTeamCost + trancheTeamCost in
    let siteTotalExpenses :=
      siteElectricityCost + siteOpex + siteCapex + siteMinerDepreciation
      + siteTotalTeamCost in
    let siteRevenue := siteBtcAfterFee * btcPriceUSD in
    let siteEbitda := siteRevenue - (siteElectricityCost + siteOpex + siteTotalTeamCost) in
    [ mkSiteMetrics (site_id site) (site_name site) siteMiners sitePowerUsed siteHashrate
                    siteBtcAfterFee siteRevenue siteElectricityCost siteOpex siteCapex
                    siteMinerDepreciation siteTotalTeamCost siteTotalExpenses siteEbitda ]
  end.

(** *** 4.7 One month *)

(** The scenario record of the month, looked up by its exact key. *)
Definition economicData (month : Date) (ctx : CalculationContext)
  : option ScenarioMonthlyData :=
  let monthStr := format_yyyy_MM_dd month in
  List.find (fun d => String.eqb (md_month d) monthStr) (monthlyData (scenario ctx)).

(** The three economic inputs bound at the top of [calculateMonthMetrics]:
    [economicData?.field || default]. *)
Definition economicInputs (month : Date) (ctx : CalculationContext) : EconomicInputs :=
  let economicData := economicData month ctx in
  mkInputs (js_or (option_map btcPriceUSD economicData) 40000)
           (js_or (option_map globalHashrateEH economicData) 500)
           (js_or (option_map txFeesPerBlock economicData) 0.05).

(** The guarded quotient [globalHashrateThS > 0 ? totalHashrateThs / globalHashrateThS : 0]. *)
Definition hashrateFractionOf (totalHashrateThs globalHashrateThS : Q) : Q :=
  if Qlt_le_dec 0 globalHashrateThS then totalHashrateThs / globalHashrateThS else 0.

Definition calculateMonthMetrics (month : Date) (ctx : CalculationContext)
  : MonthlyFinancialMetrics :=
  let monthStr := format_yyyy_MM_dd month in
  let inputs := economicInputs month ctx in
  let btcPriceUSD := in_btcPriceUSD inputs in
  let globalHashrateEH := in_globalHashrateEH inputs in
  let txFeesPerBlock := in_txFeesPerBlock inputs in
  let fleetStatuses := calculateFleetStatuses month ctx in
  let trancheStatuses := allocateFleetsToTranches month ctx fleetStatuses in
  let totalActiveMiners := sumZ allocatedMiners trancheStatuses in
  let totalFailedMiners := sumZ failedMiners fleetStatuses in
  let totalMinersInFleets := sumZ totalMiners fleetStatuses in
  let spareMiners := (totalMinersInFleets - totalFailedMiners - totalActiveMiners)%Z in
  let totalHashrateThs := sumQ hashrateThs trancheStatuses in
  let blockReward := getBlockReward month in
  let globalHashrateThS := globalHashrateEH * 1000000 in
  let hashrateFraction := hashrateFractionOf totalHashrateThs globalHashrateThS in
  let btcMinedGross := hashrateFraction * blockReward * BLOCKS_PER_MONTH in
  let txFeeRevenueBTC := hashrateFraction * txFeesPerBlock * BLOCKS_PER_MONTH in
  let siteMetrics :=
    flat_map (siteMonthlyMetrics month ctx trancheStatuses totalHashrateThs
                                 btcMinedGross txFeeRevenueBTC btcPriceUSD)
             (sites ctx) in
  let btcAfterPoolFee := sumQ sm_btcMined siteMetrics in
  let totalBTC := btcAfterPoolFee in
  let revenueUSD := totalBTC * btcPriceUSD in
  let electricityCost := sumQ sm_electricityCost siteMetrics in
  let opexCost := sumQ sm_opexCost siteMetrics in
  let capexDepreciation := sumQ sm_capexDepreciation siteMetrics in
  let minerDepreciation := sumQ sm_minerDepreciation siteMetrics in
  let siteTeamCostTotal := sumQ sm_teamCost siteMetrics in
  let companyTeamCost := calculateTeamCosts month ctx ScopeCompany None in
  let teamCost := siteTeamCostTotal + companyTeamCost in
  let totalExpenses :=
    electricityCost + opexCost + capexDepreciation + minerDepreciation + teamCost in
  let ebitda := revenueUSD - (electricityCost + opexCost + teamCost) in
  let costPerBTC := if Qlt_le_dec 0 totalBTC then totalExpenses / totalBTC else 0 in
  let fleetMetrics :=
    map (fun fs =>
           mkFleetMetrics (fs_fleetId fs)
                          (default EmptyString
                                   (option_map modelId (findFleet ctx (fs_fleetId fs))))
                          (activeMiners fs) (failedMiners fs))
        fleetStatuses in
  mkMetrics monthStr totalActiveMiners totalFailedMiners spareMiners totalHashrateThs
            btcMinedGross totalBTC txFeeRevenueBTC totalBTC revenueUSD
            electricityCost opexCost capexDepreciation minerDepreciation teamCost
            totalExpenses ebitda costPerBTC siteMetrics fleetMetrics.

Definition calculateScenarioMetrics (ctx : CalculationContext) : ScenarioResults :=
  let months := generateMonthRange (project ctx) in
  mkResults (scenario_id (scenario ctx)) (scenario_name (scenario ctx))
            (map (fun month => calculateMonthMetrics month ctx) months).

End Engine.

(** ** 4.2 Failure model over the real numbers

    The same function with [Math.exp] and [Math.pow] read as the real
    exponential and power: the curve without the rounding of doubles. *)
Module RealCurve.
Import Stdlib.Reals.Reals.
Local Open Scope R_scope.

Definition FAILURE_SHAPE : nat := 10.
Definition FAILURE_SCALE : R := 0.98.

Definition calculateCumulativeFailureRate (ageMonths lifespanMonths : R) : R :=
  if Rle_dec ageMonths 0 then 0
  else if Rge_dec ageMonths lifespanMonths then 0.95
  else
    let normalizedAge := ageMonths / lifespanMonths in
    let scaledAge := normalizedAge / FAILURE_SCALE in
    let cumulativeFailure := 1 - exp (- (scaledAge ^ FAILURE_SHAPE)) in
    Rmin (cumulativeFailure * 0.95) 0.95.
End RealCurve.

(** ** Helpers of the pages

    Pure helpers of the fleets page (a document of
    [src/app/\[projectId\]/results/page.tsx]) and of the economics page
    ([src/app/\[projectId\]/settings/economics/page.tsx]); the economics
    page holds its own copy of the halving table and of [getBlockReward]. *)

Definition calculateMinersFromMW (mw powerW : Q) : Z :=
  if Qeq_bool powerW 0 then 0
  else Qfloor ((mw * 1000000) / powerW).

Definition calculateMWFromMiners (miners : Z) (powerW : Q) : Q :=
  if miners =? 0 then 0%Q
  else ((inject_Z miners * powerW) / 1000000)%Q.

Definition getModelById (models : list ASICModel) (id : string) : option ASICModel :=
  List.find (fun m => String.eqb (model_id m) id) models.

Definition getFleetMiners (models : list ASICModel) (fleet : ASICFleet) : Z :=
  match quantityMode fleet with
  | ModeMiners => default 0 (quantityMiners fleet)
  | ModeMW =>
    match getModelById models (modelId fleet) with
    | None => 0
    | Some model => calculateMinersFromMW (default 0%Q (quantityMW fleet)) (powerW model)
    end
  end.

Definition getFleetMW (models : list ASICModel) (fleet : ASICFleet) : Q :=
  match quantityMode fleet with
  | ModeMW => default 0%Q (quantityMW fleet)
  | ModeMiners =>
    match getModelById models (modelId fleet) with
    | None => 0%Q
    | Some model => calculateMWFromMiners (default 0 (quantityMiners fleet)) (powerW model)
    end
  end.



(** [calculateHashprice]: dollars per PH/s and day. *)
Definition calculateHashprice (btcPriceUSD globalHashrateEH txFeesPerBlock : Q)
           (date : Date) : Q :=
  let blockReward := getBlockReward date in
  let dailyBTC := ((blockReward + txFeesPerBlock) * 144)%Q in
  let dailyRevenue := (dailyBTC * btcPriceUSD)%Q in
  (dailyRevenue / (globalHashrateEH * 1000))%Q.

(** ** Rounding of doubles

    A JavaScript [number] is an IEEE 754 binary64 value, and every arithmetic
    operation returns the binary64 value nearest to the exact result, ties
    going to the even significand.  [round64] is that rounding on rationals:
    53 significant bits, with an exponent that is not bounded (overflow and
    subnormal numbers are not represented). *)

Definition pow2 (e : Z) : Q := (2 ^ e)%Q.

(** The exponent [e] with [2^e <= a < 2^(e+1)], for a positive [a]. *)
Definition binade (a : Q) : Z :=
  let e0 := Z.log2 (Qnum a) - Z.log2 (Z.pos (Qden a)) in
  if Qle_bool (pow2 e0) a then e0 else e0 - 1.

(** The nearest integer, ties to even. *)
Definition roundHalfEven (x : Q) : Z :=
  let f := Qfloor x in
  match (x - inject_Z f ?= 1 # 2)%Q with
  | Lt => f
  | Gt => f + 1
  | Eq => if Z.even f then f else f + 1
  end.

Definition round64 (q : Q) : Q :=
  if Qeq_bool q 0 then 0%Q
  else
    let a := Qabs q in
    let e := binade a - 52 in
    let m := roundHalfEven (a / pow2 e) in
    Qred ((if Qle_bool 0 q then 1 else -1) * inject_Z m * pow2 e)%Q.

(** The binary64 operations of the kernel, to compare [round64] with. *)
Module KernelFloats.
Import Stdlib.Floats.PrimFloat Stdlib.Floats.FloatOps Stdlib.Floats.SpecFloat.

(** The rational a finite float stands for. *)
Definition Q_of_float (f : float) : Q :=
  match Prim2SF f with
  | S754_finite s m e => Qred ((if s then -1 else 1) * inject_Z (Z.pos m) * pow2 e)%Q
  | _ => 0%Q
  end.

(** The float of an integer below [2^53]. *)
Definition float_of_Z (z : Z) : float :=
  if z <? 0 then opp (of_uint63 (Uint63.of_Z (- z))) else of_uint63 (Uint63.of_Z z).

(** The float a decimal literal [n / d] denotes, for [n] and [d] below
    [2^53]: the quotient, rounded once. *)
Definition float_of_decimal (n d : Z) : float := div (float_of_Z n) (float_of_Z d).
End KernelFloats.

(** ** The allocator and the unit conversions with rounding

    The functions of 4.4 and the two conversions of the results page again,
    now with the result of every floating-point operation of the source
    passed through [round]: with the identity for [round] these are the
    definitions above, with [round64] they compute what the source computes
    in doubles.  Counts of units and of months are integers below [2^53],
    on which the operations of the source are exact. *)
Module Rounded.
Section Rounding.

Local Open Scope Q_scope.

Variable round : Q -> Q.

Definition initialTrancheStatus (month : Date) (site : Site) (tranche : Tranche)
  : list MonthlyTrancheStatus :=
  let trancheStartDate := tranche_startDate tranche in
  if isBefore month trancheStartDate then []
  else
    let monthsSinceStart := differenceInMonths month trancheStartDate in
    let availablePowerMW :=
      if (monthsSinceStart <? rampUpMonths tranche)%Z then
        let rampUpFraction :=
          if (0 <? rampUpMonths tranche)%Z
          then round (inject_Z (monthsSinceStart + 1) / inject_Z (rampUpMonths tranche))
          else 1 in
        round (powerMW tranche * rampUpFraction)
      else powerMW tranche in
    [ mkTrancheStatus (site_id site) (tranche_id tranche) availablePowerMW 0 0 0 ].

Definition activeTranches (month : Date) (ctx : CalculationContext)
  : list MonthlyTrancheStatus :=
  flat_map (fun site => flat_map (initialTrancheStatus month site) (tranches site))
           (sites ctx).

(** One iteration of [for (const assignment of siteAssignments)]. *)
Definition allocateAssignment (ctx : CalculationContext)
           (fleetStatuses : list MonthlyFleetStatus)
           (st : AllocState) (assignment : FleetAssignment) : AllocState :=
  let '(tranche, allocatedFleets) := st in
  match statusOf fleetStatuses (fleetId assignment) with
  | None => st
  | Some fleetStatus =>
    if (activeMiners fleetStatus =? 0)%Z then st
    else
      match findFleet ctx (fleetId assignment) with
      | None => st
      | Some fleet =>
        match findModel ctx (modelId fleet) with
        | None => st
        | Some model =>
          let alreadyAllocated := default 0%Z (allocatedFleets !! fleet_id fleet) in
          let availableMiners := (activeMiners fleetStatus - alreadyAllocated)%Z in
          if (availableMiners <=? 0)%Z then st
          else
            let remainingPowerMW :=
              round (availablePowerMW tranche - powerUsedMW tranche) in
            let minersThatFit :=
              Qfloor (round (round (remainingPowerMW * 1000000) / powerW model)) in
            let minersToAllocate := Z.min availableMiners minersThatFit in
            if (0 <? minersToAllocate)%Z then
              let trancheDetails := findTranche ctx (ts_trancheId tranche) in
              let uptime := js_or (option_map uptime trancheDetails) 1 in
              (mkTrancheStatus
                 (ts_siteId tranche) (ts_trancheId tranche) (availablePowerMW tranche)
                 (allocatedMiners tranche + minersToAllocate)%Z
                 (round (powerUsedMW tranche
                         + round (round (inject_Z minersToAllocate * powerW model)
                                  / 1000000)))
                 (round (hashrateThs tranche
                         + round (round (inject_Z minersToAllocate * hashrateThS model)
                                  * uptime))),
               <[fleet_id fleet := (alreadyAllocated + minersToAllocate)%Z]> allocatedFleets)
            else st
        end
      end
  end.

(** The body of [for (const tranche of trancheStatuses)]. *)
Definition allocateTranche (ctx : CalculationContext)
           (fleetStatuses : list MonthlyFleetStatus)
           (allocatedFleets : gmap string Z) (tranche : MonthlyTrancheStatus) : AllocState :=
  let siteAssignments :=
    List.filter (fun a => String.eqb (siteId a) (ts_siteId tranche)) (fleetAssignments ctx) in
  fold_left (allocateAssignment ctx fleetStatuses) siteAssignments (tranche, allocatedFleets).

Definition allocateTranches (ctx : CalculationContext)
           (fleetStatuses : list MonthlyFleetStatus)
  : list MonthlyTrancheStatus -> gmap string Z ->
    list MonthlyTrancheStatus * gmap string Z :=
  fix loop (trancheStatuses : list MonthlyTrancheStatus) (allocatedFleets : gmap string Z)
    : list MonthlyTrancheStatus * gmap string Z :=
    match trancheStatuses with
    | [] => ([], allocatedFleets)
    | tranche :: rest =>
      let '(tranche', allocatedFleets') :=
        allocateTranche ctx fleetStatuses allocatedFleets tranche in
      let '(rest', allocatedFleets'') := loop rest allocatedFleets' in
      (tranche' :: rest', allocatedFleets'')
    end.

Definition runAllocation (month : Date) (ctx : CalculationContext)
           (fleetStatuses : list MonthlyFleetStatus)
  : list MonthlyTrancheStatus * gmap string Z :=
  allocateTranches ctx fleetStatuses (sortTranches ctx (activeTranches month ctx)) ∅.

Definition allocateFleetsToTranches (month : Date) (ctx : CalculationContext)
           (fleetStatuses : list MonthlyFleetStatus) : list MonthlyTrancheStatus :=
  fst (runAllocation month ctx fleetStatuses).

Definition allocatedFleetsAfter (month : Date) (ctx : CalculationContext)
           (fleetStatuses : list MonthlyFleetStatus) : gmap string Z :=
  snd (runAllocation month ctx fleetStatuses).

(** The two conversions of the results page. *)
Definition calculateMinersFromMW (mw powerW : Q) : Z :=
  if Qeq_bool powerW 0 then 0%Z
  else Qfloor (round (round (mw * 1000000) / powerW)).

Definition calculateMWFromMiners (miners : Z) (powerW : Q) : Q :=
  if (miners =? 0)%Z then 0
  else round (round (inject_Z miners * powerW) / 1000000).

End Rounding.
End Rounded.
(** ** Variations of a context, used to state the theorems *)


(** The context with other CAPEX figures for the tranches and other
    acquisition prices for the hardware models: the two inputs that only the
    depreciation lines read. *)
Definition withTrancheCapex (c : Tranche -> CapexBreakdown) (t : Tranche) : Tranche :=
  mkTranche (tranche_id t) (powerMW t) (tranche_startDate t) (rampUpMonths t) (uptime t)
            (c t) (electricityPricePerKWh t) (opex t) (poolFee t).

Definition withSiteCapex (c : Tranche -> CapexBreakdown) (s : Site) : Site :=
  mkSite (site_id s) (site_name s) (map (withTrancheCapex c) (tranches s)).

Definition withModelPrice (p : ASICModel -> Q) (m : ASICModel) : ASICModel :=
  mkModel (model_id m) (powerW m) (hashrateThS m) (p m).

Definition withDepreciationInputs (c : Tranche -> CapexBreakdown) (p : ASICModel -> Q)
           (ctx : CalculationContext) : CalculationContext :=
  mkContext (project ctx) (scenario ctx) (map (withSiteCapex c) (sites ctx))
            (fleets ctx) (fleetAssignments ctx) (teamMembers ctx)
            (map (withModelPrice p) (asicModels ctx)) (teamProfiles ctx).

(** A site record without its depreciation lines and the total that
    includes them. *)
Definition eraseDepreciation (r : SiteMonthlyMetrics) : SiteMonthlyMetrics :=
  mkSiteMetrics (sm_siteId r) (sm_siteName r) (sm_activeMiners r) (sm_powerUsedMW r)
                (sm_hashrateThs r) (sm_btcMined r) (sm_revenue r) (sm_electricityCost r)
                (sm_opexCost r) 0%Q 0%Q (sm_teamCost r) 0%Q (sm_ebitda r).

(** What an assignment adds to the depreciation of its site. *)
Definition assignmentShare (month : Date) (ctx : CalculationContext)
           (a : FleetAssignment) : Q :=
  match assignmentDepreciation month ctx a with
  | Some monthlyDepreciation => monthlyDepreciation
  | None => 0%Q
  end.

(** A site with at least one tranche that has started by the month. *)
Definition siteIsLive (month : Date) (ctx : CalculationContext) (site : Site) : bool :=
  existsb (fun t => String.eqb (ts_siteId t) (site_id site)) (activeTranches month ctx).

(** The first day of the month with the given index (months since year 0). *)
Definition firstOfMonth (index : Z) : Date :=
  mkDate (index / 12) (index mod 12 + 1) 1.

(** A date whose month number is a month of the year. *)
Definition validMonth (d : Date) : Prop := 1 <= monthOfYear d <= 12.

(** ** Predicates used to state the theorems *)

(** The units recorded in the [allocatedFleets] map, over all fleets. *)
Definition allocatedTotal (m : gmap string Z) : Z :=
  map_fold (fun _ n acc => n + acc) 0 m.

(** Every fleet with an entry in the map has a positive number of units
    allocated, at most the active units of the status the allocator reads
    for it. *)
Definition withinActive (fleetStatuses : list MonthlyFleetStatus) (m : gmap string Z)
  : Prop :=
  forall (f : string) (n : Z),
    m !! f = Some n ->
    (0 < n) /\
    (exists st, statusOf fleetStatuses f = Some st /\ (n <= activeMiners st)).

(** A tranche holds a number of units that is not negative and uses a power
    that is not negative and at most [tolerance] times the available one. *)
Definition withinBudget (tolerance : Q) (t : MonthlyTrancheStatus) : Prop :=
  0 <= allocatedMiners t /\ (0 <= powerUsedMW t)%Q /\
  (powerUsedMW t <= availablePowerMW t * tolerance)%Q.

(** [round] returns its argument with a relative error of at most [u]. *)
Definition roundsWithin (u : Q) (round : Q -> Q) : Prop :=
  forall x : Q, (Qabs (round x - x) <= u * Qabs x)%Q.

(** [x] is [y] after at most [k] roundings of relative error [u]. *)
Fixpoint powerOf (a : Q) (k : nat) : Q :=
  match k with
  | O => 1%Q
  | S k' => (powerOf a k' * a)%Q
  end.

Definition withinRoundings (u : Q) (k : nat) (x y : Q) : Prop :=
  (y * powerOf (1 - u) k <= x)%Q /\ (x <= y * powerOf (1 + u) k)%Q.

(** The unit roundoff of binary64, [2^-53]. *)
Definition unitRoundoff64 : Q := pow2 (-53).

(** Exact arithmetic: no rounding. *)
Definition exact (x : Q) : Q := x.

(** Input conventions: a hardware model draws power, a tranche offers a
    capacity that is not negative. *)
Definition positivePowerDraw (ctx : CalculationContext) : Prop :=
  Forall (fun m => (0 < powerW m)%Q) (asicModels ctx).

Definition nonNegativeCapacity (ctx : CalculationContext) : Prop :=
  Forall (fun s => Forall (fun t => (0 <= powerMW t)%Q) (tranches s)) (sites ctx).

(** Two statuses of the same tranche: same site, same tranche, same
    available power. *)
Definition sameTranche (t t' : MonthlyTrancheStatus) : Prop :=
  ts_siteId t' = ts_siteId t /\ ts_trancheId t' = ts_trancheId t /\
  availablePowerMW t' = availablePowerMW t.


(** The context with the priorities of the assignments replaced. *)
Definition withPriority (prio : FleetAssignment -> Z) (a : FleetAssignment)
  : FleetAssignment :=
  mkAssignment (fleetId a) (siteId a) (prio a).

Definition withPriorities (prio : FleetAssignment -> Z) (ctx : CalculationContext)
  : CalculationContext :=
  mkContext (project ctx) (scenario ctx) (sites ctx) (fleets ctx)
            (map (withPriority prio) (fleetAssignments ctx))
            (teamMembers ctx) (asicModels ctx) (teamProfiles ctx).

(** The context with another list of team members. *)
Definition withTeamMembers (ctx : CalculationContext) (members : list TeamMember)
  : CalculationContext :=
  mkContext (project ctx) (scenario ctx) (sites ctx) (fleets ctx) (fleetAssignments ctx)
            members (asicModels ctx) (teamProfiles ctx).

(** The monthly cost of one member in a month, for a scope and target: zero
    when the member has another scope or target, has not started, or has no
    known profile. *)
Definition memberShare (month : Date) (ctx : CalculationContext)
           (scopeType : ScopeType) (target : option string) (member : TeamMember) : Q :=
  if ScopeType_eqb (scope_type (scope member)) scopeType
     && match scopeType with
        | ScopeCompany => true
        | _ => option_string_eqb (targetId (scope member)) target
        end
     && negb (isBefore month (member_startDate member))
  then
    match List.find (fun p => String.eqb (profile_id p) (profileId member))
                    (teamProfiles ctx) with
    | Some profile => (annualSalary profile * employmentRate member / 12)%Q
    | None => 0%Q
    end
  else 0%Q.

(** How the money lines of one site record are related. *)
Definition siteLinesConsistent (btcPriceUSD : Q) (s : SiteMonthlyMetrics) : Prop :=
  sm_revenue s = (sm_btcMined s * btcPriceUSD)%Q /\
  sm_ebitda s
  = (sm_revenue s - (sm_electricityCost s + sm_opexCost s + sm_teamCost s))%Q /\
  sm_totalExpenses s
  = (sm_electricityCost s + sm_opexCost s + sm_capexDepreciation s
     + sm_minerDepreciation s + sm_teamCost s)%Q.

(** ** Example data *)

(** A rational stand-in for [Math.exp], used to run the engine on examples:
    the Taylor polynomial of degree 8, in lowest terms.  Every theorem below
    holds for an arbitrary [Math_exp]. *)
Fixpoint exp_series (n : nat) (x term : Q) (k : Z) : Q :=
  match n with
  | O => 0%Q
  | S n' => Qred (term + exp_series n' x (Qred (term * x / inject_Z k)) (k + 1))
  end.

Definition exp_taylor (x : Q) : Q := exp_series 9 (Qred x) 1%Q 1.

Definition ex_model : ASICModel := mkModel "s19xp" 3010%Q 140%Q 20%Q.

Definition ex_capex : CapexBreakdown :=
  mkCapex 2000000%Q 500000%Q 200000%Q 0%Q 0%Q 0%Q.

Definition ex_opex : OpexBreakdown := mkOpex 50000%Q 100000%Q 0%Q 0%Q.

Definition ex_tranche : Tranche :=
  mkTranche "tr-1" 10%Q (mkDate 2024 1 1) 3 0.95%Q ex_capex 0.045%Q ex_opex 0.02%Q.

Definition ex_site : Site := mkSite "site-1" "Corpus Christi Facility" [ex_tranche].

Definition ex_fleet : ASICFleet :=
  mkFleet "fleet-1" "s19xp" ModeMW None (Some 10%Q) (mkDate 2023 12 1) 5%Q.

Definition ex_scenario : Scenario :=
  mkScenario "sc-1" "Conservative 2024"
             [ mkMonthlyData "2024-01-01" 42000%Q 500%Q 0.1%Q;
               mkMonthlyData "2024-02-01" 43000%Q 510%Q 0.1%Q ].

Definition ex_ctx : CalculationContext :=
  mkContext (mkProject (mkDate 2024 1 1) (mkDate 2024 3 31))
            ex_scenario
            [ex_site]
            [ex_fleet]
            [mkAssignment "fleet-1" "site-1" 0]
            [ mkTeamMember "mgr" (mkScope ScopeSite (Some "site-1")) (mkDate 2024 1 1) 1%Q;
              mkTeamMember "cfo" (mkScope ScopeCompany None) (mkDate 2024 1 1) 0.5%Q ]
            [ex_model]
            [ mkTeamProfile "mgr" 120000%Q; mkTeamProfile "cfo" 200000%Q ].

(** A second fleet, bought for delivery in 2025 and not yet assigned. *)
Definition ex_late_fleet : ASICFleet :=
  mkFleet "fleet-2" "s19xp" ModeMiners (Some 500) None (mkDate 2025 1 1) 5%Q.

Definition ex_ctx_late : CalculationContext :=
  mkContext (project ex_ctx) (scenario ex_ctx) (sites ex_ctx)
            [ex_fleet; ex_late_fleet]
            (fleetAssignments ex_ctx) (teamMembers ex_ctx)
            (asicModels ex_ctx) (teamProfiles ex_ctx).

(** Two fleets compete for one megawatt.  [fleet-A] has the lower priority
    value; the store hands the assignments over with [fleet-B] first. *)
Definition ex_fleet_A : ASICFleet :=
  mkFleet "fleet-A" "s19xp" ModeMiners (Some 400) None (mkDate 2023 12 1) 5%Q.

Definition ex_fleet_B : ASICFleet :=
  mkFleet "fleet-B" "s19xp" ModeMiners (Some 400) None (mkDate 2023 12 1) 5%Q.

Definition ex_small_site : Site :=
  mkSite "site-1" "Corpus Christi Facility"
         [mkTranche "tr-1" 1%Q (mkDate 2024 1 1) 0 1%Q ex_capex 0.045%Q ex_opex 0.02%Q].

Definition ex_ctx_priority (assignments : list FleetAssignment) : CalculationContext :=
  mkContext (project ex_ctx) (scenario ex_ctx) [ex_small_site]
            [ex_fleet_A; ex_fleet_B]
            assignments
            (teamMembers ex_ctx) (asicModels ex_ctx) (teamProfiles ex_ctx).

Definition ex_assignment_A : FleetAssignment := mkAssignment "fleet-A" "site-1" 0.
Definition ex_assignment_B : FleetAssignment := mkAssignment "fleet-B" "site-1" 1.

(** The fleet of [ex_ctx] assigned to two sites; the only tranche of the
    second site starts in 2025. *)
Definition ex_future_site : Site :=
  mkSite "site-2" "Odessa Facility"
         [mkTranche "tr-2" 5%Q (mkDate 2025 1 1) 0 1%Q ex_capex 0.05%Q ex_opex 0.02%Q].

Definition ex_ctx_two_sites : CalculationContext :=
  mkContext (project ex_ctx) (scenario ex_ctx) [ex_site; ex_future_site]
            [ex_fleet]
            [mkAssignment "fleet-1" "site-1" 0; mkAssignment "fleet-1" "site-2" 0]
            (teamMembers ex_ctx) (asicModels ex_ctx) (teamProfiles ex_ctx).

(** A tranche of 9.6 MW, as the double nearest to 9.6, served by 250 units
    of 5346 W and then by units of 3500 W. *)
Definition ex_model_5346 : ASICModel := mkModel "hydro" 5346%Q 335%Q 20%Q.
Definition ex_model_3500 : ASICModel := mkModel "s21" 3500%Q 200%Q 20%Q.

Definition ex_fleet_hydro : ASICFleet :=
  mkFleet "fleet-hydro" "hydro" ModeMiners (Some 250) None (mkDate 2023 12 1) 5%Q.

Definition ex_fleet_s21 : ASICFleet :=
  mkFleet "fleet-s21" "s21" ModeMiners (Some 3000) None (mkDate 2023 12 1) 5%Q.

Definition ex_site_9_6 : Site :=
  mkSite "site-1" "Corpus Christi Facility"
         [mkTranche "tr-1" (round64 9.6) (mkDate 2024 1 1) 0 1%Q ex_capex 0.045%Q ex_opex
                    0.02%Q].

Definition ex_ctx_9_6 : CalculationContext :=
  mkContext (project ex_ctx) (scenario ex_ctx) [ex_site_9_6]
            [ex_fleet_hydro; ex_fleet_s21]
            [mkAssignment "fleet-hydro" "site-1" 0; mkAssignment "fleet-s21" "site-1" 1]
            (teamMembers ex_ctx) [ex_model_5346; ex_model_3500] (teamProfiles ex_ctx).

(** The statuses of the two fleets with all units active. *)
Definition ex_statuses_9_6 : list MonthlyFleetStatus :=
  [mkFleetStatus "fleet-hydro" 250 0 250; mkFleetStatus "fleet-s21" 3000 0 3000].
(** ** Facts about the order on dates *)

Lemma compareAsc_refl a : compareAsc a a = Eq.
Proof. unfold compareAsc. now rewrite !Z.compare_refl. Qed.

Lemma isAfter_monthIndex a b :
  1 <= monthOfYear a <= 12 -> 1 <= monthOfYear b <= 12 ->
  isAfter a b = true ->
  monthIndex b < monthIndex a \/ (monthIndex b = monthIndex a /\ dayOfMonth b < dayOfMonth a).
Proof.
  unfold isAfter, compareAsc, monthIndex. intros Ha Hb.
  destruct (Z.compare_spec (year a) (year b));
    destruct (Z.compare_spec (monthOfYear a) (monthOfYear b));
    destruct (Z.compare_spec (dayOfMonth a) (dayOfMonth b));
    intros; try discriminate; lia.
Qed.

Lemma isBefore_not_isAfter a b : isBefore a b = true -> isAfter a b = false.
Proof. unfold isBefore, isAfter. now destruct (compareAsc a b). Qed.

Lemma isAfter_not_isBefore a b : isAfter a b = true -> isBefore a b = false.
Proof. unfold isBefore, isAfter. now destruct (compareAsc a b). Qed.

Lemma isAfter_irrefl a : isAfter a a = false.
Proof. unfold isAfter. now rewrite compareAsc_refl. Qed.

(** ** The reward schedule returns the latest entry in force *)

Lemma isBefore_spec a b :
  isBefore a b = true <->
  (year a < year b \/
   (year a = year b /\
    (monthOfYear a < monthOfYear b \/
     (monthOfYear a = monthOfYear b /\ dayOfMonth a < dayOfMonth b)))).
Proof.
  unfold isBefore, compareAsc.
  destruct (Z.compare_spec (year a) (year b));
    destruct (Z.compare_spec (monthOfYear a) (monthOfYear b));
    destruct (Z.compare_spec (dayOfMonth a) (dayOfMonth b));
    split; intros; try discriminate; try reflexivity; lia.
Qed.

Lemma isBefore_mono date d1 d2 :
  isBefore d1 d2 = false -> isBefore date d1 = false -> isBefore date d2 = false.
Proof.
  intros H1 H2.
  destruct (isBefore date d2) eqn:H3; [| reflexivity].
  apply not_true_iff_false in H1, H2.
  rewrite isBefore_spec in *. lia.
Qed.

Ltac pick_entry d r :=
  exists d, r; unfold HALVING_DATES, date_geb;
  split; [cbn [In]; tauto |];
  split; [now match goal with H : isBefore _ d = false |- _ => rewrite H end |];
  split; [reflexivity |];
  intros d' r' Hin Hd';
  cbn [In] in Hin;
  repeat (destruct Hin as [Hin | Hin];
          [injection Hin as <- <-;
           first [reflexivity
                 | match goal with
                     H : isBefore _ _ = true |- _ =>
                     rewrite H in Hd'; discriminate Hd'
                   end] |]);
  contradiction.

(** C7: for every date, [getBlockReward] is 50 before the first entry of the
    halving table and otherwise the reward of an entry in force at that date
    such that no entry in force is later; the rewards on 2024-04-18 and
    2024-04-19 are 6.25 and 3.125. *)
Theorem getBlockReward_latest_entry :
  forall date : Date,
    (isBefore date (mkDate 2009 1 3) = true -> getBlockReward date = 50%Q) /\
    (isBefore date (mkDate 2009 1 3) = false ->
     exists d r,
       In (d, r) HALVING_DATES /\ date_geb date d = true /\
       getBlockReward date = r /\
       forall d' r', In (d', r') HALVING_DATES ->
                     date_geb date d' = true -> date_geb d d' = true) /\
    getBlockReward (mkDate 2024 4 18) = 6.25%Q /\
    getBlockReward (mkDate 2024 4 19) = 3.125%Q.
Proof.
  intros date.
  split; [| split; [| split; reflexivity]];
    intros Hb; unfold getBlockReward, HALVING_DATES;
    cbn [rev app scanHalvings]; unfold date_geb.
  - destruct (isBefore date (mkDate 2032 4 1)) eqn:H7;
      [| now rewrite (isBefore_mono date (mkDate 2032 4 1) (mkDate 2009 1 3)) in Hb].
    destruct (isBefore date (mkDate 2028 4 1)) eqn:H6;
      [| now rewrite (isBefore_mono date (mkDate 2028 4 1) (mkDate 2009 1 3)) in Hb].
    destruct (isBefore date (mkDate 2024 4 19)) eqn:H5;
      [| now rewrite (isBefore_mono date (mkDate 2024 4 19) (mkDate 2009 1 3)) in Hb].
    destruct (isBefore date (mkDate 2020 5 11)) eqn:H4;
      [| now rewrite (isBefore_mono date (mkDate 2020 5 11) (mkDate 2009 1 3)) in Hb].
    destruct (isBefore date (mkDate 2016 7 9)) eqn:H3;
      [| now rewrite (isBefore_mono date (mkDate 2016 7 9) (mkDate 2009 1 3)) in Hb].
    destruct (isBefore date (mkDate 2012 11 28)) eqn:H2;
      [| now rewrite (isBefore_mono date (mkDate 2012 11 28) (mkDate 2009 1 3)) in Hb].
    now rewrite Hb.
  - destruct (isBefore date (mkDate 2032 4 1)) eqn:H7; [| pick_entry (mkDate 2032 4 1) 0.78125%Q].
    destruct (isBefore date (mkDate 2028 4 1)) eqn:H6; [| pick_entry (mkDate 2028 4 1) 1.5625%Q].
    destruct (isBefore date (mkDate 2024 4 19)) eqn:H5; [| pick_entry (mkDate 2024 4 19) 3.125%Q].
    destruct (isBefore date (mkDate 2020 5 11)) eqn:H4; [| pick_entry (mkDate 2020 5 11) 6.25%Q].
    destruct (isBefore date (mkDate 2016 7 9)) eqn:H3; [| pick_entry (mkDate 2016 7 9) 12.5%Q].
    destruct (isBefore date (mkDate 2012 11 28)) eqn:H2; [| pick_entry (mkDate 2012 11 28) 25%Q].
    rewrite Hb. pick_entry (mkDate 2009 1 3) 50%Q.
Qed.

(** ** Sums *)

Lemma fold_sumZ {A} (f : A -> Z) l a :
  fold_left (fun sum x => sum + f x) l a = a + sumZ f l.
Proof.
  unfold sumZ. revert a. induction l as [| x l IH]; intros a; cbn [fold_left].
  - lia.
  - rewrite (IH (a + f x)), (IH (0 + f x)). lia.
Qed.

Lemma sumZ_nil {A} (f : A -> Z) : sumZ f [] = 0.
Proof. reflexivity. Qed.

Lemma sumZ_cons {A} (f : A -> Z) x l : sumZ f (x :: l) = f x + sumZ f l.
Proof. unfold sumZ at 1. cbn [fold_left]. rewrite fold_sumZ. lia. Qed.

Lemma sumZ_app {A} (f : A -> Z) l1 l2 : sumZ f (l1 ++ l2) = sumZ f l1 + sumZ f l2.
Proof.
  induction l1 as [| x l1 IH]; cbn [app].
  - rewrite sumZ_nil. lia.
  - rewrite !sumZ_cons, IH. lia.
Qed.

Lemma sumZ_map {A B} (g : A -> B) (f : B -> Z) l :
  sumZ f (map g l) = sumZ (fun x => f (g x)) l.
Proof.
  induction l as [| x l IH]; cbn [map]; [reflexivity |].
  now rewrite !sumZ_cons, IH.
Qed.

Lemma sumZ_sub {A} (f g : A -> Z) l :
  sumZ (fun x => f x - g x) l = sumZ f l - sumZ g l.
Proof.
  induction l as [| x l IH]; [reflexivity |].
  rewrite !sumZ_cons, IH. lia.
Qed.

Lemma sumZ_zero {A} (f : A -> Z) l :
  Forall (fun x => f x = 0) l -> sumZ f l = 0.
Proof.
  induction 1 as [| x l Hx _ IH]; [reflexivity |].
  rewrite sumZ_cons, Hx, IH. reflexivity.
Qed.

Lemma sumZ_ext_in {A} (f g : A -> Z) l :
  (forall x, In x l -> f x = g x) -> sumZ f l = sumZ g l.
Proof.
  induction l as [| x l IH]; intros H; [reflexivity |].
  rewrite !sumZ_cons, (H x), IH; [reflexivity | | now left].
  intros y Hy. apply H. now right.
Qed.

Lemma fold_sumQ {A} (f : A -> Q) l a :
  (fold_left (fun sum x => sum + f x) l a == a + sumQ f l)%Q.
Proof.
  unfold sumQ. revert a. induction l as [| x l IH]; intros a; cbn [fold_left].
  - ring.
  - rewrite (IH (a + f x)%Q), (IH (0 + f x)%Q). ring.
Qed.

Lemma sumQ_nil {A} (f : A -> Q) : sumQ f [] = 0%Q.
Proof. reflexivity. Qed.

Lemma sumQ_cons {A} (f : A -> Q) x l : (sumQ f (x :: l) == f x + sumQ f l)%Q.
Proof. unfold sumQ at 1. cbn [fold_left]. rewrite fold_sumQ. ring. Qed.

Lemma sumQ_app {A} (f : A -> Q) l1 l2 : (sumQ f (l1 ++ l2) == sumQ f l1 + sumQ f l2)%Q.
Proof.
  induction l1 as [| x l1 IH]; cbn [app].
  - rewrite sumQ_nil. ring.
  - rewrite !sumQ_cons, IH. ring.
Qed.

(** ** Floors *)

Lemma Qfloor_unique (x : Q) (z : Z) :
  (inject_Z z <= x)%Q -> (x < inject_Z (z + 1))%Q -> Qfloor x = z.
Proof.
  intros Hle Hlt.
  pose proof (Qfloor_le x) as H1. pose proof (Qlt_floor x) as H2.
  assert (Qfloor x < z + 1).
  { rewrite Zlt_Qlt. eapply Qle_lt_trans; eassumption. }
  assert (z < Qfloor x + 1).
  { rewrite Zlt_Qlt. eapply Qle_lt_trans; eassumption. }
  lia.
Qed.

(** [Math.floor(n * 0.95) + Math.ceil(n * 0.05) = n] on whole numbers. *)
Lemma floor_ceil_split (n : Z) :
  Qfloor (inject_Z n * 0.95) + Qceiling (inject_Z n * 0.05) = n.
Proof.
  unfold Qceiling, Qfloor, Qopp, Qmult, inject_Z. cbn [Qnum Qden].
  change (1 * 100)%positive with 100%positive.
  Z.div_mod_to_equations. lia.
Qed.

(** ** 4.3 Fleet aging: unit conservation *)

Section FleetAging.

Variable Math_exp : Q -> Q.

Lemma fleetStatus_id month ctx fleet :
  fs_fleetId (fleetStatus Math_exp month ctx fleet) = fleet_id fleet.
Proof.
  unfold fleetStatus.
  destruct (findModel ctx (modelId fleet)); [| reflexivity].
  destruct (isAfter month (originationDate fleet)); [| reflexivity].
  now destruct (Qle_bool _ _).
Qed.

Lemma fleetStatus_after month ctx fleet :
  isAfter month (originationDate fleet) = true ->
  let fs := fleetStatus Math_exp month ctx fleet in
  totalMiners fs = failedMiners fs + activeMiners fs.
Proof.
  intros Hafter. unfold fleetStatus.
  destruct (findModel ctx (modelId fleet)) as [model |]; [| reflexivity].
  rewrite Hafter. cbv zeta.
  destruct (Qle_bool _ _); cbn [totalMiners failedMiners activeMiners].
  - now rewrite floor_ceil_split.
  - lia.
Qed.

Lemma fleetStatus_not_after month ctx fleet :
  isAfter month (originationDate fleet) = false ->
  let fs := fleetStatus Math_exp month ctx fleet in
  failedMiners fs = 0 /\ activeMiners fs = 0.
Proof.
  intros Hafter. unfold fleetStatus.
  destruct (findModel ctx (modelId fleet)) as [model |]; [| now split].
  rewrite Hafter. now split.
Qed.

(** C3 (amended): the statuses produced by fleet aging are those of the
    fleets, in order; for a month strictly after the origination date of
    the fleet, total = failed + active exactly (also at or past the end of
    the lifespan); for a month strictly before it, failed and active are
    both 0 while [totalMiners] keeps the size of the fleet. *)
Theorem unit_conservation_after_origination :
  forall (month : Date) (ctx : CalculationContext),
    Forall2
      (fun fleet fs =>
         fs_fleetId fs = fleet_id fleet /\
         (isAfter month (originationDate fleet) = true ->
          totalMiners fs = failedMiners fs + activeMiners fs) /\
         (isBefore month (originationDate fleet) = true ->
          failedMiners fs = 0 /\ activeMiners fs = 0 /\
          forall model, findModel ctx (modelId fleet) = Some model ->
                        totalMiners fs = fleetTotalMiners fleet model))
      (fleets ctx) (calculateFleetStatuses Math_exp month ctx).
Proof.
  intros month ctx. unfold calculateFleetStatuses.
  induction (fleets ctx) as [| fleet l IH]; cbn [map]; constructor; [| exact IH].
  split; [apply fleetStatus_id |].
  split; [apply fleetStatus_after |].
  intros Hb. apply isBefore_not_isAfter in Hb.
  pose proof (fleetStatus_not_after month ctx fleet Hb) as [Hf Ha].
  split; [exact Hf |]. split; [exact Ha |].
  intros model Hm. unfold fleetStatus. now rewrite Hm, Hb.
Qed.

End FleetAging.

(** C3 (counterexample): in February 2024 the fleet to be delivered in
    January 2025 is reported with 500 units in total, none failed and none
    active, so total = failed + active fails for it. *)
Lemma unit_conservation_fails_before_origination :
  ~ (forall (Math_exp : Q -> Q) (fs : MonthlyFleetStatus),
        In fs (calculateFleetStatuses Math_exp (mkDate 2024 2 1) ex_ctx_late) ->
        totalMiners fs = failedMiners fs + activeMiners fs).
Proof.
  intros H.
  specialize (H exp_taylor (mkFleetStatus "fleet-2" 500 0 0)).
  cbn [totalMiners failedMiners activeMiners] in H.
  assert (500 = 0 + 0) as Habs; [| discriminate Habs].
  apply H. vm_compute. right. left. reflexivity.
Qed.

(** ** Spare miners *)

Section SpareMiners.

Variable Math_exp : Q -> Q.

Lemma spareMiners_unfold month ctx :
  spareMiners (calculateMonthMetrics Math_exp month ctx) =
  sumZ totalMiners (calculateFleetStatuses Math_exp month ctx)
  - sumZ failedMiners (calculateFleetStatuses Math_exp month ctx)
  - sumZ allocatedMiners
         (allocateFleetsToTranches month ctx (calculateFleetStatuses Math_exp month ctx)).
Proof. reflexivity. Qed.

(** C4 (amended): in every month the reported [spareMiners] is the sum over
    the fleets of total minus failed units, minus the units allocated across
    all tranches; in a month strictly after the origination date of every
    fleet this is the sum of the active units minus the allocated ones. *)
Theorem spareMiners_formula :
  forall (month : Date) (ctx : CalculationContext),
    let fleetStatuses := calculateFleetStatuses Math_exp month ctx in
    let trancheStatuses := allocateFleetsToTranches month ctx fleetStatuses in
    let metrics := calculateMonthMetrics Math_exp month ctx in
    spareMiners metrics =
    sumZ (fun f => totalMiners f - failedMiners f) fleetStatuses
    - sumZ allocatedMiners trancheStatuses
    /\
    ((forall fleet, In fleet (fleets ctx) ->
                    isAfter month (originationDate fleet) = true) ->
     spareMiners metrics =
     sumZ activeMiners fleetStatuses - sumZ allocatedMiners trancheStatuses).
Proof.
  intros month ctx fleetStatuses trancheStatuses metrics.
  assert (Hsub : spareMiners metrics =
                 sumZ (fun f => totalMiners f - failedMiners f) fleetStatuses
                 - sumZ allocatedMiners trancheStatuses).
  { subst metrics. rewrite spareMiners_unfold, sumZ_sub. reflexivity. }
  split; [exact Hsub |].
  intros Hafter. rewrite Hsub. f_equal.
  apply sumZ_ext_in. intros fs Hin.
  subst fleetStatuses. unfold calculateFleetStatuses in Hin.
  apply in_map_iff in Hin as [fleet [<- Hfleet]].
  pose proof (fleetStatus_after Math_exp month ctx fleet (Hafter fleet Hfleet)) as H.
  cbv zeta in H. lia.
Qed.

End SpareMiners.

Lemma spareMiners_formula_witness :
  (forall fleet, In fleet (fleets ex_ctx) ->
                 isAfter (mkDate 2024 2 1) (originationDate fleet) = true) /\
  spareMiners (calculateMonthMetrics exp_taylor (mkDate 2024 2 1) ex_ctx) =
  sumZ activeMiners (calculateFleetStatuses exp_taylor (mkDate 2024 2 1) ex_ctx)
  - sumZ allocatedMiners
         (allocateFleetsToTranches
            (mkDate 2024 2 1) ex_ctx
            (calculateFleetStatuses exp_taylor (mkDate 2024 2 1) ex_ctx)).
Proof.
  assert (H : forall fleet, In fleet (fleets ex_ctx) ->
                            isAfter (mkDate 2024 2 1) (originationDate fleet) = true).
  { intros fleet [<- | []]. reflexivity. }
  split; [exact H |].
  exact (proj2 (spareMiners_formula exp_taylor (mkDate 2024 2 1) ex_ctx) H).
Defined.

(** C4 (counterexample): in February 2024, with the 500 units of the fleet
    to be delivered in 2025, [spareMiners] is 1608 while active minus
    allocated units is 1108. *)
Lemma spareMiners_counts_undelivered_units :
  ~ (forall (Math_exp : Q -> Q),
        spareMiners (calculateMonthMetrics Math_exp (mkDate 2024 2 1) ex_ctx_late) =
        sumZ activeMiners (calculateFleetStatuses Math_exp (mkDate 2024 2 1) ex_ctx_late)
        - sumZ allocatedMiners
               (allocateFleetsToTranches
                  (mkDate 2024 2 1) ex_ctx_late
                  (calculateFleetStatuses Math_exp (mkDate 2024 2 1) ex_ctx_late))).
Proof.
  intros H. specialize (H exp_taylor).
  assert (Hl : spareMiners (calculateMonthMetrics exp_taylor (mkDate 2024 2 1) ex_ctx_late)
               = 1608) by (vm_compute; reflexivity).
  assert (Hr : sumZ activeMiners
                    (calculateFleetStatuses exp_taylor (mkDate 2024 2 1) ex_ctx_late)
               - sumZ allocatedMiners
                      (allocateFleetsToTranches
                         (mkDate 2024 2 1) ex_ctx_late
                         (calculateFleetStatuses exp_taylor (mkDate 2024 2 1) ex_ctx_late))
               = 1108) by (vm_compute; reflexivity).
  rewrite Hl, Hr in H. discriminate H.
Qed.

(** ** Economic inputs *)

Lemma js_or_nonzero v dflt : ~ (dflt == 0)%Q -> ~ (js_or v dflt == 0)%Q.
Proof.
  intros Hd. unfold js_or. destruct v as [x |]; [| exact Hd].
  destruct (Qeq_bool x 0) eqn:E; [exact Hd |].
  now apply Qeq_bool_neq.
Qed.

Lemma js_or_zero x dflt : (x == 0)%Q -> js_or (Some x) dflt = dflt.
Proof.
  intros Hx. unfold js_or.
  now rewrite (proj2 (Qeq_bool_iff x 0) Hx).
Qed.



Section EconomicInputs.

Variable Math_exp : Q -> Q.



End EconomicInputs.


(** C9: when the month's record is present, a field that is exactly zero is
    replaced by its default (40000, 500, 0.05), as for a missing record; so
    the price and the global hashrate the engine works with are never zero,
    the divisor of the hashrate fraction is never zero, and for scenario
    data without negative hashrates the guarded quotient is always the
    plain quotient. *)
Theorem zero_field_uses_default :
  forall (month : Date) (ctx : CalculationContext),
    let inputs := economicInputs month ctx in
    (forall d, economicData month ctx = Some d ->
               ((btcPriceUSD d == 0)%Q -> in_btcPriceUSD inputs = 40000%Q) /\
               ((globalHashrateEH d == 0)%Q -> in_globalHashrateEH inputs = 500%Q) /\
               ((txFeesPerBlock d == 0)%Q -> in_txFeesPerBlock inputs = 0.05%Q)) /\
    (economicData month ctx = None -> inputs = mkInputs 40000%Q 500%Q 0.05%Q) /\
    ~ (in_btcPriceUSD inputs == 0)%Q /\
    ~ (in_globalHashrateEH inputs == 0)%Q /\
    ~ (in_globalHashrateEH inputs * 1000000 == 0)%Q /\
    ((forall d, In d (monthlyData (scenario ctx)) -> (0 <= globalHashrateEH d)%Q) ->
     forall totalHashrateThs,
       hashrateFractionOf totalHashrateThs (in_globalHashrateEH inputs * 1000000) =
       (totalHashrateThs / (in_globalHashrateEH inputs * 1000000))%Q).
Proof.
  intros month ctx inputs. subst inputs. unfold economicInputs.
  cbn [in_btcPriceUSD in_globalHashrateEH in_txFeesPerBlock].
  assert (Hgh : ~ (js_or (option_map globalHashrateEH (economicData month ctx)) 500 == 0)%Q)
    by (apply js_or_nonzero; discriminate).
  split; [| split; [| split; [| split; [| split]]]].
  - intros d Hd. rewrite Hd. cbn [option_map].
    repeat split; apply js_or_zero.
  - intros Hnone. rewrite Hnone. reflexivity.
  - apply js_or_nonzero. discriminate.
  - exact Hgh.
  - intros H. apply Hgh.
    apply (Qmult_inj_r _ _ 1000000); [discriminate |].
    rewrite H. reflexivity.
  - intros Hnonneg total. unfold hashrateFractionOf.
    destruct (Qlt_le_dec 0 _) as [Hpos | Hle]; [reflexivity | exfalso].
    assert (Hge : (0 <= js_or (option_map globalHashrateEH (economicData month ctx)) 500)%Q).
    { unfold js_or. destruct (economicData month ctx) as [d |] eqn:Hd; cbn [option_map].
      - destruct (Qeq_bool _ 0); [discriminate |].
        apply Hnonneg. unfold economicData in Hd.
        now apply find_some in Hd as [Hin _].
      - discriminate. }
    apply Hgh. lra.
Qed.

(** ** Rounding: [round64] has a relative error of at most [2^-53] *)

Lemma pow2_pos e : (0 < pow2 e)%Q.
Proof. unfold pow2. now apply Qpower_0_lt. Qed.

Lemma pow2_plus a b : (pow2 (a + b) == pow2 a * pow2 b)%Q.
Proof. unfold pow2. apply Qpower_plus. discriminate. Qed.

Lemma pow2_inject k : 0 <= k -> (pow2 k == inject_Z (2 ^ k))%Q.
Proof. intros Hk. unfold pow2. now rewrite (Zpower_Qpower 2 k Hk). Qed.

Lemma quotient_le_quotient (x y n d : Q) :
  (0 < x)%Q -> (0 < d)%Q -> (x <= n)%Q -> (d <= y)%Q -> (x / y <= n / d)%Q.
Proof.
  intros Hx Hd Hxn Hdy.
  assert (Hy : (0 < y)%Q) by lra.
  apply Qle_shift_div_l; [exact Hd |].
  assert (E : (x / y * d == x * d / y)%Q) by (field; lra). rewrite E.
  apply Qle_shift_div_r; [exact Hy |].
  nra.
Qed.

Lemma quotient_lt_quotient (n d x y : Q) :
  (0 < n)%Q -> (0 < y)%Q -> (n < x)%Q -> (y <= d)%Q -> (n / d < x / y)%Q.
Proof.
  intros Hn Hy Hnx Hyd.
  assert (Hd : (0 < d)%Q) by lra.
  apply Qlt_shift_div_l; [exact Hy |].
  assert (E : (n / d * y == n * y / d)%Q) by (field; lra). rewrite E.
  apply Qlt_shift_div_r; [exact Hd |].
  nra.
Qed.

Lemma binade_spec a :
  (0 < a)%Q -> (pow2 (binade a) <= a)%Q /\ (a < pow2 (binade a + 1))%Q.
Proof.
  intros Ha. destruct a as [n d].
  assert (Hn : 0 < n) by (unfold Qlt in Ha; cbn in Ha; lia).
  unfold binade. cbn [Qnum Qden].
  set (ln := Z.log2 n). set (ld := Z.log2 (Z.pos d)).
  assert (Hln : 0 <= ln) by apply Z.log2_nonneg.
  assert (Hld : 0 <= ld) by apply Z.log2_nonneg.
  destruct (Z.log2_spec n Hn) as [Hn1 Hn2]. fold ln in Hn1, Hn2.
  destruct (Z.log2_spec (Z.pos d) (Pos2Z.is_pos d)) as [Hd1 Hd2]. fold ld in Hd1, Hd2.
  assert (Hq : (n # d == inject_Z n / inject_Z (Z.pos d))%Q) by apply Qmake_Qdiv.
  assert (Hlow : (pow2 (ln - ld - 1) <= n # d)%Q).
  { replace (ln - ld - 1) with (ln - Z.succ ld) by lia.
    unfold pow2. rewrite Qpower_minus by discriminate.
    fold (pow2 ln). fold (pow2 (Z.succ ld)).
    rewrite !pow2_inject by lia. rewrite Hq.
    apply quotient_le_quotient.
    - rewrite <- (Zlt_Qlt 0). lia.
    - now rewrite <- (Zlt_Qlt 0).
    - now rewrite <- Zle_Qle.
    - rewrite <- Zle_Qle. lia. }
  assert (Hhigh : (n # d < pow2 (ln - ld + 1))%Q).
  { replace (ln - ld + 1) with (Z.succ ln - ld) by lia.
    unfold pow2. rewrite Qpower_minus by discriminate.
    fold (pow2 (Z.succ ln)). fold (pow2 ld).
    rewrite !pow2_inject by lia. rewrite Hq.
    apply quotient_lt_quotient.
    - now rewrite <- (Zlt_Qlt 0).
    - rewrite <- (Zlt_Qlt 0). lia.
    - now rewrite <- Zlt_Qlt.
    - now rewrite <- Zle_Qle. }
  destruct (Qle_bool (pow2 (ln - ld)) (n # d)) eqn:Htest.
  - apply Qle_bool_iff in Htest. split; [exact Htest | exact Hhigh].
  - split; [exact Hlow |].
    replace (ln - ld - 1 + 1) with (ln - ld) by lia.
    apply Qnot_le_lt. intros H. apply Qle_bool_iff in H. congruence.
Qed.

Lemma roundHalfEven_near x :
  (Qabs (inject_Z (roundHalfEven x) - x) <= 1 # 2)%Q.
Proof.
  unfold roundHalfEven.
  pose proof (Qfloor_le x) as Hlo. pose proof (Qlt_floor x) as Hhi.
  set (f := Qfloor x) in *.
  assert (Hf1 : (inject_Z (f + 1) == inject_Z f + 1)%Q)
    by (rewrite inject_Z_plus; reflexivity).
  rewrite Hf1 in Hhi.
  apply Qabs_Qle_condition.
  destruct (x - inject_Z f ?= 1 # 2)%Q eqn:Hc.
  - apply Qeq_alt in Hc. destruct (Z.even f); [| rewrite Hf1]; split; lra.
  - apply Qlt_alt in Hc. split; lra.
  - apply Qgt_alt in Hc. rewrite Hf1. split; lra.
Qed.

Lemma round64_error : roundsWithin unitRoundoff64 round64.
Proof.
  intros x. unfold round64.
  destruct (Qeq_bool x 0) eqn:Hz.
  - apply Qeq_bool_iff in Hz. rewrite Hz. vm_compute. discriminate.
  - assert (Hx : ~ (x == 0)%Q) by (intros H; apply Qeq_bool_iff in H; congruence).
    assert (Ha : (0 < Qabs x)%Q).
    { destruct (Q_dec x 0) as [[Hl | Hg] | He]; [| | contradiction].
      - rewrite Qabs_neg by lra. lra.
      - rewrite Qabs_pos by lra. lra. }
    cbv zeta. rewrite Qred_correct.
    destruct (binade_spec (Qabs x) Ha) as [Hb _].
    set (e := binade (Qabs x) - 52) in *.
    assert (He : (pow2 (binade (Qabs x)) == pow2 e * pow2 52)%Q).
    { rewrite <- pow2_plus. unfold e. now replace (binade (Qabs x) - 52 + 52) with (binade (Qabs x)) by lia. }
    pose proof (pow2_pos e) as Hpe.
    pose proof (roundHalfEven_near (Qabs x / pow2 e)) as Hm.
    set (m := inject_Z (roundHalfEven (Qabs x / pow2 e))) in *.
    assert (Hu : (unitRoundoff64 == 1 # 9007199254740992)%Q) by reflexivity.
    assert (H52 : (pow2 52 == 4503599627370496)%Q) by reflexivity.
    rewrite He, H52 in Hb. rewrite Hu.
    assert (Hd : (Qabs (m * pow2 e - Qabs x) <= (1 # 2) * pow2 e)%Q).
    { assert (E : (m * pow2 e - Qabs x == (m - Qabs x / pow2 e) * pow2 e)%Q)
        by (field; lra).
      rewrite E, Qabs_Qmult, (Qabs_pos (pow2 e)) by lra.
      apply Qmult_le_compat_r; [exact Hm | lra]. }
    assert (Hgoal : (Qabs (m * pow2 e - Qabs x) <= (1 # 9007199254740992) * Qabs x)%Q) by lra.
    destruct (Qle_bool 0 x) eqn:Hs.
    + apply Qle_bool_iff in Hs. rewrite (Qabs_pos x Hs) in Hgoal |- *.
      assert (E : (1 * m * pow2 e - x == m * pow2 e - x)%Q) by ring.
      rewrite E. exact Hgoal.
    + assert (Hneg : (x <= 0)%Q).
      { apply Qlt_le_weak, Qnot_le_lt. intros H. apply Qle_bool_iff in H. congruence. }
      rewrite (Qabs_neg x Hneg) in Hgoal |- *.
      assert (E : (-1 * m * pow2 e - x == - (m * pow2 e - - x))%Q) by ring.
      rewrite E, Qabs_opp. exact Hgoal.
Qed.

(** [round64] returns a number with a significand of 53 bits. *)
Lemma round64_significand q :
  ~ (q == 0)%Q ->
  exists m e : Z,
    2 ^ 52 <= m <= 2 ^ 53 /\ (Qabs (round64 q) == inject_Z m * pow2 e)%Q.
Proof.
  intros Hq. unfold round64.
  destruct (Qeq_bool q 0) eqn:Hz; [apply Qeq_bool_iff in Hz; contradiction |].
  assert (Ha : (0 < Qabs q)%Q).
  { destruct (Q_dec q 0) as [[Hl | Hg] | He]; [| | contradiction].
    - rewrite Qabs_neg by lra. lra.
    - rewrite Qabs_pos by lra. lra. }
  cbv zeta. destruct (binade_spec (Qabs q) Ha) as [Hlo Hhi].
  set (e := binade (Qabs q) - 52) in *.
  pose proof (pow2_pos e) as Hpe.
  assert (E1 : (pow2 (binade (Qabs q)) == pow2 e * 4503599627370496)%Q).
  { replace (binade (Qabs q)) with (e + 52) by (unfold e; lia).
    rewrite pow2_plus. reflexivity. }
  assert (E2 : (pow2 (binade (Qabs q) + 1) == pow2 e * 9007199254740992)%Q).
  { replace (binade (Qabs q) + 1) with (e + 53) by (unfold e; lia).
    rewrite pow2_plus. reflexivity. }
  rewrite E1 in Hlo. rewrite E2 in Hhi.
  set (y := (Qabs q / pow2 e)%Q).
  assert (Hy : (y * pow2 e == Qabs q)%Q) by (unfold y; field; lra).
  assert (Hy1 : (4503599627370496 <= y)%Q) by nra.
  assert (Hy2 : (y < 9007199254740992)%Q) by nra.
  assert (Hf1 : 4503599627370496 <= Qfloor y).
  { replace 4503599627370496 with (Qfloor (inject_Z 4503599627370496)) at 1
      by apply Qfloor_Z.
    now apply Qfloor_resp_le. }
  assert (Hf2 : Qfloor y < 9007199254740992).
  { pose proof (Qfloor_le y) as H. rewrite Zlt_Qlt.
    change (inject_Z 9007199254740992) with 9007199254740992%Q. lra. }
  assert (Hm : Qfloor y <= roundHalfEven y <= Qfloor y + 1).
  { unfold roundHalfEven. destruct (y - inject_Z (Qfloor y) ?= 1 # 2)%Q; [| lia | lia].
    destruct (Z.even (Qfloor y)); lia. }
  exists (roundHalfEven y), e. split; [lia |].
  rewrite Qred_correct.
  assert (Hm0 : (0 <= inject_Z (roundHalfEven y))%Q) by (rewrite <- (Zle_Qle 0); lia).
  destruct (Qle_bool 0 q).
  - rewrite Qabs_pos; [ring |].
    apply Qmult_le_0_compat; [lra | lra].
  - assert (E : (-1 * inject_Z (roundHalfEven y) * pow2 e
                 == - (inject_Z (roundHalfEven y) * pow2 e))%Q) by ring.
    rewrite E, Qabs_opp. apply Qabs_pos. apply Qmult_le_0_compat; lra.
Qed.

Section RoundingFacts.

Variable round : Q -> Q.
Variable u : Q.
Hypothesis Hu : (0 <= u <= 1)%Q.
Hypothesis Hround : roundsWithin u round.

Lemma round_bounds x :
  (0 <= x)%Q -> (x * (1 - u) <= round x)%Q /\ (round x <= x * (1 + u))%Q.
Proof.
  intros Hx. pose proof (Hround x) as H.
  rewrite (Qabs_pos x Hx) in H. apply Qabs_Qle_condition in H. split; lra.
Qed.

Lemma round_nonneg x : (0 <= x)%Q -> (0 <= round x)%Q.
Proof.
  intros Hx. destruct (round_bounds x Hx) as [H _].
  assert (0 <= x * (1 - u))%Q by (apply Qmult_le_0_compat; lra). lra.
Qed.

Lemma round_nonpos x : (x <= 0)%Q -> (round x <= 0)%Q.
Proof.
  intros Hx. pose proof (Hround x) as H.
  rewrite (Qabs_neg x Hx) in H. apply Qabs_Qle_condition in H.
  assert (0 <= - x * (1 - u))%Q by (apply Qmult_le_0_compat; lra). lra.
Qed.

(** [n] units pass the floor test for a remaining power [D] only when [D]
    is positive, and the power booked for them is at most [D] enlarged by
    five roundings. *)
Lemma booked_power_bound (D p : Q) (n : Z) :
  (0 < p)%Q -> 0 < n ->
  n <= Qfloor (round (round (round D * 1000000) / p)) ->
  (0 < D)%Q /\
  (0 <= round (round (inject_Z n * p) / 1000000))%Q /\
  (round (round (inject_Z n * p) / 1000000) <= D * (1 + u) ^ 5)%Q.
Proof.
  intros Hp Hn Hfit.
  set (E := (1 + u)%Q). assert (HE : (1 <= E)%Q) by (unfold E; lra).
  set (rem := round D) in *.
  set (a := round (rem * 1000000)) in *.
  set (b := round (a / p)) in *.
  assert (Hb : (inject_Z n <= b)%Q).
  { eapply Qle_trans; [| apply Qfloor_le]. now rewrite <- Zle_Qle. }
  assert (Hn1 : (1 <= inject_Z n)%Q) by (rewrite <- (Zle_Qle 1); lia).
  assert (HD : (0 < D)%Q).
  { apply Qnot_le_lt. intros HD.
    assert (Hrem : (rem <= 0)%Q) by now apply round_nonpos.
    assert (Ha : (a <= 0)%Q) by (apply round_nonpos; lra).
    assert (Hap : (a / p <= 0)%Q).
    { apply Qle_shift_div_r; [exact Hp | lra]. }
    assert (Hb0 : (b <= 0)%Q) by now apply round_nonpos.
    lra. }
  split; [exact HD |].
  destruct (round_bounds D (Qlt_le_weak _ _ HD)) as [_ Hrem].
  assert (Hrem0 : (0 <= rem)%Q) by (apply round_nonneg; lra).
  destruct (round_bounds (rem * 1000000)) as [_ Ha]; [lra |]. fold a in Ha.
  assert (Ha0 : (0 <= a)%Q) by (apply round_nonneg; lra).
  assert (Hap0 : (0 <= a / p)%Q).
  { apply Qle_shift_div_l; [exact Hp | lra]. }
  destruct (round_bounds (a / p) Hap0) as [_ Hb']. fold b in Hb'.
  set (c := round (inject_Z n * p)).
  assert (Hnp0 : (0 <= inject_Z n * p)%Q) by (apply Qmult_le_0_compat; lra).
  destruct (round_bounds (inject_Z n * p) Hnp0) as [_ Hc]. fold c in Hc.
  assert (Hc0 : (0 <= c)%Q) by now apply round_nonneg.
  assert (Hc6 : (0 <= c / 1000000)%Q) by (apply Qle_shift_div_l; [reflexivity | lra]).
  destruct (round_bounds (c / 1000000) Hc6) as [_ Hd].
  split; [now apply round_nonneg |].
  fold E in Hrem, Ha, Hb', Hc, Hd.
  (* n * p <= a * E *)
  assert (H1 : (inject_Z n * p <= a * E)%Q).
  { assert (H : (inject_Z n <= a / p * E)%Q) by lra.
    apply (Qmult_le_compat_r _ _ p) in H; [| lra].
    assert (Eq : (a / p * E * p == a * E)%Q) by (field; lra).
    rewrite Eq in H. exact H. }
  assert (H2 : (a * E <= D * 1000000 * E ^ 3)%Q).
  { assert (Hx : (a <= D * E * 1000000 * E)%Q).
    { eapply Qle_trans; [exact Ha |].
      apply Qmult_le_compat_r; [| lra]. apply Qmult_le_compat_r; [exact Hrem | lra]. }
    apply (Qmult_le_compat_r _ _ E) in Hx; [| lra].
    assert (Eq : (D * E * 1000000 * E * E == D * 1000000 * E ^ 3)%Q) by (simpl; ring).
    rewrite Eq in Hx. exact Hx. }
  assert (H3 : (c <= D * 1000000 * E ^ 4)%Q).
  { eapply Qle_trans; [exact Hc |].
    assert (Hx : (inject_Z n * p * E <= D * 1000000 * E ^ 3 * E)%Q)
      by (apply Qmult_le_compat_r; lra).
    assert (Eq : (D * 1000000 * E ^ 3 * E == D * 1000000 * E ^ 4)%Q) by (simpl; ring).
    rewrite Eq in Hx. exact Hx. }
  eapply Qle_trans; [exact Hd |].
  assert (Hx : (c / 1000000 <= D * E ^ 4)%Q).
  { apply Qle_shift_div_r; [reflexivity |].
    assert (Eq : (D * E ^ 4 * 1000000 == D * 1000000 * E ^ 4)%Q) by ring.
    rewrite Eq. exact H3. }
  apply (Qmult_le_compat_r _ _ E) in Hx; [| lra].
  assert (Eq : (D * E ^ 4 * E == D * E ^ 5)%Q) by (simpl; ring).
  rewrite Eq in Hx. exact Hx.
Qed.

End RoundingFacts.


(** With the identity for [round], the functions of [Rounded] are the ones
    that compute with exact rationals. *)
Lemma Rounded_exact :
  Rounded.initialTrancheStatus exact = initialTrancheStatus /\
  Rounded.allocateAssignment exact = allocateAssignment /\
  Rounded.runAllocation exact = runAllocation /\
  Rounded.calculateMinersFromMW exact = calculateMinersFromMW /\
  Rounded.calculateMWFromMiners exact = calculateMWFromMiners.
Proof. repeat split; reflexivity. Qed.

Lemma exact_error : roundsWithin 0 exact.
Proof.
  intros x. unfold exact.
  assert (E : (x - x == 0)%Q) by ring.
  assert (E' : (0 * Qabs x == 0)%Q) by ring.
  rewrite E, E'. exact (Qle_refl 0).
Qed.

(** [round64] returns what the binary64 operations of the kernel return, on
    the operations of the tranche of 9.6 MW below: the literals 9.6, 1.3365
    and 8.2635, the difference 9.6 - 1.3365 and the sum 1.3365 + 8.2635,
    which is above 9.6. *)
Example round64_agrees_with_binary64 :
  let f := KernelFloats.float_of_decimal in
  KernelFloats.Q_of_float (f 96 10) = round64 9.6 /\
  KernelFloats.Q_of_float (f 13365 10000) = round64 1.3365 /\
  KernelFloats.Q_of_float (f 82635 10000) = round64 8.2635 /\
  KernelFloats.Q_of_float (PrimFloat.sub (f 96 10) (f 13365 10000))
  = round64 (round64 9.6 - round64 1.3365) /\
  KernelFloats.Q_of_float (PrimFloat.add (f 13365 10000) (f 82635 10000))
  = round64 (round64 1.3365 + round64 8.2635) /\
  PrimFloat.ltb (f 96 10) (PrimFloat.add (f 13365 10000) (f 82635 10000)) = true.
Proof. cbv zeta. split; [| split; [| split; [| split; [| split]]]]; vm_compute; reflexivity. Qed.

(** ** 4.4 Power allocator: conservation *)

Lemma allocatedTotal_insert (m : gmap string Z) i x :
  allocatedTotal (<[i:=x]> m) = allocatedTotal m - default 0 (m !! i) + x.
Proof.
  unfold allocatedTotal.
  assert (Hcomm : forall z1 z2 y : Z, z1 + (z2 + y) = z2 + (z1 + y)) by (intros; lia).
  destruct (m !! i) as [old |] eqn:Hi; cbn [default from_option id].
  - rewrite <- (insert_delete_eq m i x).
    rewrite map_fold_insert_L; [| intros; apply Hcomm | apply lookup_delete_eq].
    rewrite (map_fold_delete_L _ _ i old m); [| intros; apply Hcomm | exact Hi].
    cbv beta. lia.
  - rewrite map_fold_insert_L; [| intros; apply Hcomm | exact Hi].
    cbv beta. lia.
Qed.

Lemma find_some_eqb {A} (key : A -> string) id l x :
  List.find (fun y => String.eqb (key y) id) l = Some x -> In x l /\ key x = id.
Proof.
  intros H. apply find_some in H as [Hin Heq].
  split; [exact Hin | now apply String.eqb_eq].
Qed.

Lemma differenceInMonths_nonneg l r :
  isBefore l r = false -> 0 <= differenceInMonths l r.
Proof.
  unfold isBefore, differenceInMonths. intros Hb.
  destruct (Z.abs (differenceInCalendarMonths l r) <? 1) eqn:Hd; [lia |].
  apply Z.ltb_ge in Hd.
  destruct (compareAsc l r); [cbn [sign_of]; lia | discriminate |].
  cbn [sign_of]. destruct (sign_of _ =? - (1)); lia.
Qed.

Section Allocation.

Variable round : Q -> Q.
Variable u : Q.
Hypothesis Hu : (0 <= u <= 1)%Q.
Hypothesis Hround : roundsWithin u round.

Variable ctx : CalculationContext.
Variable fleetStatuses : list MonthlyFleetStatus.
Hypothesis Hmodels : positivePowerDraw ctx.

Let tolerance : Q := ((1 + u) ^ 6)%Q.

(** What one iteration of the inner loop preserves. *)
Lemma allocateAssignment_step t m a t' m' :
  Rounded.allocateAssignment round ctx fleetStatuses (t, m) a = (t', m') ->
  withinActive fleetStatuses m -> withinBudget tolerance t ->
  withinActive fleetStatuses m' /\ withinBudget tolerance t' /\
  ts_siteId t' = ts_siteId t /\ ts_trancheId t' = ts_trancheId t /\
  availablePowerMW t' = availablePowerMW t /\
  allocatedMiners t' - allocatedMiners t = allocatedTotal m' - allocatedTotal m.
Proof.
  intros Hstep Hact Hbud.
  assert (Hsame : (t', m') = (t, m) ->
                  withinActive fleetStatuses m' /\ withinBudget tolerance t' /\
                  ts_siteId t' = ts_siteId t /\ ts_trancheId t' = ts_trancheId t /\
                  availablePowerMW t' = availablePowerMW t /\
                  allocatedMiners t' - allocatedMiners t
                  = allocatedTotal m' - allocatedTotal m).
  { intros [= -> ->].
    split; [assumption | split; [assumption | repeat split; lia]]. }
  unfold Rounded.allocateAssignment in Hstep.
  destruct (statusOf fleetStatuses (fleetId a)) as [st |] eqn:Hst; [| now apply Hsame].
  destruct (activeMiners st =? 0); [now apply Hsame |].
  destruct (findFleet ctx (fleetId a)) as [fleet |] eqn:Hfleet; [| now apply Hsame].
  destruct (findModel ctx (modelId fleet)) as [model |] eqn:Hmodel; [| now apply Hsame].
  apply find_some_eqb in Hfleet as [_ Hkey].
  apply find_some_eqb in Hmodel as [Hmodel_in _].
  assert (Hpw : (0 < powerW model)%Q).
  { unfold positivePowerDraw in Hmodels. rewrite List.Forall_forall in Hmodels.
    now apply Hmodels. }
  cbv zeta in Hstep.
  set (already := default 0 (m !! fleet_id fleet)) in *.
  set (D := (availablePowerMW t - powerUsedMW t)%Q) in *.
  set (fit := Qfloor (round (round (round D * 1000000) / powerW model))) in *.
  destruct (activeMiners st - already <=? 0) eqn:Havail; [now apply Hsame |].
  apply Z.leb_gt in Havail.
  destruct (0 <? Z.min (activeMiners st - already) fit) eqn:Hk; [| now apply Hsame].
  apply Z.ltb_lt in Hk.
  set (k := Z.min (activeMiners st - already) fit) in *.
  injection Hstep as <- <-. clear Hsame.
  unfold withinBudget.
  cbn [ts_siteId ts_trancheId availablePowerMW allocatedMiners powerUsedMW].
  assert (Halready : 0 <= already).
  { unfold already.
    destruct (m !! fleet_id fleet) as [n |] eqn:Hn; cbn [default from_option id]; [| lia].
    destruct (Hact _ _ Hn). lia. }
  destruct Hbud as (Halloc & Hused & Hpower).
  split; [| split; [split; [| split] |]]; [| | | | repeat split; try reflexivity].
  - (* the map *)
    intros f n Hf.
    destruct (decide (fleet_id fleet = f)) as [<- | Hne].
    + rewrite lookup_insert_eq in Hf. injection Hf as <-.
      split; [lia |]. exists st. rewrite Hkey. split; [exact Hst | lia].
    + rewrite lookup_insert_ne in Hf by exact Hne. now apply Hact.
  - lia.
  - (* the power used is not negative *)
    destruct (booked_power_bound round u Hu Hround D (powerW model) k Hpw Hk)
      as (_ & Hd0 & _); [fold fit; lia |].
    apply (round_nonneg round u Hu Hround). lra.
  - (* the power budget *)
    destruct (booked_power_bound round u Hu Hround D (powerW model) k Hpw Hk)
      as (HD & Hd0 & Hd); [fold fit; lia |].
    set (d := round (round (inject_Z k * powerW model) / 1000000)) in *.
    set (E := (1 + u)%Q) in *.
    assert (HE : (1 <= E)%Q) by (unfold E; lra).
    assert (HE5 : (1 <= E ^ 5)%Q) by (apply Qpower_1_le; [exact HE | lia]).
    destruct (round_bounds round u Hround (powerUsedMW t + d)) as [_ Hr]; [lra |].
    fold E in Hr. eapply Qle_trans; [exact Hr |].
    assert (Hx : (powerUsedMW t + d <= availablePowerMW t * E ^ 5)%Q).
    { assert (H1 : (0 <= powerUsedMW t * (E ^ 5 - 1))%Q)
        by (apply Qmult_le_0_compat; lra).
      unfold D in Hd.
      set (e5 := (E ^ 5)%Q) in *. 
      assert (H2 : ((availablePowerMW t - powerUsedMW t) * e5
                    == availablePowerMW t * e5 - powerUsedMW t * e5)%Q) by ring.
      assert (H3 : (powerUsedMW t * (e5 - 1) == powerUsedMW t * e5 - powerUsedMW t)%Q)
        by ring.
      lra. }
    apply (Qmult_le_compat_r _ _ E) in Hx; [| lra].
    assert (Eq : (availablePowerMW t * E ^ 5 * E == availablePowerMW t * tolerance)%Q)
      by (unfold tolerance; fold E; simpl; ring).
    rewrite Eq in Hx. exact Hx.
  - rewrite allocatedTotal_insert. fold already. lia.
Qed.


Lemma allocateAssignments_fold l : forall t m t' m',
  fold_left (Rounded.allocateAssignment round ctx fleetStatuses) l (t, m) = (t', m') ->
  withinActive fleetStatuses m -> withinBudget tolerance t ->
  withinActive fleetStatuses m' /\ withinBudget tolerance t' /\
  ts_siteId t' = ts_siteId t /\ ts_trancheId t' = ts_trancheId t /\
  availablePowerMW t' = availablePowerMW t /\
  allocatedMiners t' - allocatedMiners t = allocatedTotal m' - allocatedTotal m.
Proof.
  induction l as [| a l IH]; intros t m t' m' Hfold Hact Hbud; cbn [fold_left] in Hfold.
  - injection Hfold as <- <-.
    split; [assumption | split; [assumption | repeat split; lia]].
  - destruct (Rounded.allocateAssignment round ctx fleetStatuses (t, m) a)
      as [t1 m1] eqn:Hstep.
    apply allocateAssignment_step in Hstep as (Ha1 & Hb1 & Hs1 & Ht1 & Hp1 & Hd1);
      [| assumption..].
    apply IH in Hfold as (Ha2 & Hb2 & Hs2 & Ht2 & Hp2 & Hd2); [| assumption..].
    split; [assumption | split; [assumption |]].
    repeat split; try congruence; lia.
Qed.

Lemma allocateTranches_spec l : forall m l' m',
  Rounded.allocateTranches round ctx fleetStatuses l m = (l', m') ->
  withinActive fleetStatuses m -> Forall (withinBudget tolerance) l ->
  withinActive fleetStatuses m' /\ Forall (withinBudget tolerance) l' /\
  Forall2 (fun t t' => ts_siteId t' = ts_siteId t /\ ts_trancheId t' = ts_trancheId t /\
                       availablePowerMW t' = availablePowerMW t) l l' /\
  sumZ allocatedMiners l' - sumZ allocatedMiners l = allocatedTotal m' - allocatedTotal m.
Proof.
  induction l as [| t l IH]; intros m l' m' Hrun Hact Hbud; cbn in Hrun.
  - injection Hrun as <- <-.
    split; [assumption | split; [assumption | split; [constructor | lia]]].
  - destruct (Rounded.allocateTranche round ctx fleetStatuses m t) as [t1 m1] eqn:Hstep.
    destruct (Rounded.allocateTranches round ctx fleetStatuses l m1) as [l2 m2] eqn:Hrest.
    injection Hrun as <- <-.
    inversion Hbud as [| ? ? Hbt Hbl]; subst.
    unfold Rounded.allocateTranche in Hstep.
    apply allocateAssignments_fold in Hstep as (Ha1 & Hb1 & Hs1 & Ht1 & Hp1 & Hd1);
      [| assumption..].
    apply IH in Hrest as (Ha2 & Hb2 & Hf2 & Hd2); [| assumption..].
    split; [assumption | split; [| split]].
    + now constructor.
    + constructor; [now repeat split | assumption].
    + rewrite !sumZ_cons. lia.
Qed.

Lemma initialTrancheStatus_budget month site tranche :
  (0 <= powerMW tranche)%Q ->
  Forall (fun t => withinBudget tolerance t /\ allocatedMiners t = 0)
         (Rounded.initialTrancheStatus round month site tranche).
Proof.
  intros Hpower. unfold Rounded.initialTrancheStatus.
  destruct (isBefore month (tranche_startDate tranche)) eqn:Hb; constructor; [| constructor].
  pose proof (differenceInMonths_nonneg _ _ Hb) as Hm.
  unfold withinBudget. cbn [allocatedMiners powerUsedMW availablePowerMW].
  assert (Htol : (0 <= tolerance)%Q).
  { unfold tolerance. apply Qpower_0_le. lra. }
  split; [| reflexivity]. split; [lia |]. split; [lra |].
  apply Qmult_le_0_compat; [| exact Htol].
  destruct (_ <? rampUpMonths tranche); [| exact Hpower].
  apply (round_nonneg round u Hu Hround).
  apply Qmult_le_0_compat; [exact Hpower |].
  destruct (0 <? rampUpMonths tranche) eqn:Hr; [| lra].
  apply Z.ltb_lt in Hr. apply (round_nonneg round u Hu Hround).
  apply Qle_shift_div_l.
  - now rewrite <- (Zlt_Qlt 0).
  - rewrite Qmult_0_l. rewrite <- (Zle_Qle 0). lia.
Qed.

Lemma activeTranches_budget month :
  nonNegativeCapacity ctx ->
  Forall (fun t => withinBudget tolerance t /\ allocatedMiners t = 0)
         (Rounded.activeTranches round month ctx).
Proof.
  unfold nonNegativeCapacity, Rounded.activeTranches. intros Hcap.
  apply List.Forall_forall. intros t Ht.
  apply in_flat_map in Ht as [site [Hsite Ht]].
  apply in_flat_map in Ht as [tranche [Htranche Ht]].
  rewrite List.Forall_forall in Hcap. specialize (Hcap site Hsite).
  rewrite List.Forall_forall in Hcap. specialize (Hcap tranche Htranche).
  pose proof (initialTrancheStatus_budget month site tranche Hcap) as H.
  rewrite List.Forall_forall in H. now apply H.
Qed.

End Allocation.

Lemma insertTranche_Forall (P : MonthlyTrancheStatus -> Prop) ctx x l :
  P x -> Forall P l -> Forall P (insertTranche ctx x l).
Proof.
  intros Hx. induction l as [| y l IH]; intros Hl; cbn.
  - now constructor.
  - inversion Hl; subst.
    destruct (compareTrancheStart ctx x y); repeat constructor; auto.
Qed.

Lemma sortTranches_Forall (P : MonthlyTrancheStatus -> Prop) ctx l :
  Forall P l -> Forall P (sortTranches ctx l).
Proof.
  unfold sortTranches. induction 1; cbn [fold_right]; [constructor |].
  now apply insertTranche_Forall.
Qed.

(** C5 (amended): in every month, whatever statuses the fleets have, for
    input whose hardware models draw power and whose tranches have a capacity
    that is not negative, and for arithmetic whose every operation has a
    relative error of at most [u]: a fleet with units allocated has a
    positive number of them, summed over all tranches at most the active
    units of its status; the units recorded per fleet add up to the units
    allocated over all tranches; every tranche has a number of units that is
    not negative and uses at most its ramp-up-adjusted available power
    enlarged by six roundings, [(1 + u)^6]; and without rounding ([u = 0])
    it uses at most the available power itself. *)
Theorem allocation_conservation :
  forall (round : Q -> Q) (u : Q) (month : Date) (ctx : CalculationContext)
         (fleetStatuses : list MonthlyFleetStatus),
    (0 <= u <= 1)%Q -> roundsWithin u round ->
    positivePowerDraw ctx -> nonNegativeCapacity ctx ->
    let trancheStatuses := Rounded.allocateFleetsToTranches round month ctx fleetStatuses in
    let allocated := Rounded.allocatedFleetsAfter round month ctx fleetStatuses in
    (forall (id : string) (n : Z),
        allocated !! id = Some n ->
        0 < n /\
        exists st, statusOf fleetStatuses id = Some st /\ n <= activeMiners st) /\
    sumZ allocatedMiners trancheStatuses = allocatedTotal allocated /\
    Forall (fun t => 0 <= allocatedMiners t /\
                     (powerUsedMW t <= availablePowerMW t * (1 + u) ^ 6)%Q)
           trancheStatuses /\
    ((u == 0)%Q ->
     Forall (fun t => (powerUsedMW t <= availablePowerMW t)%Q) trancheStatuses).
Proof.
  intros round u month ctx fleetStatuses Hu Hround Hmodels Hcap trancheStatuses allocated.
  subst trancheStatuses allocated.
  unfold Rounded.allocateFleetsToTranches, Rounded.allocatedFleetsAfter,
    Rounded.runAllocation.
  destruct (Rounded.allocateTranches
              round ctx fleetStatuses
              (sortTranches ctx (Rounded.activeTranches round month ctx)) ∅)
    as [l' m'] eqn:Hrun.
  cbn [fst snd].
  pose proof (activeTranches_budget round u Hu Hround ctx month Hcap) as Hinit.
  apply (sortTranches_Forall _ ctx) in Hinit.
  apply (allocateTranches_spec round u Hu Hround ctx fleetStatuses Hmodels) in Hrun
    as (Hact & Hbud & Hsame & Hsum).
  - assert (Hbound : Forall (fun t => 0 <= allocatedMiners t /\
                                      (powerUsedMW t <= availablePowerMW t * (1 + u) ^ 6)%Q)
                            l').
    { eapply List.Forall_impl; [| exact Hbud].
      intros t (H1 & _ & H3). split; [exact H1 | exact H3]. }
    split; [exact Hact | split; [| split; [exact Hbound |]]].
    + assert (Hzero : sumZ allocatedMiners
                           (sortTranches ctx (Rounded.activeTranches round month ctx)) = 0).
      { apply sumZ_zero. eapply List.Forall_impl; [| exact Hinit]. now intros t [_ H]. }
      rewrite Hzero in Hsum.
      assert (Hempty : allocatedTotal ∅ = 0) by reflexivity.
      rewrite Hempty in Hsum. lia.
    + intros Hu0. eapply List.Forall_impl; [| exact Hbound].
      intros t [_ H].
      assert (E : ((1 + u) ^ 6 == 1)%Q) by (rewrite Hu0; reflexivity).
      rewrite E in H. lra.
  - intros f n Hf. rewrite lookup_empty in Hf. discriminate.
  - eapply List.Forall_impl; [| exact Hinit]. now intros t [H _].
Qed.

Lemma allocation_conservation_witness :
  (0 <= unitRoundoff64 <= 1)%Q /\ roundsWithin unitRoundoff64 round64 /\
  positivePowerDraw ex_ctx_9_6 /\ nonNegativeCapacity ex_ctx_9_6 /\
  Forall (fun t => 0 <= allocatedMiners t /\
                   (powerUsedMW t <= availablePowerMW t * (1 + unitRoundoff64) ^ 6)%Q)
         (Rounded.allocateFleetsToTranches round64 (mkDate 2024 2 1) ex_ctx_9_6
                                           ex_statuses_9_6).
Proof.
  assert (H0 : (0 <= unitRoundoff64 <= 1)%Q) by (split; vm_compute; discriminate).
  assert (H1 : positivePowerDraw ex_ctx_9_6) by (repeat constructor).
  assert (H2 : nonNegativeCapacity ex_ctx_9_6)
    by (repeat constructor; vm_compute; discriminate).
  split; [exact H0 | split; [exact round64_error | split; [exact H1 | split; [exact H2 |]]]].
  exact (proj1 (proj2 (proj2 (allocation_conservation
                                round64 unitRoundoff64 (mkDate 2024 2 1) ex_ctx_9_6
                                ex_statuses_9_6 H0 round64_error H1 H2)))).
Defined.

(** C5 (counterexample): in binary64, the tranche of 9.6 MW takes the 250
    units of 5346 W (1.3365 MW), then 2361 units of 3500 W (8.2635 MW), and
    ends with [powerUsedMW] 9.600000000000001, above its [availablePowerMW]
    9.6. *)
Lemma allocation_exceeds_budget_in_binary64 :
  ~ Forall (fun t => (powerUsedMW t <= availablePowerMW t)%Q)
           (Rounded.allocateFleetsToTranches round64 (mkDate 2024 2 1) ex_ctx_9_6
                                             ex_statuses_9_6).
Proof.
  intros H.
  assert (Hl : map (fun t => (allocatedMiners t,
                              Qcompare (powerUsedMW t) (availablePowerMW t)))
                   (Rounded.allocateFleetsToTranches round64 (mkDate 2024 2 1) ex_ctx_9_6
                                                     ex_statuses_9_6)
               = [(2611, Gt)]) by (vm_compute; reflexivity).
  destruct (Rounded.allocateFleetsToTranches round64 (mkDate 2024 2 1) ex_ctx_9_6
                                             ex_statuses_9_6) as [| t l];
    [discriminate Hl |].
  inversion H as [| ? ? Hle _]; subst.
  cbn [map] in Hl. injection Hl as _ Hgt _.
  apply Qgt_alt in Hgt. lra.
Qed.

(** ** 4.4 Power allocator: the order of the fleets of a site *)

(** The allocator never reads the priority of an assignment. *)
Lemma allocateAssignment_ignores_priority ctx fleetStatuses st a p :
  allocateAssignment ctx fleetStatuses st (mkAssignment (fleetId a) (siteId a) p) =
  allocateAssignment ctx fleetStatuses st a.
Proof. reflexivity. Qed.

(** C1 (failing input): with the assignments supplied as [fleet-B (priority 1);
    fleet-A (priority 0)], the one-megawatt tranche takes its 332 units from
    fleet-B and none from fleet-A; supplied the other way round, it takes
    them from fleet-A. *)
Lemma allocation_follows_supplied_order :
  let month := mkDate 2024 2 1 in
  let run assignments :=
      allocatedFleetsAfter
        month (ex_ctx_priority assignments)
        (calculateFleetStatuses exp_taylor month (ex_ctx_priority assignments)) in
  run [ex_assignment_B; ex_assignment_A] !! "fleet-A" = None /\
  run [ex_assignment_B; ex_assignment_A] !! "fleet-B" = Some 332 /\
  run [ex_assignment_A; ex_assignment_B] !! "fleet-A" = Some 332 /\
  run [ex_assignment_A; ex_assignment_B] !! "fleet-B" = None.
Proof. cbv zeta. split; [| split; [| split]]; vm_compute; reflexivity. Qed.

(** ** 4.2 Failure model: the shape of the curve *)

Module RealCurveFacts.
Import Stdlib.Reals.Reals Stdlib.micromega.Lra.
Import RealCurve.
Local Open Scope R_scope.

(** Between 0 and the lifespan the rate is the scaled Weibull value. *)
Lemma rate_inside a L :
  0 < a -> a < L ->
  calculateCumulativeFailureRate a L
  = (1 - exp (- ((a / L / 0.98) ^ 10))) * 0.95.
Proof.
  intros Ha HL. unfold calculateCumulativeFailureRate, FAILURE_SCALE, FAILURE_SHAPE.
  destruct (Rle_dec a 0); [lra |].
  destruct (Rge_dec a L); [lra |].
  cbv zeta. apply Rmin_left.
  pose proof (exp_pos (- (a / L / 0.98) ^ 10)). lra.
Qed.

(** [x / (1 + x) < 1 - exp (- x) < x] for positive [x]. *)
Lemma one_minus_exp_bounds x :
  0 < x -> x / (1 + x) < 1 - exp (- x) < x.
Proof.
  intros Hx.
  assert (H1 : 1 + x < exp x) by (apply exp_ineq1; lra).
  assert (H2 : 1 + - x < exp (- x)) by (apply exp_ineq1; lra).
  split; [| lra].
  rewrite exp_Ropp.
  assert (H3 : / exp x < / (1 + x)) by (apply Rinv_lt_contravar; [nra | exact H1]).
  assert (H4 : x / (1 + x) = 1 - / (1 + x)) by (field; lra).
  lra.
Qed.

Lemma rate_at_fraction q L :
  0 < q < 1 -> 0 < L ->
  calculateCumulativeFailureRate (q * L) L
  = (1 - exp (- ((q / 0.98) ^ 10))) * 0.95.
Proof.
  intros Hq HL. rewrite rate_inside by nra.
  replace (q * L / L / 0.98) with (q / 0.98) by (field; lra).
  reflexivity.
Qed.

Lemma quotient_lower a x : 0 < 1 + x -> a * (1 + x) < x -> a < x / (1 + x).
Proof.
  intros Hx H. apply (Rmult_lt_reg_r (1 + x)); [exact Hx |].
  replace (x / (1 + x) * (1 + x)) with x by (field; lra). exact H.
Qed.

(** The curve at 80% and at 95% of any lifespan. *)
Lemma curve_at_80_and_95_percent L :
  0 < L ->
  0.10 < calculateCumulativeFailureRate (0.8 * L) L < 0.13 /\
  0.40 < calculateCumulativeFailureRate (0.95 * L) L < 0.70.
Proof.
  intros HL. rewrite !rate_at_fraction by lra.
  assert (H80 : 0.13 < (0.8 / 0.98) ^ 10 < 0.132) by lra.
  assert (H95 : 0.73 < (0.95 / 0.98) ^ 10 < 0.733) by lra.
  pose proof (one_minus_exp_bounds ((0.8 / 0.98) ^ 10) ltac:(lra)) as [B1 B2].
  pose proof (one_minus_exp_bounds ((0.95 / 0.98) ^ 10) ltac:(lra)) as [B3 B4].
  assert (D1 : 0.115 < (0.8 / 0.98) ^ 10 / (1 + (0.8 / 0.98) ^ 10))
    by (apply quotient_lower; lra).
  assert (D2 : 0.42 < (0.95 / 0.98) ^ 10 / (1 + (0.95 / 0.98) ^ 10))
    by (apply quotient_lower; lra).
  lra.
Qed.

(** C2 (failing input): for a five-year lifespan the cumulative failure
    fraction at 48 of 60 months, 80% of the lifespan, is above 0.10, not
    below 0.05. *)
Lemma failure_curve_exceeds_5_percent_at_80_percent :
  0.10 < calculateCumulativeFailureRate 48 60.
Proof.
  replace 48 with (0.8 * 60) by lra.
  rewrite rate_at_fraction by lra.
  assert (H80 : 0.13 < (0.8 / 0.98) ^ 10 < 0.132) by lra.
  pose proof (one_minus_exp_bounds ((0.8 / 0.98) ^ 10) ltac:(lra)) as [B1 _].
  assert (D1 : 0.115 < (0.8 / 0.98) ^ 10 / (1 + (0.8 / 0.98) ^ 10))
    by (apply quotient_lower; lra).
  lra.
Qed.

Lemma rate_range :
  forall a L : R,
    0 <= calculateCumulativeFailureRate a L <= 0.95 /\
    (a <= 0 -> calculateCumulativeFailureRate a L = 0) /\
    (0 < a -> L <= a -> calculateCumulativeFailureRate a L = 0.95).
Proof.
  intros a L. unfold calculateCumulativeFailureRate, FAILURE_SCALE, FAILURE_SHAPE.
  destruct (Rle_dec a 0) as [H0 | H0].
  - split; [lra |]. split; [reflexivity | lra].
  - destruct (Rge_dec a L) as [HL | HL].
    + split; [lra |]. split; [lra | reflexivity].
    + cbv zeta. split; [| split; lra].
      assert (Hx : 0 <= (a / L / 0.98) ^ 10).
      { replace 10%nat with (2 * 5)%nat by reflexivity. rewrite pow_mult.
        apply pow_le. apply pow2_ge_0. }
      assert (He : exp (- (a / L / 0.98) ^ 10) <= 1).
      { destruct Hx as [Hx | <-].
        - rewrite <- exp_0. left. apply exp_increasing. lra.
        - rewrite Ropp_0, exp_0. lra. }
      pose proof (exp_pos (- (a / L / 0.98) ^ 10)).
      split.
      * apply Rmin_glb; lra.
      * apply Rmin_r.
Qed.

Lemma rate_monotone :
  forall a1 a2 L : R,
    a1 <= a2 ->
    calculateCumulativeFailureRate a1 L <= calculateCumulativeFailureRate a2 L.
Proof.
  intros a1 a2 L Hle.
  destruct (Rle_dec a1 0) as [H1 | H1].
  - rewrite (proj1 (proj2 (rate_range a1 L)) H1).
    apply (rate_range a2 L).
  - destruct (Rle_dec L a2) as [H2 | H2].
    + rewrite (proj2 (proj2 (rate_range a2 L))) by lra.
      apply (rate_range a1 L).
    + rewrite !rate_inside by lra.
      assert (HL : 0 < L) by lra.
      assert (Hs : 0 <= a1 / L / 0.98 <= a2 / L / 0.98).
      { split.
        - apply Rlt_le.
          apply Rdiv_lt_0_compat; [apply Rdiv_lt_0_compat; lra | lra].
        - apply Rmult_le_compat_r; [lra |].
          apply Rmult_le_compat_r; [| exact Hle].
          apply Rlt_le. now apply Rinv_0_lt_compat. }
      pose proof (pow_incr _ _ 10 Hs) as Hp.
      assert (He : exp (- (a2 / L / 0.98) ^ 10) <= exp (- (a1 / L / 0.98) ^ 10)).
      { destruct Hp as [Hp | Hp].
        - left. apply exp_increasing. lra.
        - rewrite Hp. lra. }
      lra.
Qed.

(** The fraction is 0 up to age 0, 0.95 from the lifespan on, and stays
    within [0, 0.95] in between, for any arguments. *)
Theorem failure_rate_range :
  forall a L : R,
    0 <= calculateCumulativeFailureRate a L <= 0.95 /\
    (a <= 0 -> calculateCumulativeFailureRate a L = 0) /\
    (0 < a -> L <= a -> calculateCumulativeFailureRate a L = 0.95).
Proof. exact rate_range. Qed.

(** For a fixed lifespan the fraction never decreases with age. *)
Theorem failure_rate_monotone :
  forall a1 a2 L : R,
    a1 <= a2 ->
    calculateCumulativeFailureRate a1 L <= calculateCumulativeFailureRate a2 L.
Proof. exact rate_monotone. Qed.

Lemma failure_rate_monotone_witness :
  12 <= 48 /\
  calculateCumulativeFailureRate 12 60 <= calculateCumulativeFailureRate 48 60.
Proof.
  assert (H : 12 <= 48) by lra.
  split; [exact H |].
  exact (failure_rate_monotone 12 48 60 H).
Defined.

(** With the constants of the source (shape 10, scale 0.98), for every
    lifespan: under 5% of the units have failed up to 70% of the lifespan,
    between 10% and 13% at 80%, and between 40% and 70% at 95%. *)
Theorem failure_curve_shape :
  forall L : R,
    0 < L ->
    (forall a, a <= 0.7 * L -> calculateCumulativeFailureRate a L < 0.05) /\
    0.10 < calculateCumulativeFailureRate (0.8 * L) L < 0.13 /\
    0.40 < calculateCumulativeFailureRate (0.95 * L) L < 0.70.
Proof.
  intros L HL. split; [| now apply curve_at_80_and_95_percent].
  intros a Ha.
  apply Rle_lt_trans with (calculateCumulativeFailureRate (0.7 * L) L).
  - now apply rate_monotone.
  - rewrite rate_at_fraction by lra.
    assert (H70 : 0 < (0.7 / 0.98) ^ 10 < 0.035) by lra.
    pose proof (one_minus_exp_bounds ((0.7 / 0.98) ^ 10) ltac:(lra)) as [_ B].
    lra.
Qed.

Lemma failure_curve_shape_witness :
  0 < 60 /\ 0.40 < calculateCumulativeFailureRate (0.95 * 60) 60 < 0.70.
Proof.
  assert (H : 0 < 60) by lra.
  split; [exact H |].
  exact (proj2 (proj2 (failure_curve_shape 60 H))).
Defined.

End RealCurveFacts.

(** ** The allocator keeps the tranches it is given *)

Lemma allocateAssignment_same ctx fs t m a :
  sameTranche t (fst (allocateAssignment ctx fs (t, m) a)).
Proof.
  unfold allocateAssignment, sameTranche.
  destruct (statusOf fs (fleetId a)) as [st |]; [| now cbn].
  destruct (activeMiners st =? 0); [now cbn |].
  destruct (findFleet ctx (fleetId a)) as [fleet |]; [| now cbn].
  destruct (findModel ctx (modelId fleet)) as [model |]; [| now cbn].
  cbv zeta.
  destruct (_ <=? 0); [now cbn |].
  destruct (0 <? _); now cbn.
Qed.

Lemma sameTranche_trans t1 t2 t3 :
  sameTranche t1 t2 -> sameTranche t2 t3 -> sameTranche t1 t3.
Proof. unfold sameTranche. intuition congruence. Qed.

Lemma allocateTranche_same ctx fs m t :
  sameTranche t (fst (allocateTranche ctx fs m t)).
Proof.
  unfold allocateTranche.
  generalize (List.filter (fun a => String.eqb (siteId a) (ts_siteId t))
                          (fleetAssignments ctx)).
  intros l.
  assert (H : forall t0 m0, sameTranche t t0 ->
                            sameTranche t (fst (fold_left (allocateAssignment ctx fs)
                                                          l (t0, m0)))).
  { induction l as [| a l IH]; intros t0 m0 H0; cbn [fold_left]; [exact H0 |].
    destruct (allocateAssignment ctx fs (t0, m0) a) as [t1 m1] eqn:E.
    apply IH. eapply sameTranche_trans; [exact H0 |].
    pose proof (allocateAssignment_same ctx fs t0 m0 a) as H1.
    now rewrite E in H1. }
  apply H. now unfold sameTranche.
Qed.

Lemma allocateTranches_same ctx fs l : forall m,
  Forall2 sameTranche l (fst (allocateTranches ctx fs l m)).
Proof.
  induction l as [| t l IH]; intros m; cbn; [constructor |].
  pose proof (allocateTranche_same ctx fs m t) as Ht.
  destruct (allocateTranche ctx fs m t) as [t1 m1].
  specialize (IH m1).
  destruct (allocateTranches ctx fs l m1) as [l2 m2].
  cbn [fst] in *. now constructor.
Qed.

Lemma insertTranche_perm ctx x l : Permutation (x :: l) (insertTranche ctx x l).
Proof.
  induction l as [| y l IH]; cbn; [reflexivity |].
  destruct (compareTrancheStart ctx x y); try reflexivity.
  rewrite perm_swap. now constructor.
Qed.

Lemma sortTranches_perm ctx l : Permutation l (sortTranches ctx l).
Proof.
  unfold sortTranches. induction l as [| x l IH]; cbn [fold_right]; [reflexivity |].
  rewrite <- insertTranche_perm. now constructor.
Qed.

(** A status of the result belongs to a site exactly when one of the
    tranches that started belongs to it. *)
Lemma allocated_site_iff month ctx fs (id : string) :
  (exists t, In t (allocateFleetsToTranches month ctx fs) /\ ts_siteId t = id) <->
  (exists t, In t (activeTranches month ctx) /\ ts_siteId t = id).
Proof.
  unfold allocateFleetsToTranches, runAllocation.
  pose proof (allocateTranches_same ctx fs (sortTranches ctx (activeTranches month ctx)) ∅)
    as Hsame.
  pose proof (sortTranches_perm ctx (activeTranches month ctx)) as Hperm.
  revert Hsame.
  generalize (fst (allocateTranches ctx fs (sortTranches ctx (activeTranches month ctx)) ∅)).
  intros out Hsame. split.
  - intros [t' [Hin Hid]].
    assert (H : exists t, In t (sortTranches ctx (activeTranches month ctx))
                          /\ ts_siteId t = id).
    { clear Hperm. induction Hsame as [| t0 t0' l l' H0 _ IH]; [destruct Hin |].
      destruct Hin as [-> | Hin].
      - exists t0. split; [now left |]. destruct H0 as [H0 _]. congruence.
      - destruct (IH Hin) as [t [Ht Htid]]. exists t. split; [now right | exact Htid]. }
    destruct H as [t [Ht Htid]]. exists t. split; [| exact Htid].
    eapply Permutation_in; [symmetry; exact Hperm | exact Ht].
  - intros [t [Hin Hid]].
    apply (Permutation_in _ Hperm) in Hin.
    clear Hperm. induction Hsame as [| t0 t0' l l' H0 _ IH]; [destruct Hin |].
    destruct Hin as [-> | Hin].
    + exists t0'. split; [now left |]. destruct H0 as [H0 _]. congruence.
    + destruct (IH Hin) as [t' [Ht' Htid]]. exists t'. split; [now right | exact Htid].
Qed.

(** ** 4.6 Hardware depreciation *)

Lemma calculateMinerDepreciation_sum month site ctx :
  (calculateMinerDepreciation month site ctx ==
   sumQ (assignmentShare month ctx)
        (List.filter (fun a => String.eqb (siteId a) site) (fleetAssignments ctx)))%Q.
Proof.
  unfold calculateMinerDepreciation.
  generalize (List.filter (fun a => String.eqb (siteId a) site) (fleetAssignments ctx)).
  intros l.
  assert (H : forall acc,
             (fold_left
                (fun totalDepreciation assignment =>
                   match assignmentDepreciation month ctx assignment with
                   | Some monthlyDepreciation => totalDepreciation + monthlyDepreciation
                   | None => totalDepreciation
                   end) l acc
              == acc + sumQ (assignmentShare month ctx) l)%Q).
  { induction l as [| a l IH]; intros acc; cbn [fold_left].
    - rewrite sumQ_nil. ring.
    - rewrite IH, sumQ_cons. unfold assignmentShare.
      destruct (assignmentDepreciation month ctx a); ring. }
  rewrite H. ring.
Qed.

Lemma siteIsLive_spec month ctx fs site :
  siteIsLive month ctx site = true <->
  List.filter (fun t => String.eqb (ts_siteId t) (site_id site))
              (allocateFleetsToTranches month ctx fs) <> [].
Proof.
  unfold siteIsLive. rewrite existsb_exists.
  assert (Hiff : (exists t, In t (activeTranches month ctx)
                            /\ String.eqb (ts_siteId t) (site_id site) = true)
                 <-> exists t, In t (allocateFleetsToTranches month ctx fs)
                               /\ ts_siteId t = site_id site).
  { rewrite allocated_site_iff.
    split; intros [t [Hin Hid]]; exists t; (split; [exact Hin |]);
      now apply String.eqb_eq. }
  rewrite Hiff. split.
  - intros [t [Hin Hid]] Hnil.
    assert (Hf : In t (List.filter (fun t => String.eqb (ts_siteId t) (site_id site))
                                   (allocateFleetsToTranches month ctx fs))).
    { apply filter_In. split; [exact Hin | now apply String.eqb_eq]. }
    rewrite Hnil in Hf. destruct Hf.
  - intros Hne.
    destruct (List.filter _ _) as [| t l] eqn:Hf; [congruence |].
    assert (Hin : In t (List.filter (fun t => String.eqb (ts_siteId t) (site_id site))
                                    (allocateFleetsToTranches month ctx fs)))
      by (rewrite Hf; now left).
    apply filter_In in Hin as [Hin Hid]. exists t. split; [exact Hin |].
    now apply String.eqb_eq.
Qed.

Lemma siteMonthlyMetrics_depreciation month ctx fs th g tx price site :
  (sumQ sm_minerDepreciation
        (siteMonthlyMetrics month ctx (allocateFleetsToTranches month ctx fs)
                            th g tx price site)
   == if siteIsLive month ctx site
      then calculateMinerDepreciation month (site_id site) ctx
      else 0)%Q.
Proof.
  pose proof (siteIsLive_spec month ctx fs site) as Hlive.
  unfold siteMonthlyMetrics.
  destruct (List.filter _ (allocateFleetsToTranches month ctx fs)) as [| t l].
  - destruct (siteIsLive month ctx site); [| reflexivity].
    exfalso. now apply (proj1 Hlive).
  - rewrite (proj2 Hlive) by discriminate.
    rewrite sumQ_cons, sumQ_nil. cbn [sm_minerDepreciation]. ring.
Qed.

Section Depreciation.

Variable Math_exp : Q -> Q.

(** C10 (amended): hardware depreciation is computed per fleet assignment.
    The company-wide [minerDepreciation] is the sum, over the sites with at
    least one tranche started by the month, of the sum over the assignments
    to that site of the assignment's share; the share of an assignment whose
    fleet and model resolve is the full monthly depreciation of the fleet
    (total units * hashrate * price / lifespan months) from the origination
    month until its age reaches the lifespan. *)
Theorem minerDepreciation_per_assignment :
  forall (month : Date) (ctx : CalculationContext),
    (minerDepreciation (calculateMonthMetrics Math_exp month ctx) ==
     sumQ (fun site =>
             sumQ (assignmentShare month ctx)
                  (List.filter (fun a => String.eqb (siteId a) (site_id site))
                               (fleetAssignments ctx)))
          (List.filter (siteIsLive month ctx) (sites ctx)))%Q /\
    (forall a fleet model,
        findFleet ctx (fleetId a) = Some fleet ->
        findModel ctx (modelId fleet) = Some model ->
        isBefore month (originationDate fleet) = false ->
        (inject_Z (differenceInMonths month (originationDate fleet))
         < lifespanYears fleet * 12)%Q ->
        assignmentShare month ctx a =
        (inject_Z (fleetTotalMiners fleet model) * hashrateThS model * pricePerTh model
         / (lifespanYears fleet * 12))%Q).
Proof.
  intros month ctx. split.
  - change (minerDepreciation (calculateMonthMetrics Math_exp month ctx))
      with (sumQ sm_minerDepreciation (siteMetrics (calculateMonthMetrics Math_exp month ctx))).
    unfold calculateMonthMetrics. cbn [siteMetrics].
    set (fs := calculateFleetStatuses Math_exp month ctx).
    generalize (sumQ hashrateThs (allocateFleetsToTranches month ctx fs)).
    intros th.
    generalize (hashrateFractionOf th (in_globalHashrateEH (economicInputs month ctx) * 1000000)
                * getBlockReward month * BLOCKS_PER_MONTH)%Q.
    generalize (hashrateFractionOf th (in_globalHashrateEH (economicInputs month ctx) * 1000000)
                * in_txFeesPerBlock (economicInputs month ctx) * BLOCKS_PER_MONTH)%Q.
    generalize (in_btcPriceUSD (economicInputs month ctx)).
    intros price tx g.
    induction (sites ctx) as [| site l IH]; cbn [flat_map List.filter]; [reflexivity |].
    rewrite sumQ_app, IH, siteMonthlyMetrics_depreciation.
    destruct (siteIsLive month ctx site).
    + rewrite sumQ_cons, calculateMinerDepreciation_sum. reflexivity.
    + ring.
  - intros a fleet model Hfleet Hmodel Hb Hage.
    unfold assignmentShare, assignmentDepreciation.
    rewrite Hfleet, Hmodel, Hb. cbv zeta.
    destruct (Qle_bool _ _) eqn:Hle; [| reflexivity].
    apply Qle_bool_iff in Hle. exfalso. eapply Qlt_not_le; eassumption.
Qed.

End Depreciation.

(** C10 (counterexample): the fleet is assigned to two distinct sites and is
    within its lifespan, but the tranche of the second site starts in 2025:
    in February 2024 the company-wide depreciation counts the fleet once,
    465080/3, not twice. *)
Lemma minerDepreciation_skips_sites_without_live_tranche :
  ~ (forall Math_exp : Q -> Q,
        (minerDepreciation (calculateMonthMetrics Math_exp (mkDate 2024 2 1) ex_ctx_two_sites)
         == 2 * (inject_Z (fleetTotalMiners ex_fleet ex_model) * hashrateThS ex_model
                 * pricePerTh ex_model / (lifespanYears ex_fleet * 12)))%Q).
Proof.
  intros H. specialize (H exp_taylor).
  assert (Hl : Qred (minerDepreciation
                       (calculateMonthMetrics exp_taylor (mkDate 2024 2 1) ex_ctx_two_sites))
               = (465080 # 3)%Q) by (vm_compute; reflexivity).
  apply Qred_complete in H. rewrite Hl in H.
  vm_compute in H. discriminate H.
Qed.

(** ** EBITDA does not read the depreciation inputs *)

Lemma allocateTranches_cons ctx fs t l m :
  allocateTranches ctx fs (t :: l) m =
  let '(t', m') := allocateTranche ctx fs m t in
  let '(rest', m'') := allocateTranches ctx fs l m' in
  (t' :: rest', m'').
Proof. reflexivity. Qed.

Lemma find_map_option {A B} (p : B -> bool) (g : A -> B) l :
  List.find p (map g l) = option_map g (List.find (fun x => p (g x)) l).
Proof.
  induction l as [| x l IH]; cbn [map List.find option_map]; [reflexivity |].
  destruct (p (g x)); [reflexivity | exact IH].
Qed.

Lemma flat_map_of_map {A B C} (f : B -> list C) (g : A -> B) l :
  flat_map f (map g l) = flat_map (fun x => f (g x)) l.
Proof.
  induction l as [| x l IH]; cbn [map flat_map]; [reflexivity |].
  now rewrite IH.
Qed.

Lemma fold_left_pointwise {A B} (f g : A -> B -> A) l :
  (forall a b, f a b = g a b) -> forall a, fold_left f l a = fold_left g l a.
Proof.
  intros H. induction l as [| x l IH]; intros a; cbn [fold_left]; [reflexivity |].
  now rewrite H, IH.
Qed.

Lemma sumQ_of_map {A B} (g : A -> B) (f : B -> Q) l :
  sumQ f (map g l) = sumQ (fun x => f (g x)) l.
Proof.
  unfold sumQ. generalize 0%Q.
  induction l as [| x l IH]; intros a; cbn [map fold_left]; [reflexivity |].
  apply IH.
Qed.

Section SameButDepreciation.

Variable c : Tranche -> CapexBreakdown.
Variable p : ASICModel -> Q.
Variable ctx : CalculationContext.

Let ctx' := withDepreciationInputs c p ctx.

Lemma findModel_with id :
  findModel ctx' id = option_map (withModelPrice p) (findModel ctx id).
Proof.
  unfold findModel, ctx', withDepreciationInputs. cbn [asicModels].
  now rewrite find_map_option.
Qed.

Lemma all_tranches_with :
  flat_map tranches (sites ctx') = map (withTrancheCapex c) (flat_map tranches (sites ctx)).
Proof.
  unfold ctx', withDepreciationInputs. cbn [sites].
  induction (sites ctx) as [| s l IH]; cbn [map flat_map]; [reflexivity |].
  now rewrite IH, map_app.
Qed.

Lemma findTranche_with id :
  findTranche ctx' id = option_map (withTrancheCapex c) (findTranche ctx id).
Proof.
  unfold findTranche. rewrite all_tranches_with. now rewrite find_map_option.
Qed.

Lemma fleetStatus_with e month fleet :
  fleetStatus e month ctx' fleet = fleetStatus e month ctx fleet.
Proof.
  unfold fleetStatus. rewrite findModel_with.
  now destruct (findModel ctx (modelId fleet)).
Qed.

Lemma calculateFleetStatuses_with e month :
  calculateFleetStatuses e month ctx' = calculateFleetStatuses e month ctx.
Proof.
  unfold calculateFleetStatuses. apply map_ext. apply fleetStatus_with.
Qed.

Lemma activeTranches_with month :
  activeTranches month ctx' = activeTranches month ctx.
Proof.
  unfold activeTranches, ctx', withDepreciationInputs. cbn [sites].
  rewrite flat_map_of_map. apply flat_map_ext. intros s.
  unfold withSiteCapex. cbn [tranches]. now rewrite flat_map_of_map.
Qed.

Lemma compareTrancheStart_with a b :
  compareTrancheStart ctx' a b = compareTrancheStart ctx a b.
Proof.
  unfold compareTrancheStart. rewrite !findTranche_with.
  destruct (findTranche ctx (ts_trancheId a)); [| reflexivity].
  now destruct (findTranche ctx (ts_trancheId b)).
Qed.

Lemma sortTranches_with l : sortTranches ctx' l = sortTranches ctx l.
Proof.
  unfold sortTranches. induction l as [| x l IH]; cbn [fold_right]; [reflexivity |].
  rewrite IH. generalize (fold_right (insertTranche ctx) [] l). intros s.
  induction s as [| y s IHs]; cbn; [reflexivity |].
  rewrite compareTrancheStart_with. now rewrite IHs.
Qed.

Lemma allocateAssignment_with fs st a :
  allocateAssignment ctx' fs st a = allocateAssignment ctx fs st a.
Proof.
  unfold allocateAssignment. destruct st as [t m].
  destruct (statusOf fs (fleetId a)) as [s |]; [| reflexivity].
  destruct (activeMiners s =? 0); [reflexivity |].
  change (findFleet ctx' (fleetId a)) with (findFleet ctx (fleetId a)).
  destruct (findFleet ctx (fleetId a)) as [fleet |]; [| reflexivity].
  rewrite findModel_with, findTranche_with.
  destruct (findModel ctx (modelId fleet)) as [model |]; [| reflexivity].
  now destruct (findTranche ctx (ts_trancheId t)).
Qed.

Lemma allocateTranches_with fs l : forall m,
  allocateTranches ctx' fs l m = allocateTranches ctx fs l m.
Proof.
  induction l as [| t l IH]; intros m; [reflexivity |].
  rewrite !allocateTranches_cons.
  assert (Ht : allocateTranche ctx' fs m t = allocateTranche ctx fs m t).
  { unfold allocateTranche. apply fold_left_pointwise. apply allocateAssignment_with. }
  rewrite Ht. destruct (allocateTranche ctx fs m t) as [t1 m1]. now rewrite IH.
Qed.

Lemma allocateFleetsToTranches_with month fs :
  allocateFleetsToTranches month ctx' fs = allocateFleetsToTranches month ctx fs.
Proof.
  unfold allocateFleetsToTranches, runAllocation.
  now rewrite activeTranches_with, sortTranches_with, allocateTranches_with.
Qed.

Lemma calculateTeamCosts_with month :
  calculateTeamCosts month ctx' = calculateTeamCosts month ctx.
Proof. reflexivity. Qed.

Lemma siteMonthlyMetrics_with month ts th g tx price site :
  map eraseDepreciation
      (siteMonthlyMetrics month ctx' ts th g tx price (withSiteCapex c site))
  = map eraseDepreciation (siteMonthlyMetrics month ctx ts th g tx price site).
Proof.
  unfold siteMonthlyMetrics. cbn [site_id site_name tranches withSiteCapex].
  destruct (List.filter _ ts) as [| t0 l0]; [reflexivity |].
  generalize (t0 :: l0). intros siteTranches.
  cbv zeta. cbn [map]. unfold eraseDepreciation.
  cbn [sm_siteId sm_siteName sm_activeMiners sm_powerUsedMW sm_hashrateThs sm_btcMined
       sm_revenue sm_electricityCost sm_opexCost sm_teamCost sm_ebitda].
  rewrite calculateTeamCosts_with.
  assert (Hfee : forall a,
             fold_left
               (fun sum t =>
                  (sum + js_or (option_map poolFee
                                  (List.find (fun tr => String.eqb (tranche_id tr) (ts_trancheId t))
                                             (map (withTrancheCapex c) (tranches site)))) 0
                         * hashrateThs t)%Q) siteTranches a
             = fold_left
                 (fun sum t =>
                    (sum + js_or (option_map poolFee
                                    (List.find (fun tr => String.eqb (tranche_id tr) (ts_trancheId t))
                                               (tranches site))) 0
                           * hashrateThs t)%Q) siteTranches a).
  { apply fold_left_pointwise. intros a t. rewrite find_map_option.
    cbn [tranche_id withTrancheCapex]. now destruct (List.find _ (tranches site)). }
  assert (Hel : forall a,
             fold_left
               (fun sum t =>
                  match List.find (fun tr => String.eqb (tranche_id tr) (ts_trancheId t))
                                  (map (withTrancheCapex c) (tranches site)) with
                  | Some tranche =>
                    (sum + powerUsedMW t * 1000 * HOURS_PER_MONTH
                           * electricityPricePerKWh tranche)%Q
                  | None => sum
                  end) siteTranches a
             = fold_left
                 (fun sum t =>
                    match List.find (fun tr => String.eqb (tranche_id tr) (ts_trancheId t))
                                    (tranches site) with
                    | Some tranche =>
                      (sum + powerUsedMW t * 1000 * HOURS_PER_MONTH
                             * electricityPricePerKWh tranche)%Q
                    | None => sum
                    end) siteTranches a).
  { apply fold_left_pointwise. intros a t. rewrite find_map_option.
    cbn [tranche_id withTrancheCapex]. now destruct (List.find _ (tranches site)). }
  assert (Hop : forall a,
             fold_left
               (fun sum t =>
                  match List.find (fun tr => String.eqb (tranche_id tr) (ts_trancheId t))
                                  (map (withTrancheCapex c) (tranches site)) with
                  | Some tranche =>
                    (sum + (0 + insurance (opex tranche) + maintenance (opex tranche)
                            + security (opex tranche) + monitoring (opex tranche)) / 12)%Q
                  | None => sum
                  end) siteTranches a
             = fold_left
                 (fun sum t =>
                    match List.find (fun tr => String.eqb (tranche_id tr) (ts_trancheId t))
                                    (tranches site) with
                    | Some tranche =>
                      (sum + (0 + insurance (opex tranche) + maintenance (opex tranche)
                              + security (opex tranche) + monitoring (opex tranche)) / 12)%Q
                    | None => sum
                    end) siteTranches a).
  { apply fold_left_pointwise. intros a t. rewrite find_map_option.
    cbn [tranche_id withTrancheCapex]. now destruct (List.find _ (tranches site)). }
  rewrite Hfee, Hel, Hop. reflexivity.
Qed.

Lemma siteMetrics_with month ts th g tx price :
  map eraseDepreciation
      (flat_map (siteMonthlyMetrics month ctx' ts th g tx price) (sites ctx'))
  = map eraseDepreciation
        (flat_map (siteMonthlyMetrics month ctx ts th g tx price) (sites ctx)).
Proof.
  change (sites ctx') with (map (withSiteCapex c) (sites ctx)).
  induction (sites ctx) as [| s l IH]; cbn [map flat_map]; [reflexivity |].
  now rewrite !map_app, IH, siteMonthlyMetrics_with.
Qed.

Lemma sumQ_erased (f : SiteMonthlyMetrics -> Q) l l' :
  (forall r, f (eraseDepreciation r) = f r) ->
  map eraseDepreciation l = map eraseDepreciation l' ->
  sumQ f l = sumQ f l'.
Proof.
  intros Hf Hmap.
  assert (H : forall k, sumQ f k = sumQ f (map eraseDepreciation k)).
  { intros k. rewrite sumQ_of_map. unfold sumQ. apply fold_left_pointwise.
    intros a r. now rewrite Hf. }
  now rewrite (H l), (H l'), Hmap.
Qed.

End SameButDepreciation.

Section Ebitda.

Variable Math_exp : Q -> Q.

(** The four sums over the site records that EBITDA is made of do not
    change with the depreciation inputs. *)
Lemma siteMetrics_sum_with c p month ctx (f : SiteMonthlyMetrics -> Q) :
  (forall r, f (eraseDepreciation r) = f r) ->
  sumQ f (siteMetrics (calculateMonthMetrics Math_exp month (withDepreciationInputs c p ctx)))
  = sumQ f (siteMetrics (calculateMonthMetrics Math_exp month ctx)).
Proof.
  intros Hf. unfold calculateMonthMetrics. cbn [siteMetrics].
  rewrite calculateFleetStatuses_with, allocateFleetsToTranches_with.
  change (economicInputs month (withDepreciationInputs c p ctx))
    with (economicInputs month ctx).
  apply sumQ_erased; [exact Hf |].
  apply siteMetrics_with.
Qed.

(** C6: the company-wide EBITDA of a month is revenueUSD minus the sum of
    electricity, OPEX and team cost, where team cost is the team cost of the
    sites plus the company-scope staffing; and EBITDA, like each of its four
    terms, keeps its value when the CAPEX of the tranches and the price of
    the hardware models, the inputs of the two depreciation lines, are
    replaced by any others. *)
Theorem ebitda_identity :
  forall (month : Date) (ctx : CalculationContext),
    let m := calculateMonthMetrics Math_exp month ctx in
    ebitda m = (revenueUSD m - (electricityCost m + opexCost m + teamCost m))%Q /\
    teamCost m =
    (sumQ sm_teamCost (siteMetrics m)
     + calculateTeamCosts month ctx ScopeCompany None)%Q /\
    forall (c : Tranche -> CapexBreakdown) (p : ASICModel -> Q),
      let m' := calculateMonthMetrics Math_exp month (withDepreciationInputs c p ctx) in
      ebitda m' = ebitda m /\ revenueUSD m' = revenueUSD m /\
      electricityCost m' = electricityCost m /\ opexCost m' = opexCost m /\
      teamCost m' = teamCost m.
Proof.
  intros month ctx m.
  split; [reflexivity | split; [reflexivity |]].
  intros c p m'.
  assert (Hrev : revenueUSD m' = revenueUSD m).
  { change (revenueUSD m')
      with (sumQ sm_btcMined (siteMetrics m')
            * in_btcPriceUSD (economicInputs month ctx))%Q.
    change (revenueUSD m)
      with (sumQ sm_btcMined (siteMetrics m)
            * in_btcPriceUSD (economicInputs month ctx))%Q.
    subst m m'. now rewrite siteMetrics_sum_with. }
  assert (Hel : electricityCost m' = electricityCost m).
  { change (electricityCost m') with (sumQ sm_electricityCost (siteMetrics m')).
    change (electricityCost m) with (sumQ sm_electricityCost (siteMetrics m)).
    subst m m'. now rewrite siteMetrics_sum_with. }
  assert (Hop : opexCost m' = opexCost m).
  { change (opexCost m') with (sumQ sm_opexCost (siteMetrics m')).
    change (opexCost m) with (sumQ sm_opexCost (siteMetrics m)).
    subst m m'. now rewrite siteMetrics_sum_with. }
  assert (Hteam : teamCost m' = teamCost m).
  { change (teamCost m')
      with (sumQ sm_teamCost (siteMetrics m')
            + calculateTeamCosts month ctx ScopeCompany None)%Q.
    change (teamCost m)
      with (sumQ sm_teamCost (siteMetrics m)
            + calculateTeamCosts month ctx ScopeCompany None)%Q.
    subst m m'. now rewrite siteMetrics_sum_with. }
  split; [| now repeat split].
  change (ebitda m')
    with (revenueUSD m' - (electricityCost m' + opexCost m' + teamCost m'))%Q.
  change (ebitda m)
    with (revenueUSD m - (electricityCost m + opexCost m + teamCost m))%Q.
  now rewrite Hrev, Hel, Hop, Hteam.
Qed.

End Ebitda.

(** ** 4.1 Reward schedule: a halving never raises the reward *)

Lemma isAfter_spec a b :
  isAfter a b = true <->
  (year b < year a \/
   (year a = year b /\
    (monthOfYear b < monthOfYear a \/
     (monthOfYear a = monthOfYear b /\ dayOfMonth b < dayOfMonth a)))).
Proof.
  unfold isAfter, compareAsc.
  destruct (Z.compare_spec (year a) (year b));
    destruct (Z.compare_spec (monthOfYear a) (monthOfYear b));
    destruct (Z.compare_spec (dayOfMonth a) (dayOfMonth b));
    split; intros; try discriminate; try reflexivity; lia.
Qed.

Lemma isBefore_earlier d1 d2 T :
  date_leb d1 d2 = true -> isBefore d2 T = true -> isBefore d1 T = true.
Proof.
  unfold date_leb. intros Hle Hb.
  apply negb_true_iff, not_true_iff_false in Hle.
  rewrite isAfter_spec in Hle. rewrite isBefore_spec in *. lia.
Qed.

Ltac reward_le := apply Qle_bool_iff; vm_compute; reflexivity.

Ltac earlier_test Hle T :=
  let H := fresh "H" in
  destruct (isBefore _ T) eqn:H;
  [ rewrite (isBefore_earlier _ _ T Hle H)
  | cbn [negb];
    repeat match goal with
           | |- context [isBefore ?d ?T'] => destruct (isBefore d T'); cbn [negb]
           end;
    reward_le ].

(** A later date never has a higher block reward. *)
Theorem getBlockReward_non_increasing :
  forall d1 d2 : Date,
    date_leb d1 d2 = true -> (getBlockReward d2 <= getBlockReward d1)%Q.
Proof.
  intros d1 d2 Hle. unfold getBlockReward, HALVING_DATES.
  cbn [rev app scanHalvings]. unfold date_geb.
  earlier_test Hle (mkDate 2032 4 1).
  earlier_test Hle (mkDate 2028 4 1).
  earlier_test Hle (mkDate 2024 4 19).
  earlier_test Hle (mkDate 2020 5 11).
  earlier_test Hle (mkDate 2016 7 9).
  earlier_test Hle (mkDate 2012 11 28).
  cbn [negb].
  destruct (isBefore d2 (mkDate 2009 1 3)) eqn:Hgenesis.
  - rewrite (isBefore_earlier _ _ _ Hle Hgenesis). cbn [negb]. reward_le.
  - destruct (isBefore d1 (mkDate 2009 1 3)); cbn [negb]; reward_le.
Qed.

Lemma getBlockReward_non_increasing_witness :
  date_leb (mkDate 2024 4 18) (mkDate 2024 4 19) = true /\
  (getBlockReward (mkDate 2024 4 19) <= getBlockReward (mkDate 2024 4 18))%Q.
Proof.
  split; [reflexivity |].
  exact (getBlockReward_non_increasing (mkDate 2024 4 18) (mkDate 2024 4 19) eq_refl).
Defined.

(** ** 4.7 The simulated months *)

Lemma monthIndex_firstOfMonth i : monthIndex (firstOfMonth i) = i.
Proof. unfold monthIndex, firstOfMonth. cbn [year monthOfYear]. Z.div_mod_to_equations. lia. Qed.

Lemma firstOfMonth_startOfMonth d :
  validMonth d -> startOfMonth d = firstOfMonth (monthIndex d).
Proof.
  unfold validMonth, startOfMonth, firstOfMonth, monthIndex. intros Hm.
  f_equal; Z.div_mod_to_equations; lia.
Qed.

Lemma addMonths_firstOfMonth i n : addMonths (firstOfMonth i) n = firstOfMonth (i + n).
Proof.
  unfold addMonths. rewrite monthIndex_firstOfMonth. reflexivity.
Qed.

Lemma date_leb_firstOfMonth i j :
  date_leb (firstOfMonth i) (firstOfMonth j) = (i <=? j).
Proof.
  unfold date_leb.
  destruct (isAfter (firstOfMonth i) (firstOfMonth j)) eqn:Ha; cbn [negb]; symmetry.
  - apply Z.leb_gt. apply isAfter_spec in Ha.
    unfold firstOfMonth in Ha. cbn [year monthOfYear dayOfMonth] in Ha.
    Z.div_mod_to_equations. lia.
  - apply Z.leb_le. apply not_true_iff_false in Ha. rewrite isAfter_spec in Ha.
    unfold firstOfMonth in Ha. cbn [year monthOfYear dayOfMonth] in Ha.
    Z.div_mod_to_equations. lia.
Qed.

Lemma monthLoop_firstOfMonth fuel : forall i j,
  (Z.to_nat (j - i + 1) <= fuel)%nat ->
  monthLoop fuel (firstOfMonth i) (firstOfMonth j)
  = map (fun k => firstOfMonth (i + Z.of_nat k)) (seq 0 (Z.to_nat (j - i + 1))).
Proof.
  induction fuel as [| fuel IH]; intros i j Hfuel.
  - replace (Z.to_nat (j - i + 1)) with 0%nat by lia. reflexivity.
  - cbn [monthLoop]. rewrite date_leb_firstOfMonth.
    destruct (i <=? j) eqn:Hij.
    + apply Z.leb_le in Hij.
      rewrite addMonths_firstOfMonth, IH by lia.
      replace (Z.to_nat (j - i + 1)) with (S (Z.to_nat (j - (i + 1) + 1))) by lia.
      cbn [seq map]. rewrite Z.add_0_r. f_equal.
      rewrite <- seq_shift, map_map. apply map_ext. intros k. f_equal. lia.
    + apply Z.leb_gt in Hij.
      replace (Z.to_nat (j - i + 1)) with 0%nat by lia. reflexivity.
Qed.

(** The simulated months are the first days of the calendar months from the
    month of the start date to the month of the end date, both included and
    in order; none when the end month is before the start month.  The loop
    yields the same list with any larger bound on its iterations. *)
Theorem generateMonthRange_months :
  forall p : Project,
    validMonth (startDate p) -> validMonth (endDate p) ->
    let first := monthIndex (startDate p) in
    let last := monthIndex (endDate p) in
    generateMonthRange p
    = map (fun k => firstOfMonth (first + Z.of_nat k)) (seq 0 (Z.to_nat (last - first + 1)))
    /\
    forall extra : nat,
      monthLoop (Z.to_nat (last - first + 1) + extra)
                (startOfMonth (startDate p)) (startOfMonth (endDate p))
      = generateMonthRange p.
Proof.
  intros p Hs He first last.
  assert (Hi : monthIndex (startOfMonth (startDate p)) = first) by reflexivity.
  assert (Hj : monthIndex (startOfMonth (endDate p)) = last) by reflexivity.
  unfold generateMonthRange. cbv zeta. rewrite Hi, Hj.
  rewrite !firstOfMonth_startOfMonth by assumption.
  fold first last.
  split.
  - apply monthLoop_firstOfMonth. lia.
  - intros extra. rewrite !monthLoop_firstOfMonth by lia. reflexivity.
Qed.

Lemma generateMonthRange_months_witness :
  validMonth (startDate (project ex_ctx)) /\ validMonth (endDate (project ex_ctx)) /\
  generateMonthRange (project ex_ctx)
  = map (fun k => firstOfMonth (monthIndex (startDate (project ex_ctx)) + Z.of_nat k))
        (seq 0 (Z.to_nat (monthIndex (endDate (project ex_ctx))
                          - monthIndex (startDate (project ex_ctx)) + 1))).
Proof.
  assert (H1 : validMonth (startDate (project ex_ctx))) by (unfold validMonth; cbn; lia).
  assert (H2 : validMonth (endDate (project ex_ctx))) by (unfold validMonth; cbn; lia).
  split; [exact H1 | split; [exact H2 |]].
  exact (proj1 (generateMonthRange_months (project ex_ctx) H1 H2)).
Defined.

(** ** 4.4 Ramp-up *)

(** A tranche that has not started has no status in the month.  From its
    start date on it has exactly one, with no unit allocated yet and, [k]
    being the whole months since the start: the capacity times
    [min(1, (k + 1) / rampUpMonths)] for a positive ramp-up length, the full
    capacity for a ramp-up length of zero or less. *)
Theorem rampUp_available_power :
  forall (month : Date) (site : Site) (tranche : Tranche),
    (isBefore month (tranche_startDate tranche) = true ->
     initialTrancheStatus month site tranche = []) /\
    (isBefore month (tranche_startDate tranche) = false ->
     let k := differenceInMonths month (tranche_startDate tranche) in
     exists t,
       initialTrancheStatus month site tranche = [t] /\
       ts_siteId t = site_id site /\ ts_trancheId t = tranche_id tranche /\
       allocatedMiners t = 0 /\ powerUsedMW t = 0%Q /\ hashrateThs t = 0%Q /\
       (0 < rampUpMonths tranche ->
        (availablePowerMW t ==
         powerMW tranche
         * Qmin 1 (inject_Z (k + 1) / inject_Z (rampUpMonths tranche)))%Q) /\
       (rampUpMonths tranche <= 0 -> availablePowerMW t = powerMW tranche)).
Proof.
  intros month site tranche. unfold initialTrancheStatus.
  split; intros Hb; rewrite Hb; [reflexivity |].
  pose proof (differenceInMonths_nonneg _ _ Hb) as Hk.
  cbv zeta. eexists. split; [reflexivity |].
  cbn [ts_siteId ts_trancheId allocatedMiners powerUsedMW hashrateThs availablePowerMW].
  repeat (split; [reflexivity |]).
  set (k := differenceInMonths month (tranche_startDate tranche)) in *.
  set (r := rampUpMonths tranche) in *.
  split.
  - intros Hr.
    assert (Hrq : (0 < inject_Z r)%Q) by now rewrite <- (Zlt_Qlt 0).
    destruct (k <? r) eqn:Hkr.
    + apply Z.ltb_lt in Hkr.
      rewrite (proj2 (Z.ltb_lt 0 r) Hr).
      rewrite Q.min_r; [reflexivity |].
      apply Qle_shift_div_r; [exact Hrq |].
      rewrite Qmult_1_l. rewrite <- Zle_Qle. lia.
    + apply Z.ltb_ge in Hkr.
      rewrite Q.min_l; [ring |].
      apply Qle_shift_div_l; [exact Hrq |].
      rewrite Qmult_1_l. rewrite <- Zle_Qle. lia.
  - intros Hr.
    destruct (k <? r) eqn:Hkr; [| reflexivity].
    apply Z.ltb_lt in Hkr. lia.
Qed.

(** ** 4.4 The order in which tranches are served *)





Section SortedTranches.

Variable ctx : CalculationContext.







End SortedTranches.


(** ** 4.4 The priority of an assignment is not read *)

Lemma filter_of_map {A B} (q : B -> bool) (g : A -> B) l :
  List.filter q (map g l) = map g (List.filter (fun x => q (g x)) l).
Proof.
  induction l as [| x l IH]; cbn [map List.filter]; [reflexivity |].
  destruct (q (g x)); cbn [map]; now rewrite IH.
Qed.

Lemma fold_left_of_map {A B C} (f : A -> C -> A) (g : B -> C) l : forall a,
  fold_left f (map g l) a = fold_left (fun acc x => f acc (g x)) l a.
Proof.
  induction l as [| x l IH]; intros a; cbn [map fold_left]; [reflexivity | apply IH].
Qed.

Lemma allocateTranche_priority prio ctx fs m t :
  allocateTranche (withPriorities prio ctx) fs m t = allocateTranche ctx fs m t.
Proof.
  unfold allocateTranche, withPriorities. cbn [fleetAssignments].
  rewrite filter_of_map, fold_left_of_map. reflexivity.
Qed.

(** The allocation, tranche statuses and units per fleet, is the same
    whatever priorities the assignments carry: only the order of the
    [fleetAssignments] collection decides which fleet of a site is served
    first. *)
Theorem allocation_ignores_priority :
  forall (month : Date) (ctx : CalculationContext) (fs : list MonthlyFleetStatus)
         (prio : FleetAssignment -> Z),
    runAllocation month (withPriorities prio ctx) fs = runAllocation month ctx fs.
Proof.
  intros month ctx fs prio. unfold runAllocation.
  change (activeTranches month (withPriorities prio ctx)) with (activeTranches month ctx).
  change (sortTranches (withPriorities prio ctx)) with (sortTranches ctx).
  generalize (sortTranches ctx (activeTranches month ctx)).
  generalize (∅ : gmap string Z).
  intros m l. revert m.
  induction l as [| t l IH]; intros m; [reflexivity |].
  rewrite !allocateTranches_cons, allocateTranche_priority.
  destruct (allocateTranche ctx fs m t) as [t1 m1]. now rewrite IH.
Qed.

(** ** 4.3 Fleet aging: bounds *)

Lemma Qfloor_nonneg_scale (n : Z) :
  0 <= n -> Qfloor (inject_Z n * 0.95) <= n /\ 0 <= Qceiling (inject_Z n * 0.05).
Proof.
  intros Hn.
  unfold Qceiling, Qfloor, Qopp, Qmult, inject_Z. cbn [Qnum Qden].
  change (1 * 100)%positive with 100%positive.
  Z.div_mod_to_equations. lia.
Qed.

Lemma fleetStatus_total Math_exp month ctx fleet model :
  findModel ctx (modelId fleet) = Some model ->
  totalMiners (fleetStatus Math_exp month ctx fleet) = fleetTotalMiners fleet model.
Proof.
  intros Hmodel. unfold fleetStatus. rewrite Hmodel. cbv zeta.
  destruct (isAfter month (originationDate fleet)); [| reflexivity].
  now destruct (Qle_bool _ _).
Qed.

(** Whatever [Math.exp] returns: a fleet whose model is unknown has the
    all-zero status; otherwise, for a fleet sized in units or a model whose
    power draw is not zero, the total is the fleet's unit count and, when
    that count is not negative, the active units are not negative and the
    failed units do not exceed the total. *)
Theorem fleet_status_bounds :
  forall (Math_exp : Q -> Q) (month : Date) (ctx : CalculationContext) (fleet : ASICFleet),
    let st := fleetStatus Math_exp month ctx fleet in
    (findModel ctx (modelId fleet) = None -> st = mkFleetStatus (fleet_id fleet) 0 0 0) /\
    (forall model,
        findModel ctx (modelId fleet) = Some model ->
        (quantityMode fleet = ModeMW -> ~ (powerW model == 0)%Q) ->
        totalMiners st = fleetTotalMiners fleet model /\
        (0 <= fleetTotalMiners fleet model ->
         0 <= activeMiners st /\ failedMiners st <= totalMiners st)).
Proof.
  intros Math_exp month ctx fleet st. subst st. unfold fleetStatus.
  split.
  - intros Hnone. now rewrite Hnone.
  - intros model Hmodel _. rewrite Hmodel. cbv zeta.
    destruct (isAfter month (originationDate fleet)).
    + destruct (Qle_bool _ _); cbn [totalMiners failedMiners activeMiners].
      * split; [reflexivity |]. intros Hn.
        destruct (Qfloor_nonneg_scale _ Hn). split; assumption.
      * split; [reflexivity |]. intros Hn. lia.
    + cbn [totalMiners failedMiners activeMiners]. split; [reflexivity |]. lia.
Qed.

(** ** Helpers of the fleets page *)

Section Conversions.

Variable round : Q -> Q.
Variable u : Q.
Hypothesis Hu : (0 <= u <= 1)%Q.
Hypothesis Hround : roundsWithin u round.

Lemma powerOf_bounds k :
  (0 <= powerOf (1 - u) k <= 1)%Q /\ (1 <= powerOf (1 + u) k)%Q.
Proof.
  induction k as [| k [[IH1 IH2] IH3]]; cbn [powerOf]; [split; [split |]; lra |].
  split; [split |]; nra.
Qed.

Lemma round_zero x : (x == 0)%Q -> (round x == 0)%Q.
Proof.
  intros Hx. pose proof (Hround x) as H. apply Qabs_Qle_condition in H.
  assert (Ha : (Qabs x == 0)%Q) by (rewrite Hx; reflexivity).
  nra.
Qed.

Lemma withinRoundings_refl y : withinRoundings u 0 y y.
Proof. unfold withinRoundings. cbn [powerOf]. split; lra. Qed.

Lemma withinRoundings_round k x y :
  (0 <= y)%Q -> withinRoundings u k x y -> withinRoundings u (S k) (round x) y.
Proof.
  intros Hy [Hlo Hhi]. destruct (powerOf_bounds k) as [[Ha _] Hb].
  assert (Hx : (0 <= x)%Q).
  { assert (0 <= y * powerOf (1 - u) k)%Q by (apply Qmult_le_0_compat; lra). lra. }
  destruct (round_bounds round u Hround x Hx) as [Hr1 Hr2].
  unfold withinRoundings. cbn [powerOf]. split.
  - eapply Qle_trans; [| exact Hr1]. rewrite Qmult_assoc.
    apply Qmult_le_compat_r; [exact Hlo | lra].
  - eapply Qle_trans; [exact Hr2 |]. rewrite Qmult_assoc.
    apply Qmult_le_compat_r; [exact Hhi | lra].
Qed.

Lemma withinRoundings_scale k x y s :
  (0 <= s)%Q -> withinRoundings u k x y -> withinRoundings u k (x * s) (y * s).
Proof.
  intros Hs [Hlo Hhi]. unfold withinRoundings. split.
  - assert (E : (y * s * powerOf (1 - u) k == y * powerOf (1 - u) k * s)%Q) by ring.
    rewrite E. now apply Qmult_le_compat_r.
  - assert (E : (y * s * powerOf (1 + u) k == y * powerOf (1 + u) k * s)%Q) by ring.
    rewrite E. now apply Qmult_le_compat_r.
Qed.

Lemma withinRoundings_div k x y s :
  (0 < s)%Q -> withinRoundings u k x y -> withinRoundings u k (x / s) (y / s).
Proof.
  intros Hs H. unfold Qdiv. apply withinRoundings_scale; [| exact H].
  apply Qlt_le_weak, Qinv_lt_0_compat, Hs.
Qed.

(** The quotient floored by [calculateMinersFromMW] is the exact one after
    two roundings. *)
Lemma units_quotient mw p :
  (0 < p)%Q -> (0 <= mw)%Q ->
  withinRoundings u 2 (round (round (mw * 1000000) / p)) (mw * 1000000 / p).
Proof.
  intros Hp Hmw.
  assert (H6 : (0 <= mw * 1000000)%Q) by lra.
  apply withinRoundings_round.
  - apply Qle_shift_div_l; [exact Hp | lra].
  - apply withinRoundings_div; [exact Hp |].
    apply withinRoundings_round; [exact H6 | apply withinRoundings_refl].
Qed.

(** The megawatts [calculateMWFromMiners] returns are the exact ones after
    two roundings. *)
Lemma megawatts_of_units n p :
  (0 < p)%Q -> 0 <= n ->
  withinRoundings u 2 (Rounded.calculateMWFromMiners round n p)
                  (inject_Z n * p / 1000000).
Proof.
  intros Hp Hn. unfold Rounded.calculateMWFromMiners.
  destruct (n =? 0) eqn:Hz.
  - apply Z.eqb_eq in Hz. subst n. unfold withinRoundings.
    assert (E : (inject_Z 0 * p / 1000000 == 0)%Q) by (unfold Qdiv; ring).
    rewrite E. split; lra.
  - assert (Hnp : (0 <= inject_Z n * p)%Q).
    { apply Qmult_le_0_compat; [rewrite <- (Zle_Qle 0); lia | lra]. }
    apply withinRoundings_round.
    + apply Qle_shift_div_l; [reflexivity | lra].
    + apply withinRoundings_div; [reflexivity |].
      apply withinRoundings_round; [exact Hnp | apply withinRoundings_refl].
Qed.

End Conversions.

(** Converting a unit count to megawatts and back never adds a unit and
    loses at most one, for a positive power draw, a count that is not
    negative and arithmetic whose relative error [u] per operation is small
    against the count ([5 * count * u < 1]); without rounding ([u = 0]) it
    returns the count. *)
Theorem miners_MW_round_trip :
  forall (round : Q -> Q) (u : Q) (miners : Z) (powerW : Q),
    (0 <= u <= 1 # 8)%Q -> roundsWithin u round ->
    (0 < powerW)%Q -> 0 <= miners -> (5 * inject_Z miners * u < 1)%Q ->
    let back :=
        Rounded.calculateMinersFromMW
          round (Rounded.calculateMWFromMiners round miners powerW) powerW in
    miners - 1 <= back <= miners /\ ((u == 0)%Q -> back = miners).
Proof.
  intros round u miners powerW Hu8 Hround Hpw Hn Hsmall back.
  assert (Hu : (0 <= u <= 1)%Q) by lra.
  set (mw := Rounded.calculateMWFromMiners round miners powerW) in *.
  pose proof (megawatts_of_units round u Hu Hround miners powerW Hpw Hn) as Hmw.
  fold mw in Hmw.
  set (N := inject_Z miners) in *.
  assert (HN : (0 <= N)%Q) by (unfold N; rewrite <- (Zle_Qle 0); lia).
  assert (Hexact : (0 <= N * powerW / 1000000)%Q).
  { apply Qle_shift_div_l; [reflexivity |].
    assert (0 <= N * powerW)%Q by (apply Qmult_le_0_compat; lra). lra. }
  assert (Hmw0 : (0 <= mw)%Q).
  { destruct Hmw as [Hlo _]. destruct (powerOf_bounds u Hu 2) as [[Ha _] _].
    assert (0 <= N * powerW / 1000000 * powerOf (1 - u) 2)%Q
      by (apply Qmult_le_0_compat; lra).
    lra. }
  pose proof (units_quotient round u Hu Hround mw powerW Hpw Hmw0) as Hx.
  assert (Hback : back = Qfloor (round (round (mw * 1000000) / powerW)%Q)).
  { subst back. unfold Rounded.calculateMinersFromMW.
    destruct (Qeq_bool powerW 0) eqn:E; [| reflexivity].
    apply Qeq_bool_iff in E. lra. }
  set (x := round (round (mw * 1000000) / powerW)%Q) in *.
  (* x is N after four roundings *)
  assert (Hx4 : (N * ((1 - u) * (1 - u) * (1 - u) * (1 - u)) <= x)%Q /\
                (x <= N * ((1 + u) * (1 + u) * (1 + u) * (1 + u)))%Q).
  { destruct Hmw as [Hm1 Hm2]. destruct Hx as [Hx1 Hx2]. cbn [powerOf] in *.
    assert (Ha : (0 <= (1 - u) * (1 - u))%Q) by nra.
    assert (Hb : (0 <= (1 + u) * (1 + u))%Q) by nra.
    assert (E1 : (N * powerW / 1000000 * (1 * (1 - u) * (1 - u)) * 1000000 / powerW
                  == N * ((1 - u) * (1 - u)))%Q) by (field; lra).
    assert (E2 : (N * powerW / 1000000 * (1 * (1 + u) * (1 + u)) * 1000000 / powerW
                  == N * ((1 + u) * (1 + u)))%Q) by (field; lra).
    assert (Hq1 : (N * ((1 - u) * (1 - u)) <= mw * 1000000 / powerW)%Q).
    { rewrite <- E1. apply Qle_shift_div_l; [exact Hpw |].
      assert (E : (N * powerW / 1000000 * (1 * (1 - u) * (1 - u)) * 1000000 / powerW
                   * powerW
                   == N * powerW / 1000000 * (1 * (1 - u) * (1 - u)) * 1000000)%Q)
        by (field; lra).
      rewrite E. lra. }
    assert (Hq2 : (mw * 1000000 / powerW <= N * ((1 + u) * (1 + u)))%Q).
    { rewrite <- E2. apply Qle_shift_div_r; [exact Hpw |].
      assert (E : (N * powerW / 1000000 * (1 * (1 + u) * (1 + u)) * 1000000 / powerW
                   * powerW
                   == N * powerW / 1000000 * (1 * (1 + u) * (1 + u)) * 1000000)%Q)
        by (field; lra).
      rewrite E. lra. }
    split.
    - eapply Qle_trans; [| exact Hx1].
      assert (E : (N * ((1 - u) * (1 - u) * (1 - u) * (1 - u))
                   == N * ((1 - u) * (1 - u)) * (1 * (1 - u) * (1 - u)))%Q) by ring.
      rewrite E. apply Qmult_le_compat_r; [exact Hq1 | lra].
    - eapply Qle_trans; [exact Hx2 |].
      assert (E : (N * ((1 + u) * (1 + u) * (1 + u) * (1 + u))
                   == N * ((1 + u) * (1 + u)) * (1 * (1 + u) * (1 + u)))%Q) by ring.
      rewrite E. apply Qmult_le_compat_r; [exact Hq2 | lra]. }
  destruct Hx4 as [Hlo Hhi].
  assert (Hfloor_lo : (inject_Z (Qfloor x) <= x)%Q) by apply Qfloor_le.
  assert (Hfloor_hi : (x < inject_Z (Qfloor x) + 1)%Q).
  { pose proof (Qlt_floor x) as H. rewrite inject_Z_plus in H. exact H. }
  assert (Hup : (N * ((1 + u) * (1 + u) * (1 + u) * (1 + u)) < N + 1)%Q).
  { assert (Ht : (6 * u + 4 * (u * u) + u * (u * u) <= 1)%Q) by nra.
    assert (Hnu : (0 <= N * u)%Q) by (apply Qmult_le_0_compat; lra).
    assert (E : (N * ((1 + u) * (1 + u) * (1 + u) * (1 + u))
                 == N + 4 * (N * u) + N * u * (6 * u + 4 * (u * u) + u * (u * u)))%Q)
      by ring.
    rewrite E.
    assert (Hp : ((6 * u + 4 * (u * u) + u * (u * u)) * (N * u) <= 1 * (N * u))%Q)
      by (apply Qmult_le_compat_r; lra).
    lra. }
  assert (Hdown : (N - 1 <= N * ((1 - u) * (1 - u) * (1 - u) * (1 - u)))%Q).
  { assert (Hnu : (0 <= N * u)%Q) by (apply Qmult_le_0_compat; lra).
    assert (Ht : (0 <= 6 * u - 4 * (u * u) + u * (u * u))%Q) by nra.
    assert (E : (N * ((1 - u) * (1 - u) * (1 - u) * (1 - u))
                 == N - 4 * (N * u) + N * u * (6 * u - 4 * (u * u) + u * (u * u)))%Q)
      by ring.
    rewrite E.
    assert (Hp : (0 <= N * u * (6 * u - 4 * (u * u) + u * (u * u)))%Q)
      by (apply Qmult_le_0_compat; lra).
    lra. }
  rewrite Hback. split.
  - split.
    + replace (miners - 1) with (Qfloor (inject_Z (miners - 1))) by apply Qfloor_Z.
      apply Qfloor_resp_le.
      assert (E : (inject_Z (miners - 1) == N - 1)%Q).
      { unfold N. rewrite <- (Z.add_opp_r miners 1), inject_Z_plus. reflexivity. }
      rewrite E. lra.
    + assert (H : (inject_Z (Qfloor x) < inject_Z (miners + 1))%Q).
      { rewrite inject_Z_plus. fold N. change (inject_Z 1) with 1%Q. lra. }
      rewrite <- Zlt_Qlt in H. lia.
  - intros Hu0.
    assert (Hxn : (x == N)%Q).
    { assert (E1 : (N * ((1 - u) * (1 - u) * (1 - u) * (1 - u)) == N)%Q)
        by (rewrite Hu0; ring).
      assert (E2 : (N * ((1 + u) * (1 + u) * (1 + u) * (1 + u)) == N)%Q)
        by (rewrite Hu0; ring).
      lra. }
    rewrite Hxn. apply Qfloor_Z.
Qed.

Lemma miners_MW_round_trip_witness :
  (0 <= unitRoundoff64 <= 1 # 8)%Q /\ roundsWithin unitRoundoff64 round64 /\
  (0 < 3010)%Q /\ 0 <= 43 /\ (5 * inject_Z 43 * unitRoundoff64 < 1)%Q /\
  Rounded.calculateMinersFromMW round64 (Rounded.calculateMWFromMiners round64 43 3010) 3010
  = 42 /\
  43 - 1 <= Rounded.calculateMinersFromMW
              round64 (Rounded.calculateMWFromMiners round64 43 3010) 3010 <= 43.
Proof.
  assert (H0 : (0 <= unitRoundoff64 <= 1 # 8)%Q) by (split; vm_compute; discriminate).
  assert (H1 : (0 < 3010)%Q) by reflexivity.
  assert (H2 : 0 <= 43) by lia.
  assert (H3 : (5 * inject_Z 43 * unitRoundoff64 < 1)%Q) by (vm_compute; reflexivity).
  split; [exact H0 | split; [exact round64_error | split; [exact H1 | split; [exact H2 |]]]].
  split; [exact H3 | split; [vm_compute; reflexivity |]].
  exact (proj1 (miners_MW_round_trip round64 unitRoundoff64 43 3010
                                     H0 round64_error H1 H2 H3)).
Defined.

(** Converting megawatts to units and back, for a positive power draw, a
    power that is not negative and arithmetic whose every operation has a
    relative error of at most [u], returns at most the megawatts enlarged by
    four roundings and loses less than the draw of one unit, up to four
    roundings. *)
Theorem MW_miners_round_trip :
  forall (round : Q -> Q) (u : Q) (mw powerW : Q),
    (0 <= u <= 1)%Q -> roundsWithin u round ->
    (0 < powerW)%Q -> (0 <= mw)%Q ->
    let back :=
        Rounded.calculateMWFromMiners
          round (Rounded.calculateMinersFromMW round mw powerW) powerW in
    (back <= mw * (1 + u) ^ 4)%Q /\ (mw * (1 - u) ^ 4 < back + powerW / 1000000)%Q.
Proof.
  intros round u mw powerW Hu Hround Hpw Hmw back.
  pose proof (units_quotient round u Hu Hround mw powerW Hpw Hmw) as [Hx1 Hx2].
  assert (Hk : Rounded.calculateMinersFromMW round mw powerW
               = Qfloor (round (round (mw * 1000000) / powerW)%Q)).
  { unfold Rounded.calculateMinersFromMW.
    destruct (Qeq_bool powerW 0) eqn:E; [| reflexivity].
    apply Qeq_bool_iff in E. lra. }
  subst back. rewrite Hk.
  set (x := round (round (mw * 1000000) / powerW)%Q) in *.
  set (k := Qfloor x).
  assert (Hfloor_lo : (inject_Z k <= x)%Q) by apply Qfloor_le.
  assert (Hfloor_hi : (x < inject_Z k + 1)%Q).
  { pose proof (Qlt_floor x) as H. rewrite inject_Z_plus in H. exact H. }
  cbn [powerOf] in Hx1, Hx2.
  set (a2 := ((1 - u) * (1 - u))%Q). set (b2 := ((1 + u) * (1 + u))%Q).
  assert (Ha2 : (0 <= a2 <= 1)%Q) by (unfold a2; nra).
  assert (Hb2 : (1 <= b2)%Q) by (unfold b2; nra).
  assert (E1 : (mw * 1000000 / powerW * (1 * (1 - u) * (1 - u))
                == mw * a2 * 1000000 / powerW)%Q) by (unfold a2; field; lra).
  assert (E2 : (mw * 1000000 / powerW * (1 * (1 + u) * (1 + u))
                == mw * b2 * 1000000 / powerW)%Q) by (unfold b2; field; lra).
  rewrite E1 in Hx1. rewrite E2 in Hx2.
  assert (Hx0 : (0 <= x)%Q).
  { assert (0 <= mw * a2 * 1000000 / powerW)%Q.
    { apply Qle_shift_div_l; [exact Hpw |].
      assert (0 <= mw * a2)%Q by (apply Qmult_le_0_compat; lra). lra. }
    lra. }
  assert (Hk0 : 0 <= k).
  { unfold k. replace 0 with (Qfloor (inject_Z 0)) by apply Qfloor_Z.
    now apply Qfloor_resp_le. }
  pose proof (megawatts_of_units round u Hu Hround k powerW Hpw Hk0) as [Hk1 Hk2].
  cbn [powerOf] in Hk1, Hk2.
  set (back := Rounded.calculateMWFromMiners round k powerW) in *.
  set (K := inject_Z k) in *.
  assert (HK0 : (0 <= K)%Q) by (unfold K; rewrite <- (Zle_Qle 0); lia).
  set (w := (powerW / 1000000)%Q).
  assert (Hw : (0 < w)%Q) by (unfold w; apply Qlt_shift_div_l; [reflexivity | lra]).
  assert (Ew : (K * powerW / 1000000 == K * w)%Q) by (unfold w; field).
  rewrite Ew in Hk1, Hk2.
  assert (E3 : (K * w * (1 * (1 - u) * (1 - u)) == K * w * a2)%Q) by (unfold a2; ring).
  assert (E4 : (K * w * (1 * (1 + u) * (1 + u)) == K * w * b2)%Q) by (unfold b2; ring).
  rewrite E3 in Hk1. rewrite E4 in Hk2.
  (* the units times the draw of one, against the megawatts *)
  assert (Hup : (K * w <= mw * b2)%Q).
  { assert (H : (K <= mw * b2 * 1000000 / powerW)%Q) by lra.
    apply (Qmult_le_compat_r _ _ w) in H; [| lra].
    assert (E : (mw * b2 * 1000000 / powerW * w == mw * b2)%Q) by (unfold w; field; lra).
    rewrite E in H. exact H. }
  assert (Hdown : (mw * a2 < (K + 1) * w)%Q).
  { assert (H : (mw * a2 * 1000000 / powerW < K + 1)%Q) by lra.
    apply (Qmult_lt_compat_r _ _ w) in H; [| exact Hw].
    assert (E : (mw * a2 * 1000000 / powerW * w == mw * a2)%Q) by (unfold w; field; lra).
    rewrite E in H. exact H. }
  assert (E5 : ((1 + u) ^ 4 == b2 * b2)%Q) by (unfold b2; simpl; ring).
  assert (E6 : ((1 - u) ^ 4 == a2 * a2)%Q) by (unfold a2; simpl; ring).
  rewrite E5, E6. fold w. split.
  - eapply Qle_trans; [exact Hk2 |].
    assert (H : (K * w * b2 <= mw * b2 * b2)%Q) by (apply Qmult_le_compat_r; lra).
    lra.
  - assert (H1 : (mw * a2 * a2 <= (K + 1) * w * a2)%Q)
      by (apply Qmult_le_compat_r; lra).
    assert (H2 : (w * a2 <= w)%Q) by nra.
    destruct (Qlt_le_dec 0 a2) as [Hpos | Hzero].
    + assert (H3 : (mw * a2 * a2 < (K + 1) * w * a2)%Q)
        by (apply Qmult_lt_compat_r; lra).
      lra.
    + assert (Ea : (a2 == 0)%Q) by lra.
      assert (H3 : (mw * a2 * a2 == 0)%Q) by (rewrite Ea; ring).
      assert (H4 : (0 <= K * w * a2)%Q).
      { apply Qmult_le_0_compat; [| lra]. apply Qmult_le_0_compat; lra. }
      lra.
Qed.

Lemma MW_miners_round_trip_witness :
  (0 <= unitRoundoff64 <= 1)%Q /\ roundsWithin unitRoundoff64 round64 /\
  (0 < 3250)%Q /\ (0 <= round64 8.19)%Q /\
  Rounded.calculateMinersFromMW round64 (round64 8.19) 3250 = 2519 /\
  (round64 8.19 * (1 - unitRoundoff64) ^ 4
   < Rounded.calculateMWFromMiners
       round64 (Rounded.calculateMinersFromMW round64 (round64 8.19) 3250) 3250
     + 3250 / 1000000)%Q.
Proof.
  assert (H0 : (0 <= unitRoundoff64 <= 1)%Q) by (split; vm_compute; discriminate).
  assert (H1 : (0 < 3250)%Q) by reflexivity.
  assert (H2 : (0 <= round64 8.19)%Q) by (vm_compute; discriminate).
  split; [exact H0 | split; [exact round64_error | split; [exact H1 | split; [exact H2 |]]]].
  split; [vm_compute; reflexivity |].
  exact (proj2 (MW_miners_round_trip round64 unitRoundoff64 (round64 8.19) 3250
                                     H0 round64_error H1 H2)).
Defined.

(** The unit count the fleets page shows is the one the engine ages, when
    the model of the fleet is known and its power draw is not zero. *)
Theorem getFleetMiners_agrees_with_engine :
  forall (Math_exp : Q -> Q) (month : Date) (ctx : CalculationContext)
         (fleet : ASICFleet) (model : ASICModel),
    findModel ctx (modelId fleet) = Some model ->
    ~ (powerW model == 0)%Q ->
    getFleetMiners (asicModels ctx) fleet
    = totalMiners (fleetStatus Math_exp month ctx fleet).
Proof.
  intros Math_exp month ctx fleet model Hmodel Hpw.
  rewrite (fleetStatus_total Math_exp month ctx fleet model Hmodel).
  unfold getFleetMiners, fleetTotalMiners, getModelById.
  destruct (quantityMode fleet); [reflexivity |].
  change (List.find (fun m => String.eqb (model_id m) (modelId fleet)) (asicModels ctx))
    with (findModel ctx (modelId fleet)).
  rewrite Hmodel. unfold calculateMinersFromMW.
  destruct (Qeq_bool (powerW model) 0) eqn:E; [| reflexivity].
  apply Qeq_bool_iff in E. contradiction.
Qed.

Lemma getFleetMiners_agrees_with_engine_witness :
  findModel ex_ctx (modelId ex_fleet) = Some ex_model /\
  ~ (powerW ex_model == 0)%Q /\
  getFleetMiners (asicModels ex_ctx) ex_fleet
  = totalMiners (fleetStatus exp_taylor (mkDate 2024 2 1) ex_ctx ex_fleet).
Proof.
  assert (H1 : findModel ex_ctx (modelId ex_fleet) = Some ex_model) by reflexivity.
  assert (H2 : ~ (powerW ex_model == 0)%Q) by discriminate.
  split; [exact H1 | split; [exact H2 |]].
  exact (getFleetMiners_agrees_with_engine
           exp_taylor (mkDate 2024 2 1) ex_ctx ex_fleet ex_model H1 H2).
Defined.

(** ** Helpers of the economics page *)



(** ** The site records add up to the company totals *)

Lemma sumZ_add {A} (f g : A -> Z) l :
  sumZ (fun x => f x + g x) l = sumZ f l + sumZ g l.
Proof.
  induction l as [| x l IH]; [reflexivity |]. rewrite !sumZ_cons, IH. lia.
Qed.

Lemma sumQ_add {A} (f g : A -> Q) l :
  (sumQ (fun x => f x + g x) l == sumQ f l + sumQ g l)%Q.
Proof.
  induction l as [| x l IH]; [rewrite !sumQ_nil; ring |]. rewrite !sumQ_cons, IH. ring.
Qed.

Lemma sumQ_ext_eq {A} (f g : A -> Q) l :
  (forall x, In x l -> (f x == g x)%Q) -> (sumQ f l == sumQ g l)%Q.
Proof.
  induction l as [| x l IH]; intros H; [reflexivity |].
  rewrite !sumQ_cons, (H x), IH; [reflexivity | | now left].
  intros y Hy. apply H. now right.
Qed.

Lemma sumQ_zero {A} (f : A -> Q) l :
  (forall x, In x l -> (f x == 0)%Q) -> (sumQ f l == 0)%Q.
Proof.
  induction l as [| x l IH]; intros H; [reflexivity |].
  rewrite sumQ_cons, (H x), IH; [ring | | now left].
  intros y Hy. apply H. now right.
Qed.

Lemma sumZ_flat_map {A B} (f : B -> Z) (F : A -> list B) l :
  sumZ f (flat_map F l) = sumZ (fun x => sumZ f (F x)) l.
Proof.
  induction l as [| x l IH]; cbn [flat_map]; [reflexivity |].
  now rewrite sumZ_app, sumZ_cons, IH.
Qed.

Lemma sumQ_flat_map {A B} (f : B -> Q) (F : A -> list B) l :
  (sumQ f (flat_map F l) == sumQ (fun x => sumQ f (F x)) l)%Q.
Proof.
  induction l as [| x l IH]; cbn [flat_map]; [reflexivity |].
  now rewrite sumQ_app, sumQ_cons, IH.
Qed.

Section Partition.

Variable sitesList : list Site.
Hypothesis Hnodup : List.NoDup (map site_id sitesList).

Lemma one_site_matches_Z (key : string) (v : Z) (l : list Site) :
  List.NoDup (map site_id l) -> In key (map site_id l) ->
  sumZ (fun s => if String.eqb key (site_id s) then v else 0) l = v.
Proof.
  induction l as [| s l IH]; cbn [map]; intros Hnd Hin; [destruct Hin |].
  inversion Hnd as [| ? ? Hnotin Hnd']; subst.
  rewrite sumZ_cons.
  destruct (String.eqb key (site_id s)) eqn:E.
  - apply String.eqb_eq in E. subst key.
    assert (H0 : sumZ (fun s0 => if String.eqb (site_id s) (site_id s0) then v else 0) l = 0).
    { apply sumZ_zero. apply List.Forall_forall. intros s0 Hs0.
      destruct (String.eqb (site_id s) (site_id s0)) eqn:E0; [| reflexivity].
      apply String.eqb_eq in E0. exfalso. apply Hnotin. rewrite E0.
      now apply in_map. }
    rewrite H0. lia.
  - destruct Hin as [Heq | Hin].
    + apply String.eqb_neq in E. congruence.
    + rewrite IH by assumption. lia.
Qed.

Lemma one_site_matches_Q (key : string) (v : Q) (l : list Site) :
  List.NoDup (map site_id l) -> In key (map site_id l) ->
  (sumQ (fun s => if String.eqb key (site_id s) then v else 0) l == v)%Q.
Proof.
  induction l as [| s l IH]; cbn [map]; intros Hnd Hin; [destruct Hin |].
  inversion Hnd as [| ? ? Hnotin Hnd']; subst.
  rewrite sumQ_cons.
  destruct (String.eqb key (site_id s)) eqn:E.
  - apply String.eqb_eq in E. subst key.
    assert (H0 : (sumQ (fun s0 => if String.eqb (site_id s) (site_id s0) then v else 0) l
                  == 0)%Q).
    { apply sumQ_zero. intros s0 Hs0.
      destruct (String.eqb (site_id s) (site_id s0)) eqn:E0; [| reflexivity].
      apply String.eqb_eq in E0. exfalso. apply Hnotin. rewrite E0.
      now apply in_map. }
    rewrite H0. ring.
  - destruct Hin as [Heq | Hin].
    + apply String.eqb_neq in E. congruence.
    + rewrite IH by assumption. ring.
Qed.

Lemma partition_by_site_Z (f : MonthlyTrancheStatus -> Z) ts :
  (forall t, In t ts -> In (ts_siteId t) (map site_id sitesList)) ->
  sumZ (fun s => sumZ f (List.filter (fun t => String.eqb (ts_siteId t) (site_id s)) ts))
       sitesList
  = sumZ f ts.
Proof.
  induction ts as [| t ts IH]; intros Hin.
  - cbn [List.filter]. apply sumZ_zero. apply List.Forall_forall. reflexivity.
  - rewrite sumZ_cons, <- IH by (intros; apply Hin; now right).
    rewrite <- (one_site_matches_Z (ts_siteId t) (f t) sitesList Hnodup)
      by (apply Hin; now left).
    rewrite <- sumZ_add. apply sumZ_ext_in. intros s _. cbn [List.filter].
    destruct (String.eqb (ts_siteId t) (site_id s)); [now rewrite sumZ_cons | lia].
Qed.

Lemma partition_by_site_Q (f : MonthlyTrancheStatus -> Q) ts :
  (forall t, In t ts -> In (ts_siteId t) (map site_id sitesList)) ->
  (sumQ (fun s => sumQ f (List.filter (fun t => String.eqb (ts_siteId t) (site_id s)) ts))
        sitesList
   == sumQ f ts)%Q.
Proof.
  induction ts as [| t ts IH]; intros Hin.
  - cbn [List.filter]. apply sumQ_zero. intros s _. reflexivity.
  - rewrite sumQ_cons, <- IH by (intros; apply Hin; now right).
    rewrite <- (one_site_matches_Q (ts_siteId t) (f t) sitesList Hnodup)
      by (apply Hin; now left).
    rewrite <- sumQ_add. apply sumQ_ext_eq. intros s _. cbn [List.filter].
    destruct (String.eqb (ts_siteId t) (site_id s)); [now rewrite sumQ_cons | ring].
Qed.

End Partition.

Lemma activeTranches_site month ctx t :
  In t (activeTranches month ctx) -> In (ts_siteId t) (map site_id (sites ctx)).
Proof.
  unfold activeTranches. intros Ht.
  apply in_flat_map in Ht as [site [Hsite Ht]].
  apply in_flat_map in Ht as [tranche [_ Ht]].
  unfold initialTrancheStatus in Ht.
  destruct (isBefore month (tranche_startDate tranche)); [destruct Ht |].
  destruct Ht as [<- | []]. cbn [ts_siteId]. now apply in_map.
Qed.

Lemma allocated_site month ctx fs t :
  In t (allocateFleetsToTranches month ctx fs) ->
  In (ts_siteId t) (map site_id (sites ctx)).
Proof.
  intros Ht.
  destruct (proj1 (allocated_site_iff month ctx fs (ts_siteId t))) as [t0 [Hin0 Hid]].
  - exists t. now split.
  - rewrite <- Hid. now apply (activeTranches_site month ctx).
Qed.

Lemma siteMonthlyMetrics_miners month ctx ts th g tx price site :
  sumZ sm_activeMiners (siteMonthlyMetrics month ctx ts th g tx price site)
  = sumZ allocatedMiners (List.filter (fun t => String.eqb (ts_siteId t) (site_id site)) ts).
Proof.
  unfold siteMonthlyMetrics.
  destruct (List.filter _ ts) as [| t l]; [reflexivity |].
  cbv zeta. rewrite sumZ_cons, sumZ_nil. cbn [sm_activeMiners]. lia.
Qed.

Lemma siteMonthlyMetrics_hashrate month ctx ts th g tx price site :
  (sumQ sm_hashrateThs (siteMonthlyMetrics month ctx ts th g tx price site)
   == sumQ hashrateThs
           (List.filter (fun t => String.eqb (ts_siteId t) (site_id site)) ts))%Q.
Proof.
  unfold siteMonthlyMetrics.
  destruct (List.filter _ ts) as [| t l]; [reflexivity |].
  cbv zeta. rewrite (sumQ_cons sm_hashrateThs), sumQ_nil. cbn [sm_hashrateThs]. ring.
Qed.

Lemma siteMonthlyMetrics_power month ctx ts th g tx price site :
  (sumQ sm_powerUsedMW (siteMonthlyMetrics month ctx ts th g tx price site)
   == sumQ powerUsedMW
           (List.filter (fun t => String.eqb (ts_siteId t) (site_id site)) ts))%Q.
Proof.
  unfold siteMonthlyMetrics.
  destruct (List.filter _ ts) as [| t l]; [reflexivity |].
  cbv zeta. rewrite (sumQ_cons sm_powerUsedMW), sumQ_nil. cbn [sm_powerUsedMW]. ring.
Qed.

(** When the sites have distinct ids, the site records of a month add up to
    the company figures: the active miners of the sites to [activeMiners],
    their hashrates to [totalHashrateThs], and their power to the power used
    by all tranches. *)
Theorem site_records_add_up :
  forall (Math_exp : Q -> Q) (month : Date) (ctx : CalculationContext),
    List.NoDup (map site_id (sites ctx)) ->
    let m := calculateMonthMetrics Math_exp month ctx in
    sumZ sm_activeMiners (siteMetrics m) = m_activeMiners m /\
    (sumQ sm_hashrateThs (siteMetrics m) == totalHashrateThs m)%Q /\
    (sumQ sm_powerUsedMW (siteMetrics m) ==
     sumQ powerUsedMW
          (allocateFleetsToTranches month ctx
                                    (calculateFleetStatuses Math_exp month ctx)))%Q.
Proof.
  intros Math_exp month ctx Hnodup m. subst m.
  unfold calculateMonthMetrics. cbn [siteMetrics m_activeMiners totalHashrateThs].
  set (fs := calculateFleetStatuses Math_exp month ctx).
  set (ts := allocateFleetsToTranches month ctx fs).
  assert (Hin : forall t, In t ts -> In (ts_siteId t) (map site_id (sites ctx)))
    by (intros t; apply allocated_site).
  split; [| split].
  - rewrite sumZ_flat_map.
    rewrite <- (partition_by_site_Z (sites ctx) Hnodup allocatedMiners ts Hin).
    apply sumZ_ext_in. intros s _. apply siteMonthlyMetrics_miners.
  - rewrite sumQ_flat_map.
    rewrite <- (partition_by_site_Q (sites ctx) Hnodup hashrateThs ts Hin).
    apply sumQ_ext_eq. intros s _. apply siteMonthlyMetrics_hashrate.
  - rewrite sumQ_flat_map.
    rewrite <- (partition_by_site_Q (sites ctx) Hnodup powerUsedMW ts Hin).
    apply sumQ_ext_eq. intros s _. apply siteMonthlyMetrics_power.
Qed.

Lemma site_records_add_up_witness :
  List.NoDup (map site_id (sites ex_ctx_two_sites)) /\
  sumZ sm_activeMiners
       (siteMetrics (calculateMonthMetrics exp_taylor (mkDate 2024 2 1) ex_ctx_two_sites))
  = m_activeMiners (calculateMonthMetrics exp_taylor (mkDate 2024 2 1) ex_ctx_two_sites).
Proof.
  assert (H : List.NoDup (map site_id (sites ex_ctx_two_sites))).
  { cbn. repeat constructor; cbn; intuition discriminate. }
  split; [exact H |].
  exact (proj1 (site_records_add_up exp_taylor (mkDate 2024 2 1) ex_ctx_two_sites H)).
Defined.

(** ** 4.6 Staffing *)

Lemma calculateTeamCosts_sum month ctx scopeType target :
  (calculateTeamCosts month ctx scopeType target
   == sumQ (memberShare month ctx scopeType target) (teamMembers ctx))%Q.
Proof.
  unfold calculateTeamCosts.
  assert (H : forall l acc,
             (fold_left
                (fun totalCost member =>
                   if isBefore month (member_startDate member) then totalCost
                   else
                     match List.find (fun p => String.eqb (profile_id p) (profileId member))
                                     (teamProfiles ctx) with
                     | Some profile =>
                       totalCost + annualSalary profile * employmentRate member / 12
                     | None => totalCost
                     end)
                (List.filter
                   (fun member =>
                      if ScopeType_eqb (scope_type (scope member)) scopeType
                      then match scopeType with
                           | ScopeCompany => true
                           | _ => option_string_eqb (targetId (scope member)) target
                           end
                      else false) l) acc
              == acc + sumQ (memberShare month ctx scopeType target) l)%Q).
  { induction l as [| member l IH]; intros acc; cbn [List.filter].
    - cbn [fold_left]. rewrite sumQ_nil. ring.
    - rewrite sumQ_cons. unfold memberShare at 1.
      destruct (ScopeType_eqb (scope_type (scope member)) scopeType); cbn [andb].
      + destruct (match scopeType with
                  | ScopeCompany => true
                  | _ => option_string_eqb (targetId (scope member)) target
                  end); cbn [andb fold_left].
        * rewrite IH.
          destruct (isBefore month (member_startDate member)); cbn [negb]; [ring |].
          destruct (List.find _ (teamProfiles ctx)); ring.
        * rewrite IH. ring.
      + rewrite IH. ring. }
  rewrite H. ring.
Qed.

(** Staffing cost is counted member by member: the cost of two lists of
    members put together is the sum of their costs, and one member costs
    annual salary * employment rate / 12 when the member has the scope and
    target asked for, has started by the month and has a known profile, and
    nothing otherwise; for the company scope the target is not looked at. *)
Theorem calculateTeamCosts_by_member :
  forall (month : Date) (ctx : CalculationContext) (scopeType : ScopeType)
         (target : option string),
    (forall l1 l2,
        (calculateTeamCosts month (withTeamMembers ctx (l1 ++ l2)) scopeType target
         == calculateTeamCosts month (withTeamMembers ctx l1) scopeType target
            + calculateTeamCosts month (withTeamMembers ctx l2) scopeType target)%Q) /\
    (forall member,
        (calculateTeamCosts month (withTeamMembers ctx [member]) scopeType target
         == memberShare month ctx scopeType target member)%Q) /\
    calculateTeamCosts month ctx ScopeCompany target
    = calculateTeamCosts month ctx ScopeCompany None.
Proof.
  intros month ctx scopeType target. split; [| split].
  - intros l1 l2. rewrite !calculateTeamCosts_sum. cbn [withTeamMembers teamMembers].
    change (memberShare month (withTeamMembers ctx (l1 ++ l2)))
      with (memberShare month ctx).
    change (memberShare month (withTeamMembers ctx l1)) with (memberShare month ctx).
    change (memberShare month (withTeamMembers ctx l2)) with (memberShare month ctx).
    apply sumQ_app.
  - intros member. rewrite calculateTeamCosts_sum. cbn [withTeamMembers teamMembers].
    change (memberShare month (withTeamMembers ctx [member]))
      with (memberShare month ctx).
    rewrite sumQ_cons, sumQ_nil. ring.
  - reflexivity.
Qed.

(** With salaries and employment rates that are not negative, the staffing
    cost of any scope is not negative. *)
Theorem calculateTeamCosts_nonneg :
  forall (month : Date) (ctx : CalculationContext) (scopeType : ScopeType)
         (target : option string),
    Forall (fun p => (0 <= annualSalary p)%Q) (teamProfiles ctx) ->
    Forall (fun member => (0 <= employmentRate member)%Q) (teamMembers ctx) ->
    (0 <= calculateTeamCosts month ctx scopeType target)%Q.
Proof.
  intros month ctx scopeType target Hsal Hrate.
  rewrite calculateTeamCosts_sum.
  induction (teamMembers ctx) as [| member l IH]; [rewrite sumQ_nil; apply Qle_refl |].
  inversion Hrate as [| ? ? Hm Hl]; subst.
  rewrite sumQ_cons.
  assert (H0 : (0 <= memberShare month ctx scopeType target member)%Q).
  { unfold memberShare. destruct (_ && _ && _); [| apply Qle_refl].
    destruct (List.find _ (teamProfiles ctx)) as [profile |] eqn:Hp; [| apply Qle_refl].
    apply find_some in Hp as [Hin _].
    rewrite List.Forall_forall in Hsal. specialize (Hsal profile Hin).
    apply Qle_shift_div_l; [reflexivity |]. rewrite Qmult_0_l.
    now apply Qmult_le_0_compat. }
  specialize (IH Hl).
  set (a := memberShare month ctx scopeType target member) in *.
  set (b := sumQ (memberShare month ctx scopeType target) l) in *.
  lra.
Qed.

Lemma calculateTeamCosts_nonneg_witness :
  Forall (fun p => (0 <= annualSalary p)%Q) (teamProfiles ex_ctx) /\
  Forall (fun member => (0 <= employmentRate member)%Q) (teamMembers ex_ctx) /\
  (0 <= calculateTeamCosts (mkDate 2024 2 1) ex_ctx ScopeSite (Some "site-1"%string))%Q.
Proof.
  assert (H1 : Forall (fun p => (0 <= annualSalary p)%Q) (teamProfiles ex_ctx))
    by (repeat constructor; discriminate).
  assert (H2 : Forall (fun member => (0 <= employmentRate member)%Q) (teamMembers ex_ctx))
    by (repeat constructor; discriminate).
  split; [exact H1 | split; [exact H2 |]].
  exact (calculateTeamCosts_nonneg (mkDate 2024 2 1) ex_ctx ScopeSite
                                   (Some "site-1"%string) H1 H2).
Defined.

(** ** 4.7 Company lines and site lines *)

Lemma sumQ_scale {A} (f : A -> Q) (c : Q) l :
  (sumQ (fun x => f x * c) l == sumQ f l * c)%Q.
Proof.
  induction l as [| x l IH]; [rewrite !sumQ_nil; ring |]. rewrite !sumQ_cons, IH. ring.
Qed.

Lemma sumQ_minus {A} (f g : A -> Q) l :
  (sumQ (fun x => f x - g x) l == sumQ f l - sumQ g l)%Q.
Proof.
  induction l as [| x l IH]; [rewrite !sumQ_nil; ring |]. rewrite !sumQ_cons, IH. ring.
Qed.

Lemma siteMonthlyMetrics_lines month ctx ts th g tx price site s :
  In s (siteMonthlyMetrics month ctx ts th g tx price site) ->
  siteLinesConsistent price s.
Proof.
  unfold siteMonthlyMetrics.
  destruct (List.filter _ ts) as [| t l]; [intros [] |].
  cbv zeta. intros [<- | []]. unfold siteLinesConsistent.
  cbn [sm_revenue sm_btcMined sm_ebitda sm_electricityCost sm_opexCost sm_teamCost
       sm_totalExpenses sm_capexDepreciation sm_minerDepreciation].
  split; [reflexivity | split; reflexivity].
Qed.

Lemma siteMetrics_lines Math_exp month ctx s :
  In s (siteMetrics (calculateMonthMetrics Math_exp month ctx)) ->
  siteLinesConsistent (in_btcPriceUSD (economicInputs month ctx)) s.
Proof.
  unfold calculateMonthMetrics. cbv zeta. cbn [siteMetrics].
  rewrite in_flat_map. intros (site & _ & Hs).
  exact (siteMonthlyMetrics_lines _ _ _ _ _ _ _ _ _ Hs).
Qed.

(** The money lines of the site records add up to the company lines: site
    revenues to [revenueUSD]; site EBITDAs, less the company-scope staffing,
    to [ebitda]; site expenses, plus the company-scope staffing, to
    [totalExpenses].  And [costPerBTC] is [totalExpenses] per coin when coins
    were mined, 0 when none were. *)
Theorem site_lines_add_up :
  forall (Math_exp : Q -> Q) (month : Date) (ctx : CalculationContext),
    let m := calculateMonthMetrics Math_exp month ctx in
    let companyTeamCost := calculateTeamCosts month ctx ScopeCompany None in
    (sumQ sm_revenue (siteMetrics m) == revenueUSD m)%Q /\
    (sumQ sm_ebitda (siteMetrics m) - companyTeamCost == ebitda m)%Q /\
    (sumQ sm_totalExpenses (siteMetrics m) + companyTeamCost == totalExpenses m)%Q /\
    ((0 < totalBTC m)%Q -> (costPerBTC m * totalBTC m == totalExpenses m)%Q) /\
    ((totalBTC m <= 0)%Q -> costPerBTC m = 0%Q).
Proof.
  intros Math_exp month ctx m companyTeamCost.
  pose proof (siteMetrics_lines Math_exp month ctx) as Hlines. fold m in Hlines.
  set (price := in_btcPriceUSD (economicInputs month ctx)) in Hlines.
  assert (Hrev : (sumQ sm_revenue (siteMetrics m) == sumQ sm_btcMined (siteMetrics m) * price)%Q).
  { rewrite <- sumQ_scale. apply sumQ_ext_eq. intros s Hs.
    destruct (Hlines s Hs) as (-> & _). reflexivity. }
  assert (Hebitda :
            (sumQ sm_ebitda (siteMetrics m)
             == sumQ sm_revenue (siteMetrics m)
                - (sumQ sm_electricityCost (siteMetrics m) + sumQ sm_opexCost (siteMetrics m)
                   + sumQ sm_teamCost (siteMetrics m)))%Q).
  { rewrite <- !sumQ_add, <- sumQ_minus. apply sumQ_ext_eq. intros s Hs.
    destruct (Hlines s Hs) as (_ & -> & _). reflexivity. }
  assert (Hexp :
            (sumQ sm_totalExpenses (siteMetrics m)
             == sumQ sm_electricityCost (siteMetrics m) + sumQ sm_opexCost (siteMetrics m)
                + sumQ sm_capexDepreciation (siteMetrics m)
                + sumQ sm_minerDepreciation (siteMetrics m)
                + sumQ sm_teamCost (siteMetrics m))%Q).
  { rewrite <- !sumQ_add. apply sumQ_ext_eq. intros s Hs.
    destruct (Hlines s Hs) as (_ & _ & ->). reflexivity. }
  assert (Hm_rev : revenueUSD m = (sumQ sm_btcMined (siteMetrics m) * price)%Q)
    by reflexivity.
  assert (Hm_ebitda :
            ebitda m
            = (revenueUSD m
               - (sumQ sm_electricityCost (siteMetrics m) + sumQ sm_opexCost (siteMetrics m)
                  + (sumQ sm_teamCost (siteMetrics m) + companyTeamCost)))%Q)
    by reflexivity.
  assert (Hm_exp :
            totalExpenses m
            = (sumQ sm_electricityCost (siteMetrics m) + sumQ sm_opexCost (siteMetrics m)
               + sumQ sm_capexDepreciation (siteMetrics m)
               + sumQ sm_minerDepreciation (siteMetrics m)
               + (sumQ sm_teamCost (siteMetrics m) + companyTeamCost))%Q)
    by reflexivity.
  assert (Hm_cost :
            costPerBTC m
            = if Qlt_le_dec 0 (totalBTC m) then (totalExpenses m / totalBTC m)%Q else 0%Q)
    by reflexivity.
  split; [| split; [| split; [| split]]].
  - rewrite Hm_rev. exact Hrev.
  - rewrite Hm_ebitda, Hebitda, Hm_rev, Hrev. ring.
  - rewrite Hm_exp, Hexp. ring.
  - intros Hpos. rewrite Hm_cost.
    destruct (Qlt_le_dec 0 (totalBTC m)) as [_ | Hle]; [| exfalso; lra].
    field. intros Hz. rewrite Hz in Hpos. discriminate.
  - intros Hle. rewrite Hm_cost.
    destruct (Qlt_le_dec 0 (totalBTC m)) as [Hpos | _]; [exfalso; lra | reflexivity].
Qed.

(** ** Hashprice of the economics page and the revenue of the engine *)

(** With a positive global hashrate, the coins the engine credits before
    pool fees (subsidy and fees), valued at the month's price, are the
    hashprice of the economics page (dollars per PH/s and day) times the
    hashrate in PH/s times the 30 days of the engine's month. *)
Theorem hashprice_agrees_with_engine :
  forall (Math_exp : Q -> Q) (month : Date) (ctx : CalculationContext),
    let inputs := economicInputs month ctx in
    let m := calculateMonthMetrics Math_exp month ctx in
    (0 < in_globalHashrateEH inputs)%Q ->
    ((btcMined m + txFeeRevenueBTC m) * in_btcPriceUSD inputs
     == calculateHashprice (in_btcPriceUSD inputs) (in_globalHashrateEH inputs)
                           (in_txFeesPerBlock inputs) month
        * (totalHashrateThs m / 1000) * DAYS_PER_MONTH)%Q.
Proof.
  intros Math_exp month ctx inputs m Hpos.
  assert (Hb : btcMined m
               = (hashrateFractionOf (totalHashrateThs m)
                                     (in_globalHashrateEH inputs * 1000000)
                  * getBlockReward month * BLOCKS_PER_MONTH)%Q) by reflexivity.
  assert (Ht : txFeeRevenueBTC m
               = (hashrateFractionOf (totalHashrateThs m)
                                     (in_globalHashrateEH inputs * 1000000)
                  * in_txFeesPerBlock inputs * BLOCKS_PER_MONTH)%Q) by reflexivity.
  rewrite Hb, Ht. unfold hashrateFractionOf, calculateHashprice.
  destruct (Qlt_le_dec 0 (in_globalHashrateEH inputs * 1000000)) as [_ | Hle];
    [| exfalso; lra].
  cbv zeta. unfold BLOCKS_PER_MONTH, BLOCKS_PER_DAY, DAYS_PER_MONTH.
  field. intros Hz. rewrite Hz in Hpos. discriminate.
Qed.

Lemma hashprice_agrees_with_engine_witness :
  let month := mkDate 2024 2 1 in
  let inputs := economicInputs month ex_ctx in
  let m := calculateMonthMetrics exp_taylor month ex_ctx in
  (0 < in_globalHashrateEH inputs)%Q /\
  ((btcMined m + txFeeRevenueBTC m) * in_btcPriceUSD inputs
   == calculateHashprice (in_btcPriceUSD inputs) (in_globalHashrateEH inputs)
                         (in_txFeesPerBlock inputs) month
      * (totalHashrateThs m / 1000) * DAYS_PER_MONTH)%Q.
Proof.
  assert (H : (0 < in_globalHashrateEH (economicInputs (mkDate 2024 2 1) ex_ctx))%Q)
    by (vm_compute; reflexivity).
  split; [exact H |].
  exact (hashprice_agrees_with_engine exp_taylor (mkDate 2024 2 1) ex_ctx H).
Defined.
